(** * blokus_ai: the Rainbow-DQN agent and its value models

    A shallow embedding of [src/rainbow/models.py] and [src/agent.py].

    Conventions of the embedding.
    - A torch tensor of [float32] is a list of real numbers ([R]); a 2-D
      tensor is a list of rows, a 3-D tensor a list of 2-D tensors.
      Arithmetic is exact: rounding is not modelled.
    - A Python exception is a value of [exn]; code that can raise returns
      [exc A].
    - Library networks ([nn.Sequential] of [nn.Linear], [nn.ReLU],
      [nn.Conv2d]) are functions given as section variables; what the
      repository itself computes (masking, softmax post-processing, the
      dueling combination, noisy layers, targets, the projection, the
      epsilon schedule, the target-network copy, the one-hot encoding,
      the policy, replay and the bookkeeping of rewards) is written
      out. *)

From Stdlib Require Import Reals Lra Lia ZArith List Sorted.
From stdpp Require Import gmap strings list.

Local Open Scope R_scope.

(** ** Python exceptions *)

Inductive exn : Type :=
| TypeError
| IndexError
| RuntimeError.

Definition exc (A : Type) : Type := (exn + A)%type.

Definition ret {A} (a : A) : exc A := inr a.
Definition raise {A} (e : exn) : exc A := inl e.

Definition bind {A B} (c : exc A) (k : A → exc B) : exc B :=
  match c with
  | inl e => inl e
  | inr a => k a
  end.

Notation "'let!' x ':=' c 'in' k" := (bind c (fun x => k))
  (at level 10, x name, c at level 100, k at level 200).

(** [mapM] runs a raising function over a list, left to right. *)
Fixpoint mapM {A B} (f : A → exc B) (l : list A) : exc (list B) :=
  match l with
  | [] => ret []
  | a :: l' => let! b := f a in let! bs := mapM f l' in ret (b :: bs)
  end.

(** ** Tensor primitives of torch used by the repository *)

Definition Rsum (l : list R) : R := foldr Rplus 0 l.
Global Arguments Rsum : simpl never.

(** [torch.zeros(n)] *)
Definition zeros (n : nat) : list R := repeat 0 n.

(** [F.softmax] along the last dimension of one row. *)
Definition softmax (row : list R) : list R :=
  let s := Rsum (map exp row) in
  map (λ v, exp v / s) row.

(** [t.clamp(lo)]: lower bound only. *)
Definition clamp_min (lo : R) (t : list R) : list R := map (Rmax lo) t.

(** [x.clamp(lo, hi)] on a scalar: [min(max(x, lo), hi)]. *)
Definition clamp (lo hi x : R) : R := Rmin (Rmax x lo) hi.

(** [t.mean()] over every element of a 2-D tensor. *)
Definition mean2 (t : list (list R)) : R :=
  Rsum (concat t) / INR (length (concat t)).

(** [t.max()] of a 1-D tensor; torch raises on an empty tensor. *)
Definition tensor_max (t : list R) : exc R :=
  match t with
  | [] => raise RuntimeError
  | v :: t' => ret (foldl Rmax v t')
  end.

(** [t.argmax()] of a 1-D tensor: the index of the first maximal entry. *)
Fixpoint argmax_aux (best_i : nat) (best : R) (i : nat) (t : list R) : nat :=
  match t with
  | [] => best_i
  | v :: t' =>
      if Rlt_dec best v then argmax_aux i v (S i) t'
      else argmax_aux best_i best (S i) t'
  end.

Definition argmax (t : list R) : exc nat :=
  match t with
  | [] => raise RuntimeError
  | v :: t' => ret (argmax_aux 0 v 1 t')
  end.

(** [t[i]] on a 1-D tensor with a non-negative index. *)
Definition index (t : list R) (i : nat) : exc R :=
  match t !! i with
  | Some v => ret v
  | None => raise IndexError
  end.

(** The arg-max of a row restricted to a list of candidate indices: the
    first candidate whose entry is maximal among the candidates. *)
Fixpoint argmax_over_aux (row : list R) (best_i : nat) (best : R)
    (cands : list nat) : nat :=
  match cands with
  | [] => best_i
  | j :: cands' =>
      let v := default 0 (row !! j) in
      if Rlt_dec best v then argmax_over_aux row j v cands'
      else argmax_over_aux row best_i best cands'
  end.

Definition argmax_over (cands : list nat) (row : list R) : option nat :=
  match cands with
  | [] => None
  | j :: cands' => Some (argmax_over_aux row j (default 0 (row !! j)) cands')
  end.

(** [torch.linspace(start, end, steps)] *)
Definition linspace (start stop : R) (steps : nat) : list R :=
  match steps with
  | 0%nat => []
  | 1%nat => [start]
  | _ => map (λ k, start + INR k * ((stop - start) / INR (steps - 1)))
             (seq 0 steps)
  end.

(** [t.reshape(-1, rows, cols)] of a flat tensor. *)
Definition chunk {A} (size count : nat) (l : list A) : list (list A) :=
  map (λ i, take size (drop (i * size) l)) (seq 0 count).

Definition reshape3 (rows cols : nat) (flat : list R)
  : exc (list (list (list R))) :=
  let block := (rows * cols)%nat in
  if decide (block = 0%nat) then raise RuntimeError
  else if decide (length flat `mod` block = 0)%nat then
    ret (map (chunk cols rows) (chunk block (length flat `div` block) flat))
  else raise RuntimeError.

(** * rainbow/models.py *)

(** ** class LegalSoftmax *)
Module LegalSoftmax.

(** The value written over every zero entry. *)
Definition sentinel : R := -1000.

(** [actions_tensor[i, legal_moves[i]] = 1.0] on the zero row [i], for
    a list [legal_moves[i]] of action indices counted from 0: an index
    outside the row raises. *)
Definition mark (legal : list nat) (n : nat) : exc (list R) :=
  if forallb (λ j, j <? n)%nat legal
  then ret (foldl (λ acc j, <[j := 1]> acc) (zeros n) legal)
  else raise IndexError.

(** [filtered_actions = x * actions_tensor] followed by
    [filtered_actions[filtered_actions == 0] = -1000], on one row. *)
Definition filter_row (x actions : list R) : list R :=
  zip_with (λ v m, let p := v * m in
                   if Req_dec_T p 0 then sentinel else p) x actions.

(** The loop [for i in range(batch_size)] building [actions_tensor]:
    [legal_moves[i]] is read for every row [i], so a shorter
    [possible_moves] raises. *)
Fixpoint actions_tensor (x : list (list R)) (legal_moves : list (list nat))
  : exc (list (list R)) :=
  match x with
  | [] => ret []
  | row :: x' =>
      match legal_moves with
      | [] => raise IndexError
      | legal :: lm' =>
          let! a := mark legal (length row) in
          let! rest := actions_tensor x' lm' in
          ret (a :: rest)
      end
  end.

Definition forward (x : list (list R)) (possible_moves : list (list nat))
  : exc (list (list R)) :=
  let! actions := actions_tensor x possible_moves in
  let filtered_actions := zip_with filter_row x actions in
  ret (map softmax filtered_actions).

End LegalSoftmax.

(** Values that [agent.py] passes at its call sites: an observation tensor
    or the gym environment object. [nn.Module.__call__] hands the
    positional arguments to [forward]; a wrong number of them, or an
    argument of the wrong kind, is a [TypeError]. *)
Inductive pyobj : Type :=
| PyTensor (t : list R)
| PyEnv.

(** ** class DQN *)
Module DQN.
Section DQN.
(** [self.layers], an [nn.Sequential] of linear layers. *)
Variable layers : list R → list R.

Definition forward {PM : Type} (x : list R) (possible_moves : PM) : list R :=
  let x := layers x in
  x.

(** [self(...)] as seen from a call site. *)
Definition call (args : list pyobj) : exc (list R) :=
  match args with
  | [PyTensor x; possible_moves] => ret (forward x possible_moves)
  | _ => raise TypeError
  end.
End DQN.
End DQN.

(** ** class DuelingNetwork *)
Module DuelingNetwork.
Section DuelingNetwork.
(** The three [nn.Sequential] blocks, applied to one row of the batch;
    [value_layer] ends in [nn.Linear(24, 1)], a single output unit. *)
Variable input_layer : list R → list R.
Variable advantage_layer : list R → list R.
Variable value_layer : list R → R.

(** [advantage + value] with [value] of shape (batch, 1) broadcast along
    the actions, before the mean is subtracted. *)
Definition value_plus_advantage (advantage : list (list R))
    (value : list R) : list (list R) :=
  zip_with (λ adv v, map (λ a, a + v) adv) advantage value.

Definition forward (x : list (list R)) (possible_moves : list (list nat))
  : exc (list (list R)) :=
  let x := map input_layer x in
  let advantage := map advantage_layer x in
  let! advantage := LegalSoftmax.forward advantage possible_moves in
  let value := map value_layer x in
  let m := mean2 advantage in
  ret (map (map (λ q, q - m)) (value_plus_advantage advantage value)).
End DuelingNetwork.
End DuelingNetwork.

(** ** numpy's generator

    [np.random] is a source of standard normal variates consumed in
    order; [normal(loc, scale, size)] takes the next [size] of them. *)
Record RandomState : Type := {
  variates : nat → R;
  position : nat
}.

Definition normal (loc scale : R) (size : nat) (g : RandomState)
  : list R * RandomState :=
  (map (λ k, loc + scale * variates g (position g + k)) (seq 0 size),
   {| variates := variates g; position := position g + size |}).

(** [torch.sign] *)
Definition sign (x : R) : R :=
  if Rlt_dec x 0 then -1 else if Rlt_dec 0 x then 1 else 0.

(** [u.ger(v)], the outer product. *)
Definition ger (u v : list R) : list (list R) :=
  map (λ a, map (λ b, a * b) v) u.

(** [F.linear(x, weight, bias)] on one input row. *)
Definition linear (x : list R) (weight : list (list R)) (bias : list R)
  : list R :=
  zip_with Rplus (map (λ w, Rsum (zip_with Rmult x w)) weight) bias.

Definition relu (x : list R) : list R := map (Rmax 0) x.

(** ** class NoisyLayer *)
Module NoisyLayer.

Record t : Type := {
  in_dim : nat;
  out_dim : nat;
  mu_w : list (list R);
  mu_b : list R;
  sigma_w : list (list R);
  sigma_b : list R;
  eps_w : list (list R);
  eps_b : list R
}.

Definition set_eps_w (w : list (list R)) (l : t) : t :=
  {| in_dim := in_dim l; out_dim := out_dim l;
     mu_w := mu_w l; mu_b := mu_b l;
     sigma_w := sigma_w l; sigma_b := sigma_b l;
     eps_w := w; eps_b := eps_b l |}.

Definition set_eps_b (b : list R) (l : t) : t :=
  {| in_dim := in_dim l; out_dim := out_dim l;
     mu_w := mu_w l; mu_b := mu_b l;
     sigma_w := sigma_w l; sigma_b := sigma_b l;
     eps_w := eps_w l; eps_b := b |}.

(** [x.sign().mul(x.abs().sqrt())] *)
Definition transform (x : list R) : list R :=
  zip_with Rmult (map sign x) (map (λ v, sqrt (Rabs v)) x).

Definition factorize_noise (size : nat) (g : RandomState)
  : list R * RandomState :=
  let '(x, g) := normal 0 (1 / 1000) size g in
  (transform x, g).

(** The receiver of [.ger] is evaluated before its argument; the
    statement for [eps_b] runs after the one for [eps_w]. *)
Definition update_noise (l : t) (g : RandomState) : t * RandomState :=
  let '(f_out, g) := factorize_noise (out_dim l) g in
  let '(f_in, g) := factorize_noise (in_dim l) g in
  let l := set_eps_w (ger f_out f_in) l in
  let '(f_b, g) := factorize_noise (out_dim l) g in
  let l := set_eps_b f_b l in
  (l, g).

Definition forward (l : t) (x : list R) : list R :=
  linear x
    (zip_with (zip_with Rplus) (mu_w l)
       (zip_with (zip_with Rmult) (sigma_w l) (eps_w l)))
    (zip_with Rplus (mu_b l) (zip_with Rmult (sigma_b l) (eps_b l))).

End NoisyLayer.

(** The lower bound of [.clamp(1e-5)]. *)
Definition mass_floor : R := 1 / 100000.

(** [self.softmax(q).clamp(1e-5)] with [nn.Softmax(dim=2)] on a tensor of
    shape (batch, actions, bins). *)
Definition softmax_clamp (q : list (list (list R))) : list (list (list R)) :=
  map (map (λ bins, clamp_min mass_floor (softmax bins))) q.

(** [torch.sum(distr * v_range, dim=2)] *)
Definition expectation (v_range : list R) (distr : list (list (list R)))
  : list (list R) :=
  map (map (λ bins, Rsum (zip_with Rmult bins v_range))) distr.

(** ** class DistributionalNetwork *)
Module DistributionalNetwork.
Section DistributionalNetwork.
Variable out_dim num_bins : nat.
Variable v_range : list R.
(** [self.layers], applied to one row of the batch. *)
Variable layers : list R → list R.

(** A 1-D observation [s] is the batch [[s]]. *)
Definition action_distr {E : Type} (x : list (list R)) (env : E)
  : exc (list (list (list R))) :=
  let x := concat (map layers x) in
  let! x := reshape3 out_dim num_bins x in
  ret (softmax_clamp x).

Definition forward {E : Type} (x : list (list R)) (env : E)
  : exc (list (list R)) :=
  let! d := action_distr x env in
  ret (expectation v_range d).
End DistributionalNetwork.
End DistributionalNetwork.

(** ** class NoisyDuelingDistributionalNetwork *)
Module NoisyDuelingDistributionalNetwork.
Section NoisyDuelingDistributionalNetwork.
Variable out_dim num_bins : nat.
Variable v_range : list R.
(** [self.input_layer(x.unsqueeze(1))] followed by
    [.view(batch_size, -1)], on one item of the batch. *)
Variable input_layer : list (list R) → list R.
Variable advantage_layer_hidden advantage_layer_out : NoisyLayer.t.
Variable value_layer_hidden value_layer_out : NoisyLayer.t.

(** [advantage.mean(dim=1, keepdim=True)] on one item: the mean over the
    actions, for every bin. *)
Definition mean_over_actions (advantage : list (list R)) : list R :=
  map (λ k, Rsum (map (λ a, default 0 (a !! k)) advantage)
            / INR (length advantage))
      (seq 0 num_bins).

(** [value + advantage - advantage.mean(dim=1, keepdim=True)], with
    [value] of shape (batch, 1, bins) broadcast along the actions. *)
Definition combine (value advantage : list (list (list R)))
  : list (list (list R)) :=
  zip_with (λ v adv,
              let m := mean_over_actions adv in
              map (λ a, zip_with Rminus
                          (zip_with Rplus (default [] (v !! 0%nat)) a) m)
                  adv)
           value advantage.

Definition action_distr {PM : Type} (x : list (list (list R)))
    (possible_moves : PM) : exc (list (list (list R))) :=
  let x := map input_layer x in
  let advantage := map (NoisyLayer.forward advantage_layer_hidden) x in
  let advantage := map relu advantage in
  let value := map (NoisyLayer.forward value_layer_hidden) x in
  let value := map relu value in
  let! advantage :=
    reshape3 out_dim num_bins
      (concat (map (NoisyLayer.forward advantage_layer_out) advantage)) in
  let! value :=
    reshape3 1 num_bins
      (concat (map (NoisyLayer.forward value_layer_out) value)) in
  let q := combine value advantage in
  ret (softmax_clamp q).

Definition forward {PM : Type} (x : list (list (list R)))
    (possible_moves : PM) : exc (list (list R)) :=
  let! d := action_distr x possible_moves in
  ret (expectation v_range d).
End NoisyDuelingDistributionalNetwork.
End NoisyDuelingDistributionalNetwork.

(** ** class DQNConv *)
Module DQNConv.
Section DQNConv.
(** [self.layers(x.unsqueeze(1))] followed by [.view(batch_size, -1)], on
    one image of the batch, and [self.rectify]. *)
Variable layers : list (list R) → list R.
Variable rectify : list R → list R.

Definition forward (x : list (list (list R)))
    (possible_moves : list (list nat)) : exc (list (list R)) :=
  let x := map layers x in
  let x := map rectify x in
  LegalSoftmax.forward x possible_moves.
End DQNConv.
End DQNConv.

(** ** class NoisyNetwork *)
Module NoisyNetwork.

Record t : Type := {
  hidden_noisy_layer : NoisyLayer.t;
  output_noisy_layer : NoisyLayer.t
}.

Section NoisyNetwork.
(** [self.input_layer], a linear layer and a ReLU, on one state. *)
Variable input_layer : list R → list R.

Definition update_noise (n : t) (g : RandomState) : t * RandomState :=
  let '(hidden, g) := NoisyLayer.update_noise (hidden_noisy_layer n) g in
  let '(output, g) := NoisyLayer.update_noise (output_noisy_layer n) g in
  ({| hidden_noisy_layer := hidden; output_noisy_layer := output |}, g).

Definition forward (n : t) (x : list R) : list R :=
  let x := input_layer x in
  let x := relu (NoisyLayer.forward (hidden_noisy_layer n) x) in
  NoisyLayer.forward (output_noisy_layer n) x.

(** [self(...)] as seen from a call site: [forward] takes the state
    only. *)
Definition call (n : t) (args : list pyobj) : exc (list R) :=
  match args with
  | [PyTensor x] => ret (forward n x)
  | _ => raise TypeError
  end.
End NoisyNetwork.
End NoisyNetwork.

(** [a + v] on rows of a 2-D tensor, with torch's broadcasting along the
    last dimension: the widths must agree unless one of them is 1. *)
Definition broadcast_add (a v : list R) : exc (list R) :=
  match a, v with
  | _, [c] => ret (map (λ q, q + c) a)
  | [c], _ => ret (map (λ q, c + q) v)
  | _, _ =>
      if decide (length a = length v) then ret (zip_with Rplus a v)
      else raise RuntimeError
  end.

(** ** class NoisyDuelingNetwork *)
Module NoisyDuelingNetwork.

Record t : Type := {
  advantage_layer_hidden : NoisyLayer.t;
  advantage_layer_out : NoisyLayer.t;
  value_layer_hidden : NoisyLayer.t;
  value_layer_out : NoisyLayer.t
}.

Section NoisyDuelingNetwork.
(** [self.input_layer], a linear layer and a ReLU, on one state. *)
Variable input_layer : list R → list R.

Definition update_noise (n : t) (g : RandomState) : t * RandomState :=
  let '(ah, g) := NoisyLayer.update_noise (advantage_layer_hidden n) g in
  let '(ao, g) := NoisyLayer.update_noise (advantage_layer_out n) g in
  let '(vh, g) := NoisyLayer.update_noise (value_layer_hidden n) g in
  let '(vo, g) := NoisyLayer.update_noise (value_layer_out n) g in
  ({| advantage_layer_hidden := ah; advantage_layer_out := ao;
      value_layer_hidden := vh; value_layer_out := vo |}, g).

(** [self.custom_softmax] is built by [__init__] and never applied:
    [possible_moves] is not used. *)
Definition forward {PM : Type} (n : t) (x : list (list R))
    (possible_moves : PM) : exc (list (list R)) :=
  let x := map input_layer x in
  let advantage := map (NoisyLayer.forward (advantage_layer_hidden n)) x in
  let advantage := map relu advantage in
  let advantage :=
    map (NoisyLayer.forward (advantage_layer_out n)) advantage in
  let value := map (NoisyLayer.forward (value_layer_hidden n)) x in
  let value := map relu value in
  let value := map (NoisyLayer.forward (value_layer_out n)) value in
  let! q := mapM (λ '(a, v), broadcast_add a v) (zip advantage value) in
  let m := mean2 advantage in
  ret (map (map (λ q, q - m)) q).
End NoisyDuelingNetwork.
End NoisyDuelingNetwork.

(** * agent.py *)

(** A tensor of dimension 0 or 1, as the reward and the target of the
    distributional update are. *)
Inductive tensor : Type :=
| Scalar (v : R)
| Vector (v : list R).

Definition tensor_map (f : R → R) (t : tensor) : tensor :=
  match t with
  | Scalar v => Scalar (f v)
  | Vector v => Vector (map f v)
  end.

(** [t.long()]: truncation towards zero. *)
Definition long (x : R) : Z := if Rle_dec 0 x then Zfloor x else Zceil x.

(** [self.index_add_(0, index, source)] on 1-D tensors: for every [k],
    [self[index[k]] += source[k]]. *)
Fixpoint index_add_ (self : list R) (index : list Z) (source : list R)
  : exc (list R) :=
  match index, source with
  | [], [] => ret self
  | i :: index', v :: source' =>
      if decide (0 ≤ i < Z.of_nat (length self))%Z
      then index_add_ (alter (λ s, s + v) (Z.to_nat i) self) index' source'
      else raise IndexError
  | _, _ => raise RuntimeError
  end.

(** A 2-D tensor: its rows, and the size of its last dimension, which it
    has also when it has no row. *)
Record matrix : Type := {
  cols : nat;
  rows : list (list R)
}.

(** [t + v] for a tensor [t] of dimension 0 or 1 and a 1-D tensor [v],
    with torch's broadcasting. *)
Definition add_vector (t : tensor) (v : list R) : exc (list R) :=
  match t with
  | Scalar c => ret (map (λ x, c + x) v)
  | Vector u => broadcast_add u v
  end.

(** [m * t] for a 2-D tensor [m] and a tensor [t] of dimension 0 or 1:
    [t] is broadcast along the rows, and the sizes of the last dimension
    must agree unless one of them is 1. *)
Definition mul_matrix (m : matrix) (t : tensor) : exc matrix :=
  match t with
  | Scalar c =>
      ret {| cols := cols m; rows := map (map (λ x, x * c)) (rows m) |}
  | Vector w =>
      if decide (length w = cols m) then
        ret {| cols := cols m;
               rows := map (λ r, zip_with Rmult r w) (rows m) |}
      else if decide (length w = 1%nat) then
        ret {| cols := cols m;
               rows := map (map (λ x, x * hd 0 w)) (rows m) |}
      else if decide (cols m = 1%nat) then
        ret {| cols := length w;
               rows := map (λ r, map (λ y, hd 0 r * y) w) (rows m) |}
      else raise RuntimeError
  end.

(** The source of an [index_add_]: a tensor of dimension 1 or 2. *)
Inductive source : Type :=
| Source1 (v : list R)
| Source2 (m : matrix).

(** [s.shape] *)
Definition sizes (s : source) : list nat :=
  match s with
  | Source1 v => [length v]
  | Source2 m => [length (rows m); cols m]
  end.

(** [self.index_add_(0, index, source)] for a 1-D [self] and a source of
    dimension 1 or 2. torch checks that there are as many indices as
    [source] has slices along dimension 0, and that [source] without
    that dimension has the shape of [self] without it; only then are
    the slices added. *)
Definition index_add_source (self : list R) (index : list Z) (s : source)
  : exc (list R) :=
  if decide (length index ≠ hd 0%nat (sizes s)) then raise RuntimeError
  else if decide (tail (sizes s) ≠ tail [length self]) then
    raise RuntimeError
  else
    match s with
    | Source1 v => index_add_ self index v
    | Source2 _ => raise RuntimeError
    end.

Module Agent.

(** [self.distr_params] after [__init__]. *)
Record distr_params : Type := {
  num_bins : nat;
  v_min : R;
  v_max : R;
  v_range : list R
}.

(** [__init__], lines 63-67. *)
Definition init_distr_params (num_bins : nat) (v_min v_max : R)
  : distr_params :=
  {| num_bins := num_bins; v_min := v_min; v_max := v_max;
     v_range := linspace v_min v_max num_bins |}.

(** ** get_distributional_loss, lines 115-136

    The statements after the two calls of the network. *)
Section Distributional.
Variable p : distr_params.
Variable gamma : R.

(** Lines 115-119. *)
Definition d_target (reward : R) (done : bool) : tensor :=
  let d_target := Scalar (clamp (v_min p) (v_max p) reward) in
  if done
  then Vector (map (λ z, clamp (v_min p) (v_max p) (gamma * z + reward))
                   (v_range p))
  else d_target.

(** Line 120. *)
Definition v_step : R := (v_max p - v_min p) / (INR (num_bins p) - 1).

(** Line 121. *)
Definition delta (d_target : tensor) : tensor :=
  tensor_map (λ d, (d - v_min p) / v_step) d_target.

(** Lines 123-125. *)
Definition offset (batch_size : nat) : list R :=
  linspace 0 (INR ((batch_size - 1) * num_bins p)) batch_size.

(** Lines 130-136. [delta] is the tensor of line 121, of dimension 0 or
    1, [offset] the 1-D tensor of lines 123-125 and [next_action_distr]
    the 2-D tensor of line 127. [distr_projection] has the shape of
    [next_action_distr]; the two calls of [index_add_] are made on its
    1-D view [reshape(-1)], with the indices and then the source
    computed before each call. The result is the content of
    [distr_projection], row after row. *)
Definition distr_projection (delta : tensor) (offset : list R)
    (next_action_distr : matrix) : exc (list R) :=
  let floor := tensor_map (λ d, IZR (Zfloor d)) delta in
  let ceil := tensor_map (λ d, IZR (Zceil d)) delta in
  let distr_projection :=
    zeros (length (rows next_action_distr) * cols next_action_distr) in
  let! index := add_vector floor offset in
  let! source :=
    mul_matrix next_action_distr
      (tensor_map (λ d, IZR (Zceil d) - d) delta) in
  let! distr_projection :=
    index_add_source distr_projection (map long index) (Source2 source) in
  let! index := add_vector ceil offset in
  let! source :=
    mul_matrix next_action_distr
      (tensor_map (λ d, d - IZR (Zfloor d)) delta) in
  index_add_source distr_projection (map long index) (Source2 source).

(** Lines 115-136 for one transition, from the reward, [done] and the
    2-D tensor [next_action_distr] of line 127. *)
Definition projected_target (batch_size : nat) (reward : R) (done : bool)
    (next_action_distr : matrix) : exc (list R) :=
  distr_projection (delta (d_target reward done)) (offset batch_size)
    next_action_distr.
End Distributional.

(** ** get_target and get_target_double *)
Section Target.
(** [self.model], an instance of whichever class [__init__] chose, as a
    callable. *)
Variable model : list pyobj → exc (list R).
(** The layers of [self.model_target], which [__init__] always builds
    as a [DQN]. *)
Variable target_layers : list R → list R.
Variable gamma : R.
Variable is_double : bool.

(** [self.model_target(...)] *)
Definition call_model_target : list pyobj → exc (list R) :=
  DQN.call target_layers.

Definition get_target_double (next_state : list R) : exc R :=
  let! q := model [PyTensor next_state; PyEnv] in
  let! action := argmax q in
  let! q_target := call_model_target [PyTensor next_state] in
  index q_target action.

Definition get_target (reward : R) (done : bool) (next_state : list R)
  : exc R :=
  let target := reward in
  if negb done then
    let! next_state_max_Q :=
      if is_double then get_target_double next_state
      else (let! q := model [PyTensor next_state; PyEnv] in
            tensor_max q) in
    ret (next_state_max_Q * gamma + reward)
  else ret target.
End Target.

(** ** The epsilon schedule of train, line 185 *)
Section Epsilon.
Variable min_eps eps_decay : R.

(** The assignment of line 185, in episode [i]. *)
Definition decay (i : nat) (eps : R) : R :=
  min_eps + (eps - min_eps) * exp (- eps_decay * INR i).

(** [iterations] runs of the body of [while not done] in episode [i], as
    far as [self.eps] goes. The values assigned to [self.eps] are pushed
    on [trace], the latest first. *)
Fixpoint while_not_done (i : nat) (iterations : nat) (eps : R)
    (trace : list R) : R * list R :=
  match iterations with
  | O => (eps, trace)
  | S n =>
      let eps := decay i eps in
      while_not_done i n eps (eps :: trace)
  end.

(** [for i in range(num_episodes)], from episode [i] on. [done] is
    [False] when [while not done] is entered, so its body runs once and then
    some [m] further times, as the environment decides; [more] has the [m]
    of each remaining episode. *)
Fixpoint for_episodes (i : nat) (more : list nat) (eps : R)
    (trace : list R) : R * list R :=
  match more with
  | [] => (eps, trace)
  | m :: more' =>
      let '(eps, trace) := while_not_done i (S m) eps trace in
      for_episodes (S i) more' eps trace
  end.

(** [train] run for [length more] episodes from [self.eps = eps]. *)
Definition train_eps (more : list nat) (eps : R) : R * list R :=
  for_episodes 0 more eps [eps].
End Epsilon.

(** ** Network parameters: __init__, update and the copy of train

    Tensors live in a heap, a growing array addressed by position. A
    module ([nn.Module]) names the tensors it owns: its parameters,
    which an optimizer may train, and its buffers. *)

Record module : Type := {
  params : gmap string nat;
  buffers : gmap string nat
}.

Definition entries (m : module) : gmap string nat := params m ∪ buffers m.

(** [m.parameters()] *)
Definition parameters (m : module) : list nat := (map_to_list (params m)).*2.

(** Building a module allocates its tensors after every existing one. *)
Definition new_module (param_init buffer_init : list (string * list R))
    (heap : list (list R)) : module * list (list R) :=
  let np := length param_init in
  let nb := length buffer_init in
  ({| params := list_to_map (zip param_init.*1 (seq (length heap) np));
      buffers :=
        list_to_map (zip buffer_init.*1 (seq (length heap + np) nb)) |},
   heap ++ param_init.*2 ++ buffer_init.*2).

(** The parameter names of [DQN]: three [nn.Linear] in [self.layers]. *)
Definition DQN_names : list string :=
  ["layers.0.weight"; "layers.0.bias"; "layers.2.weight"; "layers.2.bias";
   "layers.4.weight"; "layers.4.bias"]%string.

(** [m.state_dict()], read at once. *)
Definition state_dict (m : module) (heap : list (list R))
  : gmap string (list R) :=
  omap (λ l, heap !! l) (entries m).

(** [t.copy_(values[name])] for every named tensor [t] that has a value
    in [values]. *)
Definition copy_named (values : gmap string (list R))
    (tensors : gmap string nat) (heap : list (list R))
  : list (list R) :=
  foldl (λ h '(name, l),
           match values !! name with
           | Some v => <[l := v]> h
           | None => h
           end)
        heap (map_to_list tensors).

(** [m.load_state_dict(sd)], strict: the keys must be those of [m] and
    every tensor must have the size of the one it overwrites; the values
    are then copied into the tensors of [m]. *)
Definition load_state_dict (m : module) (sd : gmap string (list R))
    (heap : list (list R)) : exc (list (list R)) :=
  if decide (dom sd = dom (entries m)) then
    if decide (map_Forall (λ name l,
                  length <$> sd !! name = length <$> heap !! l) (entries m))
    then ret (copy_named sd (entries m) heap)
    else raise RuntimeError
  else raise RuntimeError.

Section Parameters.
(** [torch.optim.Adam]: its running moments, and the new value it
    gives a parameter from the old one and the gradient. *)
Variable adam_state : Type.
Variable adam :
  adam_state → nat → list R → list R → list R * adam_state.

Record agent : Type := {
  heap : list (list R);
  model : module;
  model_target : option module;
  optimizer : list nat;
  optimizer_state : adam_state;
  is_noisy : bool
}.

Definition is_double (a : agent) : bool :=
  match model_target a with
  | Some _ => true
  | None => false
  end.

Definition with_heap (h : list (list R)) (a : agent) : agent :=
  {| heap := h; model := model a; model_target := model_target a;
     optimizer := optimizer a; optimizer_state := optimizer_state a;
     is_noisy := is_noisy a |}.

(** [__init__], lines 68-83, as far as the parameters go: the
    constructor of the chosen class gives [self.model] its tensors;
    with [is_double], a [DQN] is built and loaded with the state of
    [self.model]; Adam is given the parameters of [self.model]. *)
Definition init (param_init buffer_init : list (string * list R))
    (target_init : string → list R) (is_double is_noisy : bool)
    (st : adam_state) : exc agent :=
  let '(model, h) := new_module param_init buffer_init [] in
  let! built :=
    (if is_double then
       let '(mt, h) :=
         new_module (map (λ n, (n, target_init n)) DQN_names) [] h in
       let! h := load_state_dict mt (state_dict model h) h in
       ret (Some mt, h)
     else ret (None, h)) in
  let '(model_target, h) := built in
  ret {| heap := h; model := model; model_target := model_target;
         optimizer := parameters model; optimizer_state := st;
         is_noisy := is_noisy |}.

(** [self.optimizer.step()]: every parameter given to Adam that has a
    gradient is overwritten. *)
Definition adam_update (grad : nat → option (list R))
    (hs : list (list R) * adam_state) (l : nat)
  : list (list R) * adam_state :=
  let '(h, st) := hs in
  match grad l, h !! l with
  | Some g, Some w =>
      let '(w, st) := adam st l w g in (<[l := w]> h, st)
  | _, _ => (h, st)
  end.

Definition optimizer_step (grad : nat → option (list R)) (a : agent)
  : agent :=
  let '(h, st) :=
    foldl (adam_update grad) (heap a, optimizer_state a)
      (optimizer a) in
  {| heap := h; model := model a; model_target := model_target a;
     optimizer := optimizer a; optimizer_state := st;
     is_noisy := is_noisy a |}.

(** [self.model.update_noise()]: fresh noise is copied into the
    buffers of [self.model]. *)
Definition update_noise (noise : gmap string (list R)) (a : agent)
  : agent :=
  with_heap (copy_named noise (buffers (model a)) (heap a)) a.

(** What one call of [update] gets from outside the parameters: the
    outcome of lines 97-105 (the loss and [loss.backward()]: an
    exception, or the gradient of every tensor that received one, the
    tensors of the target network included), and the noise drawn by
    [update_noise]. *)
Record step_input : Type := {
  backward : exc (nat → option (list R));
  noise : gmap string (list R)
}.

(** [update], lines 96-109. *)
Definition update (s : step_input) (a : agent) : exc agent :=
  let! grad := backward s in
  let a := optimizer_step grad a in
  ret (if is_noisy a then update_noise (noise s) a else a).

(** Lines 190-191:
    [self.model_target.load_state_dict(self.model.state_dict())]. *)
Definition sync (a : agent) : exc agent :=
  match model_target a with
  | Some mt =>
      let! h := load_state_dict mt (state_dict (model a) (heap a))
                  (heap a) in
      ret (with_heap h a)
  | None => raise RuntimeError
  end.

(** A run of [train] is followed together with [synced], the state of
    [self.model] at the latest [load_state_dict], and stops at the
    first exception. *)
Definition run : Type := agent * gmap string (list R) * option exn.

(** The body of [while not done] in episode [i], lines 184-191. *)
Definition step (i : nat) (s : step_input) (a : agent)
    (synced : gmap string (list R)) : run :=
  match update s a with
  | inl e => (a, synced, Some e)
  | inr a' =>
      if (i `mod` 20 =? 0)%nat && is_double a' then
        match sync a' with
        | inl e => (a', synced, Some e)
        | inr a'' => (a'', state_dict (model a') (heap a'), None)
        end
      else (a', synced, None)
  end.

Fixpoint while_not_done_params (i : nat) (steps : list step_input)
    (a : agent) (synced : gmap string (list R)) : run :=
  match steps with
  | [] => (a, synced, None)
  | s :: steps' =>
      match step i s a synced with
      | (a, synced, None) => while_not_done_params i steps' a synced
      | stopped => stopped
      end
  end.

(** One episode: its steps, and whether [replay] is entered with a
    batch to go through (lines 193-194). [replay] calls [update] with
    three arguments where it takes five, so it changes nothing and
    raises. *)
Record episode : Type := {
  steps : list step_input;
  replays : bool
}.

Fixpoint for_episodes_params (i : nat) (episodes : list episode)
    (a : agent) (synced : gmap string (list R)) : run :=
  match episodes with
  | [] => (a, synced, None)
  | ep :: episodes' =>
      match while_not_done_params i (steps ep) a synced with
      | (a, synced, None) =>
          if replays ep then (a, synced, Some TypeError)
          else for_episodes_params (S i) episodes' a synced
      | stopped => stopped
      end
  end.

(** [train], as far as the parameters go, from a freshly built agent. *)
Definition train_params (episodes : list episode) (a : agent) : run :=
  for_episodes_params 0 episodes a (state_dict (model a) (heap a)).

(** The state of the target network. *)
Definition target_state (a : agent) : option (gmap string (list R)) :=
  (λ mt, state_dict mt (heap a)) <$> model_target a.
End Parameters.

Global Arguments heap {adam_state} a.
Global Arguments model {adam_state} a.
Global Arguments model_target {adam_state} a.
Global Arguments optimizer {adam_state} a.
Global Arguments optimizer_state {adam_state} a.
Global Arguments is_noisy {adam_state} a.
Global Arguments is_double {adam_state} a.
Global Arguments with_heap {adam_state} h a.
Global Arguments update_noise {adam_state} noise a.
Global Arguments sync {adam_state} a.
Global Arguments target_state {adam_state} a.
Global Arguments adam_update {adam_state} adam grad hs l.
Global Arguments optimizer_step {adam_state} adam grad a.
Global Arguments update {adam_state} adam s a.
Global Arguments step {adam_state} adam i s a synced.
Global Arguments while_not_done_params {adam_state} adam i steps a synced.
Global Arguments for_episodes_params {adam_state} adam i episodes a synced.
Global Arguments train_params {adam_state} adam episodes a.
Global Arguments init {adam_state} param_init buffer_init target_init
  is_double is_noisy st.

(** ** ohe, line 161

    [state] is the integer that the environment gives as observation;
    a negative index counts from the end, as in Python. *)
Definition ohe (obs_size : nat) (state : Z) : exc (list R) :=
  let ohe_state := zeros obs_size in
  if decide (0 ≤ state < Z.of_nat obs_size)%Z then
    ret (<[Z.to_nat state := 1]> ohe_state)
  else if decide (- Z.of_nat obs_size ≤ state < 0)%Z then
    ret (<[Z.to_nat (state + Z.of_nat obs_size) := 1]> ohe_state)
  else raise IndexError.

(** [F.smooth_l1_loss(prediction, target)] on two scalars, with the
    default [beta] of 1. *)
Definition smooth_l1_loss (prediction target : R) : R :=
  let d := Rabs (prediction - target) in
  if Rlt_dec d 1 then d * d / 2 else d - 1 / 2.

(** A Python value handed to a method of the agent. *)
Inductive pyval : Type :=
| PyT (t : list R)
| PyF (v : R)
| PyI (n : nat)
| PyB (b : bool).

(** One item of the replay memory. *)
Record transition : Type := {
  state : list R;
  action : nat;
  next_state : list R;
  reward : R;
  done : bool
}.

(** ** eps_greedy_action, update and replay *)
Section Policy.
(** [self.model] and [self.model_target], as in get_target. *)
Variable model : list pyobj → exc (list R).
Variable target_layers : list R → list R.
Variable gamma : R.
Variable is_double : bool.

(** Lines 85-94. [u] is the number that [np.random.random()] returns
    and [sample] the action that [self.env.action_space.sample()] would
    return. *)
Definition eps_greedy_action (eps u : R) (sample : nat) (state : list R)
  : exc nat :=
  if Rgt_dec eps u then ret sample
  else
    let! q := model [PyTensor state; PyEnv] in
    argmax q.

(** The loss of [update] when [is_distributional] is not set, lines
    100-102. *)
Definition update_loss (reward : R) (done : bool)
    (next_state state : list R) (action : nat) : exc R :=
  let! target :=
    get_target model target_layers gamma is_double reward done next_state in
  let! q := model [PyTensor state; PyEnv] in
  let! prediction := index q action in
  ret (smooth_l1_loss prediction target).

(** [self.update(...)] as seen from a call site: [update] takes
    [reward, done, next_state, state, action]. [body] is what the method
    does once it is entered. *)
Definition call_update
    (body : pyval → pyval → pyval → pyval → pyval → exc unit)
    (args : list pyval) : exc unit :=
  match args with
  | [reward; done; next_state; state; action] =>
      body reward done next_state state action
  | _ => raise TypeError
  end.

(** Lines 155-159, on the batch that [self.memory.random_batch()]
    returns. *)
Fixpoint replay
    (body : pyval → pyval → pyval → pyval → pyval → exc unit)
    (batch : list transition) : exc unit :=
  match batch with
  | [] => ret tt
  | t :: batch' =>
      let! target :=
        get_target model target_layers gamma is_double
          (reward t) (done t) (next_state t) in
      let! _ := call_update body [PyT (state t); PyF target;
                                  PyI (action t)] in
      replay body batch'
  end.
End Policy.

(** ** get_distributional_loss, line 137

    The value returned, for one row of projected masses and the
    logarithms of the masses of the action taken:
    [-(distr_projection * log_action_distr).sum(-1).mean()]. *)
Definition distributional_loss (distr_projection log_action_distr : list R)
  : R :=
  - Rsum (zip_with Rmult distr_projection log_action_distr).

(** ** train and test: the rewards

    [running rewards rs] lists the values of [rewards] appended to
    [rewards_lst] during one episode whose steps give the rewards [rs],
    lines 180 and 187. *)
Fixpoint running (rewards : R) (rs : list R) : list R :=
  match rs with
  | [] => []
  | reward :: rs' =>
      let rewards := rewards + reward in
      rewards :: running rewards rs'
  end.

(** Lines 196-200 in episode [i]: the new [best_rate], and the
    episodes at which the model was saved, the latest first. *)
Definition checkpoint (i : nat) (rewards_lst : list R)
    (best : R * list nat) : R * list nat :=
  let '(best_rate, saved) := best in
  if negb (i `mod` 10 =? 0)%nat then (best_rate, saved)
  else if (i =? 0)%nat then (best_rate, saved)
  else if Rgt_dec (Rsum rewards_lst / INR i) best_rate
       then (Rsum rewards_lst / INR i, i :: saved)
       else (best_rate, saved).

(** The loop of [train] from episode [i] on, as far as the rewards go;
    every episode is given by the rewards of its steps. *)
Fixpoint for_rewards (i : nat) (episodes : list (list R))
    (rewards_lst : list R) (best : R * list nat)
  : list R * (R * list nat) :=
  match episodes with
  | [] => (rewards_lst, best)
  | rs :: episodes' =>
      let rewards_lst := rewards_lst ++ running 0 rs in
      for_rewards (S i) episodes' rewards_lst (checkpoint i rewards_lst best)
  end.

(** [train], lines 170-171 and the loop. *)
Definition train_rewards (episodes : list (list R))
  : list R * (R * list nat) :=
  for_rewards 0 episodes [] (0, []).

(** [test], lines 216-219: what is printed for the rewards of the
    episode. *)
Definition test_outcome (rs : list R) : string :=
  let rewards := foldl Rplus 0 rs in
  if Req_dec_T rewards 0 then "Lost"%string else "Victory"%string.

End Agent.

(** * Predicates and reference definitions used in the statements *)

(** What holds of the masses [row] that [action_distr] returns for one
    action: they are the clamped softmax of [num_bins] logits, none is
    below the floor, they sum to at least 1 and to at most 1 plus
    [num_bins] times the floor, and to exactly 1 when the clamp changed
    nothing. *)
Definition clamped_distribution (num_bins : nat) (row : list R) : Prop :=
  ∃ logits : list R,
    length logits = num_bins
    ∧ row = clamp_min mass_floor (softmax logits)
    ∧ Forall (λ m, mass_floor <= m) row
    ∧ 1 <= Rsum row <= 1 + INR num_bins * mass_floor
    ∧ (Forall (λ m, mass_floor <= m) (softmax logits) → Rsum row = 1).

(** [update_noise] as section 4.3 of the specification words it: two
    draws, and the bias noise is the output-sized factor of the weight
    noise. *)
Definition update_noise_shared_factor (l : NoisyLayer.t) (g : RandomState)
  : NoisyLayer.t * RandomState :=
  let '(f_out, g) := NoisyLayer.factorize_noise (NoisyLayer.out_dim l) g in
  let '(f_in, g) := NoisyLayer.factorize_noise (NoisyLayer.in_dim l) g in
  (NoisyLayer.set_eps_b f_out (NoisyLayer.set_eps_w (ger f_out f_in) l), g).

(** A noisy layer with one input and [n] outputs, all weights 1, no bias
    and no noise: an input for the examples. *)
Definition plain_layer (n : nat) : NoisyLayer.t :=
  {| NoisyLayer.in_dim := 1; NoisyLayer.out_dim := n;
     NoisyLayer.mu_w := repeat [1] n; NoisyLayer.mu_b := repeat 0 n;
     NoisyLayer.sigma_w := repeat [0] n; NoisyLayer.sigma_b := repeat 0 n;
     NoisyLayer.eps_w := repeat [0] n; NoisyLayer.eps_b := repeat 0 n |}.

(** A generator whose next standard variates are 1000, 1000, 4000 and
    then 1000 for ever: an input for the examples. *)
Definition example_generator : RandomState :=
  {| variates := λ k, if (k =? 2)%nat then 4000 else 1000; position := 0 |}.

(** The [size] numbers that [np.random.normal(0.0, 0.001, size)] returns
    when the generator stands at position [from]. *)
Definition drawn (g : RandomState) (from size : nat) : list R :=
  map (λ k, 0 + 1 / 1000 * variates g (from + k)) (seq 0 size).

(** What the values assigned to [self.eps] during a run satisfy, listed
    the latest first: the head is the current value, every value is at
    most each of the values assigned before it, and all lie between
    [min_eps] and the initial value [eps0]. *)
Definition trace_ok (min_eps eps0 eps : R) (trace : list R) : Prop :=
  hd eps0 trace = eps ∧ trace ≠ []
  ∧ StronglySorted Rle trace
  ∧ Forall (λ e, min_eps <= e <= eps0) trace.

(** The target network of a double-DQN agent is apart: its tensors are
    in the heap, no two of its names share a tensor, and none of its
    tensors is given to the optimizer or owned by [self.model]. *)
Definition target_apart {S : Type} (a : Agent.agent S) : Prop :=
  ∃ mt,
    Agent.model_target a = Some mt
    ∧ NoDup (map_to_list (Agent.entries mt)).*2
    ∧ ∀ name l,
        Agent.entries mt !! name = Some l →
        (l < length (Agent.heap a))%nat
        ∧ (l ∉ Agent.optimizer a)
        ∧ ∀ nm, Agent.params (Agent.model a) !! nm ≠ Some l
                ∧ Agent.buffers (Agent.model a) !! nm ≠ Some l.

(** The masks that [LegalSoftmax.forward] accepts: one list of legal
    actions for every row of the batch, every action an index of the row. *)
Definition valid_moves (x : list (list R)) (pm : list (list nat)) : Prop :=
  (length x ≤ length pm)%nat
  ∧ ∀ i row legal,
      x !! i = Some row → pm !! i = Some legal →
      Forall (λ j, (j < length row)%nat) legal.

(** A noisy layer whose tensors have the shapes that [__init__] gives
    them. *)
Definition layer_shape (l : NoisyLayer.t) : Prop :=
  length (NoisyLayer.mu_w l) = NoisyLayer.out_dim l
  ∧ length (NoisyLayer.sigma_w l) = NoisyLayer.out_dim l
  ∧ length (NoisyLayer.eps_w l) = NoisyLayer.out_dim l
  ∧ length (NoisyLayer.mu_b l) = NoisyLayer.out_dim l
  ∧ length (NoisyLayer.sigma_b l) = NoisyLayer.out_dim l
  ∧ length (NoisyLayer.eps_b l) = NoisyLayer.out_dim l.

(** The weight tensors of a noisy layer are matrices with [in_dim]
    columns. *)
Definition weight_shape (l : NoisyLayer.t) : Prop :=
  Forall (λ r, length r = NoisyLayer.in_dim l) (NoisyLayer.mu_w l)
  ∧ Forall (λ r, length r = NoisyLayer.in_dim l) (NoisyLayer.sigma_w l)
  ∧ Forall (λ r, length r = NoisyLayer.in_dim l) (NoisyLayer.eps_w l).

(** An optimizer that subtracts the gradient: an input for the
    examples. *)
Definition subtract_gradient (st : unit) (l : nat) (w g : list R)
  : list R * unit :=
  (zip_with Rminus w g, st).

(** The number of times the assignment of line 185 has run, each run
    weighted by the index of its episode: episode [i + k] runs its body
    once and then [more[k]] further times. *)
Fixpoint weighted_steps (i : nat) (more : list nat) : nat :=
  match more with
  | [] => 0
  | m :: more' => i * S m + weighted_steps (S i) more'
  end.

(** The rewards of one episode, each counted once for every step from
    its own to the last of the episode. *)
Fixpoint weighted_rewards (rs : list R) : R :=
  match rs with
  | [] => 0
  | reward :: rs' => INR (length rs) * reward + weighted_rewards rs'
  end.

(** * Properties *)

(** ** Exceptions and lists *)

Lemma bind_inr {A B} (c : exc A) (k : A → exc B) (b : B) :
  bind c k = inr b → ∃ a, c = inr a ∧ k a = inr b.
Proof. destruct c as [e|a]; simpl; [discriminate|eauto]. Qed.

Lemma Rsum_nil : Rsum [] = 0.
Proof. reflexivity. Qed.

Lemma Rsum_cons (v : R) (l : list R) : Rsum (v :: l) = v + Rsum l.
Proof. reflexivity. Qed.

Lemma Rsum_app (l1 l2 : list R) : Rsum (l1 ++ l2) = Rsum l1 + Rsum l2.
Proof.
  induction l1 as [|v l1 IH]; simpl.
  - rewrite Rsum_nil. lra.
  - rewrite !Rsum_cons, IH. lra.
Qed.

Lemma Rsum_repeat (v : R) (n : nat) : Rsum (repeat v n) = INR n * v.
Proof.
  induction n as [|n IH]; [simpl; rewrite Rsum_nil; lra|].
  change (repeat v (S n)) with (v :: repeat v n).
  rewrite Rsum_cons, IH, S_INR. lra.
Qed.

(** ** The target of the distributional update (C1) *)

Lemma d_target_not_done (p : Agent.distr_params) (gamma reward : R) :
  Agent.d_target p gamma reward false
  = Scalar (clamp (Agent.v_min p) (Agent.v_max p) reward).
Proof. reflexivity. Qed.

Lemma d_target_done (p : Agent.distr_params) (gamma reward : R) :
  Agent.d_target p gamma reward true
  = Vector (map (λ z, clamp (Agent.v_min p) (Agent.v_max p)
                        (gamma * z + reward)) (Agent.v_range p)).
Proof. reflexivity. Qed.

(** C1. The code takes the branch [reward + gamma * support] exactly when
    [done] is true: a transition that is not terminal gets the clamped
    reward alone, a terminal one gets the shifted and scaled support. The
    specification asks for the opposite test. *)
Theorem d_target_uses_support_iff_done
    (p : Agent.distr_params) (gamma reward : R) (done : bool) :
  Agent.d_target p gamma reward done
  = if done
    then Vector (map (λ z, clamp (Agent.v_min p) (Agent.v_max p)
                             (gamma * z + reward)) (Agent.v_range p))
    else Scalar (clamp (Agent.v_min p) (Agent.v_max p) reward).
Proof. destruct done; reflexivity. Qed.

(** At [num_bins = 3], [v_min = 0], [v_max = 1], [gamma = 9/10] and
    [reward = 0], the transition that is not terminal has the target [0]
    where the specification has the support [0, 9/20, 9/10]. *)
Example d_target_not_done_example :
  Agent.d_target (Agent.init_distr_params 3 0 1) (9 / 10) 0 false = Scalar 0
  ∧ Agent.d_target (Agent.init_distr_params 3 0 1) (9 / 10) 0 true
    = Vector [0; 9 / 20; 9 / 10].
Proof.
  split.
  - rewrite d_target_not_done. f_equal. simpl.
    unfold clamp, Rmax, Rmin. repeat destruct Rle_dec; lra.
  - rewrite d_target_done. f_equal. simpl.
    unfold clamp, Rmax, Rmin.
    repeat match goal with |- _ :: _ = _ :: _ => f_equal end;
      repeat destruct Rle_dec; lra.
Qed.

(** ** The projection on the grid of atoms (C2) *)

Lemma broadcast_add_error (a v : list R) (e : exn) :
  broadcast_add a v = inl e → e = RuntimeError.
Proof.
  unfold broadcast_add.
  destruct a as [|a0 [|a1 a]], v as [|v0 [|v1 v]];
    try destruct (decide _); by intros [= <-].
Qed.

Lemma add_vector_error (t : tensor) (v : list R) (e : exn) :
  add_vector t v = inl e → e = RuntimeError.
Proof.
  destruct t as [c|u]; simpl; [done|]. apply broadcast_add_error.
Qed.

Lemma mul_matrix_error (m : matrix) (t : tensor) (e : exn) :
  mul_matrix m t = inl e → e = RuntimeError.
Proof.
  destruct t as [c|w]; simpl; [done|].
  repeat destruct (decide _); by intros [= <-].
Qed.

(** A 1-D tensor takes no 2-D source: without its first dimension the
    source still has one dimension, and the 1-D tensor has none. *)
Lemma index_add_source_matrix (self : list R) (index : list Z)
    (m : matrix) :
  index_add_source self index (Source2 m) = inl RuntimeError.
Proof.
  unfold index_add_source.
  destruct (decide (length index ≠ hd 0%nat (sizes (Source2 m))));
    [done|].
  destruct (decide (tail (sizes (Source2 m)) ≠ tail [length self]))
    as [|Hsame]; [done|].
  exfalso. apply Hsame. simpl. discriminate.
Qed.

(** Both weights of an atom whose grid coordinate is an integer are 0. *)
Lemma aligned_weights (d : R) :
  Zfloor d = Zceil d → IZR (Zceil d) - d = 0 ∧ d - IZR (Zfloor d) = 0.
Proof.
  intros E. pose proof (Zfloor_ceil_bound d) as B. rewrite E in B.
  rewrite E. lra.
Qed.

(** C2. Lines 130-136 return no projection at all, whatever the grid
    coordinates, the offsets and the masses are: [next_action_distr] is
    a 2-D tensor and so is the source of the first [index_add_], while
    [distr_projection.reshape(-1)] is 1-D, and [index_add_] raises
    [RuntimeError] (as the two broadcasts before it do when they fail).
    So no atom gets the mass of an aligned atom, where the specification
    has all of it on that one atom. *)
Theorem distr_projection_raises (delta : tensor) (offset : list R)
    (next_action_distr : matrix) :
  Agent.distr_projection delta offset next_action_distr
  = inl RuntimeError.
Proof.
  unfold Agent.distr_projection.
  destruct (add_vector (tensor_map (λ d, IZR (Zfloor d)) delta) offset)
    as [e|index] eqn:Hi.
  { apply add_vector_error in Hi as ->. reflexivity. }
  cbn [bind].
  destruct (mul_matrix next_action_distr
              (tensor_map (λ d, IZR (Zceil d) - d) delta))
    as [e|source] eqn:Hs.
  { apply mul_matrix_error in Hs as ->. reflexivity. }
  cbn [bind]. rewrite index_add_source_matrix. reflexivity.
Qed.

Lemma Zfloor_IZR (n : Z) : Zfloor (IZR n) = n.
Proof. apply Zfloor_eq. lra. Qed.

Lemma Zceil_IZR (n : Z) : Zceil (IZR n) = n.
Proof. apply Zceil_eq. lra. Qed.

Lemma long_IZR (n : Z) : (0 <= n)%Z → long (IZR n) = n.
Proof.
  intros Hn. unfold long. destruct Rle_dec as [|Hneg]; [apply Zfloor_IZR|].
  exfalso. apply Hneg. by apply IZR_le.
Qed.

(** The failing input of C2: [num_bins = 3] on [[0, 1]], a batch of one,
    a terminal transition with [reward = 0] and [gamma = 1], and the
    masses [[1/4, 1/2, 1/4]] of the next state, of shape (1, 3). The
    target is the support itself and every atom sits on the grid
    ([delta = 0, 1, 2]). The first [index_add_] is given the three
    indices 0, 1, 2 and a source of shape (1, 3), every entry of which is
    0, and raises. *)
Lemma projected_target_aligned_example :
  let p := Agent.init_distr_params 3 0 1 in
  let next_action_distr :=
    {| cols := 3; rows := [[1 / 4; 1 / 2; 1 / 4]] |} in
  Agent.delta p (Agent.d_target p 1 0 true) = Vector [0; 1; 2]
  ∧ Agent.offset p 1 = [0]
  ∧ (∃ index,
       add_vector (tensor_map (λ d, IZR (Zfloor d)) (Vector [0; 1; 2])) [0]
       = inr index
       ∧ map long index = [0; 1; 2]%Z)
  ∧ (∃ source,
       mul_matrix next_action_distr
         (tensor_map (λ d, IZR (Zceil d) - d) (Vector [0; 1; 2]))
       = inr source
       ∧ sizes (Source2 source) = [1; 3]%nat
       ∧ Forall (Forall (λ v, v = 0)) (rows source))
  ∧ Agent.projected_target p 1 1 0 true next_action_distr
    = inl RuntimeError.
Proof.
  intros p next_action_distr.
  assert (Hd : Agent.delta p (Agent.d_target p 1 0 true)
               = Vector [0; 1; 2]).
  { rewrite d_target_done. unfold Agent.delta, Agent.v_step. simpl.
    f_equal. unfold clamp, Rmax, Rmin.
    repeat match goal with |- _ :: _ = _ :: _ => f_equal end;
      repeat destruct Rle_dec; lra. }
  split; [exact Hd|]. split; [reflexivity|]. split; [|split].
  - eexists. split; [reflexivity|]. simpl.
    replace 1 with (IZR 1) by lra. replace 2 with (IZR 2) by lra.
    rewrite !Zfloor_IZR, <- !plus_IZR, !long_IZR by lia. reflexivity.
  - eexists. split; [reflexivity|]. split; [reflexivity|]. simpl.
    replace 1 with (IZR 1) by lra. replace 2 with (IZR 2) by lra.
    rewrite !Zceil_IZR. repeat constructor; lra.
  - unfold Agent.projected_target. rewrite Hd. reflexivity.
Qed.

(** ** The scalar target (C3) *)

Section TargetProperties.
Variable model : list pyobj → exc (list R).
Variable target_layers : list R → list R.
Variable gamma : R.

Lemma tensor_max_spec (t : list R) (m : R) :
  tensor_max t = inr m → m ∈ t ∧ Forall (λ v, v <= m) t.
Proof.
  destruct t as [|v t]; [discriminate|]. simpl. intros [= <-].
  assert (G : ∀ (l : list R) (a : R),
             (foldl Rmax a l = a ∨ foldl Rmax a l ∈ l)
             ∧ a <= foldl Rmax a l
             ∧ Forall (λ w, w <= foldl Rmax a l) l).
  { induction l as [|w l IH]; intros a; simpl.
    - split; [by left|]. split; [lra|constructor].
    - destruct (IH (Rmax a w)) as (Hm & Hle & Hall).
      split; [|split].
      + destruct Hm as [Hm|Hm]; [|right; by apply elem_of_cons; right].
        rewrite Hm. unfold Rmax. destruct Rle_dec; [right|by left].
        apply elem_of_cons; by left.
      + pose proof (Rmax_l a w). lra.
      + constructor; [|exact Hall]. pose proof (Rmax_r a w). lra. }
  destruct (G t v) as (Hm & Hle & Hall). split.
  - destruct Hm as [->|Hm]; apply elem_of_cons; [by left|by right].
  - by constructor.
Qed.

(** A terminal transition: the target is the reward. *)
Lemma get_target_done (is_double : bool) (reward : R)
    (next_state : list R) :
  Agent.get_target model target_layers gamma is_double reward true
    next_state = inr reward.
Proof. reflexivity. Qed.

(** Not terminal, without double-DQN: the reward plus [gamma] times the
    largest action value of the online network. *)
Lemma get_target_single (reward : R) (next_state q : list R) :
  model [PyTensor next_state; PyEnv] = inr q →
  q ≠ [] →
  ∃ m, Agent.get_target model target_layers gamma false reward false
         next_state = inr (m * gamma + reward)
       ∧ m ∈ q ∧ Forall (λ v, v <= m) q.
Proof.
  intros Hq Hne. unfold Agent.get_target. simpl. rewrite Hq. simpl.
  destruct q as [|v q]; [done|].
  exists (foldl Rmax v q). split; [reflexivity|].
  by apply tensor_max_spec.
Qed.

(** [self.model_target(next_state)] gives [DQN.forward] one argument
    where it takes two. *)
Lemma call_model_target_one_argument (next_state : list R) :
  Agent.call_model_target target_layers [PyTensor next_state]
  = inl TypeError.
Proof. reflexivity. Qed.

(** C3. With double-DQN and a transition that is not terminal,
    [get_target] returns no target: the call of the target network in
    [get_target_double] raises [TypeError] as soon as the online network
    has been evaluated. The specification has the target
    [reward + gamma * Q_target(next_state, argmax Q_online)] there. *)
Theorem get_target_double_raises (reward : R) (next_state : list R) :
  (∃ e, Agent.get_target model target_layers gamma true reward false
          next_state = inl e)
  ∧ (∀ q, model [PyTensor next_state; PyEnv] = inr q → q ≠ [] →
       Agent.get_target model target_layers gamma true reward false
         next_state = inl TypeError).
Proof.
  unfold Agent.get_target, Agent.get_target_double. simpl. split.
  - destruct (model _) as [e|q]; simpl; [eauto|].
    destruct (argmax q) as [e|a]; simpl; eauto.
  - intros q -> Hne. simpl. destruct q; [done|]. reflexivity.
Qed.
End TargetProperties.

(** ** The masses returned by action_distr (C4) *)

Lemma Rsum_map_div (f : R → R) (s : R) (l : list R) :
  Rsum (map (λ v, f v / s) l) = Rsum (map f l) / s.
Proof.
  induction l as [|v l IH]; simpl.
  - rewrite !Rsum_nil. lra.
  - rewrite !Rsum_cons, IH. lra.
Qed.

Lemma Rsum_exp_pos (l : list R) : l ≠ [] → 0 < Rsum (map exp l).
Proof.
  assert (G : ∀ l, 0 <= Rsum (map exp l)).
  { induction l0 as [|v l0 IH]; simpl; [rewrite Rsum_nil; lra|].
    rewrite Rsum_cons. pose proof (exp_pos v). lra. }
  destruct l as [|v l]; [done|]. intros _. simpl. rewrite Rsum_cons.
  pose proof (exp_pos v). pose proof (G l). lra.
Qed.

Lemma softmax_sum (l : list R) : l ≠ [] → Rsum (softmax l) = 1.
Proof.
  intros Hl. unfold softmax. rewrite Rsum_map_div.
  pose proof (Rsum_exp_pos l Hl). field. lra.
Qed.

Lemma softmax_pos (l : list R) : Forall (λ m, 0 < m) (softmax l).
Proof.
  destruct (decide (l = [])) as [->|Hl]; [constructor|].
  pose proof (Rsum_exp_pos l Hl) as Hs. unfold softmax.
  apply Forall_forall. intros m Hm. apply list_elem_of_In in Hm.
  apply in_map_iff in Hm as (v & <- & _).
  apply Rdiv_lt_0_compat; [apply exp_pos|exact Hs].
Qed.

Lemma length_softmax (l : list R) : length (softmax l) = length l.
Proof. unfold softmax. by rewrite length_map. Qed.

Lemma clamp_min_ge (c : R) (l : list R) :
  Forall (λ m, c <= m) (clamp_min c l).
Proof.
  unfold clamp_min. induction l as [|v l IH]; simpl; constructor;
    [apply Rmax_l|exact IH].
Qed.

Lemma clamp_min_id (c : R) (l : list R) :
  Forall (λ m, c <= m) l → clamp_min c l = l.
Proof.
  unfold clamp_min. induction 1 as [|v l Hv _ IH]; simpl; [done|].
  rewrite IH. f_equal. by apply Rmax_right.
Qed.

Lemma clamp_min_sum (c : R) (l : list R) :
  0 <= c → Forall (λ m, 0 < m) l →
  Rsum l <= Rsum (clamp_min c l) <= Rsum l + INR (length l) * c.
Proof.
  intros Hc. unfold clamp_min.
  induction 1 as [|v l Hv _ IH]; simpl length; simpl map.
  - rewrite Rsum_nil. simpl. lra.
  - rewrite !Rsum_cons, S_INR.
    assert (v <= Rmax c v <= v + c)
      by (unfold Rmax; destruct Rle_dec; lra).
    lra.
Qed.

Lemma mass_floor_pos : 0 < mass_floor.
Proof. unfold mass_floor. lra. Qed.

(** The clamped softmax of a non-empty row of logits. *)
Lemma clamped_softmax (logits : list R) :
  logits ≠ [] →
  clamped_distribution (length logits) (clamp_min mass_floor (softmax logits)).
Proof.
  intros Hl. exists logits. pose proof mass_floor_pos as Hf.
  split; [done|]. split; [done|]. split; [apply clamp_min_ge|].
  pose proof (clamp_min_sum mass_floor (softmax logits)
                (Rlt_le _ _ Hf) (softmax_pos logits)) as Hs.
  rewrite softmax_sum, length_softmax in Hs by done.
  split; [lra|]. intros Hall. rewrite clamp_min_id by done.
  by apply softmax_sum.
Qed.

Lemma length_chunk {A} (size count : nat) (l : list A) :
  length (chunk size count l) = count.
Proof. unfold chunk. by rewrite length_map, length_seq. Qed.

Lemma chunk_lengths {A} (size count : nat) (l : list A) :
  (count * size ≤ length l)%nat →
  Forall (λ c, length c = size) (chunk size count l).
Proof.
  intros Hl. apply Forall_forall. intros c Hc.
  apply list_elem_of_In, in_map_iff in Hc as (i & <- & Hi).
  apply in_seq in Hi. rewrite length_take, length_drop. nia.
Qed.

Lemma reshape3_shape (rows cols : nat) (flat : list R)
    (t : list (list (list R))) :
  reshape3 rows cols flat = inr t →
  cols ≠ 0%nat
  ∧ Forall (λ item, length item = rows
                    ∧ Forall (λ r, length r = cols) item) t.
Proof.
  unfold reshape3. destruct decide as [|Hb]; [discriminate|].
  destruct decide as [Hm|]; [|discriminate]. intros [= <-].
  split; [lia|].
  apply Forall_forall. intros item Hitem.
  apply list_elem_of_In, in_map_iff in Hitem as (blk & <- & Hblk).
  split; [apply length_chunk|].
  apply chunk_lengths.
  assert (Hlen : Forall (λ c, length c = (rows * cols)%nat)
            (chunk (rows * cols) (length flat `div` (rows * cols)) flat)).
  { apply chunk_lengths.
    pose proof (Nat.Div0.mul_div_le (length flat) (rows * cols)). lia. }
  rewrite Forall_forall in Hlen.
  rewrite (Hlen blk) by by apply list_elem_of_In. lia.
Qed.

Section ActionDistrProperties.
Variable out_dim num_bins : nat.

Lemma softmax_clamp_rows (q : list (list (list R))) :
  num_bins ≠ 0%nat →
  Forall (Forall (λ r, length r = num_bins)) q →
  ∀ item row, item ∈ softmax_clamp q → row ∈ item →
    clamped_distribution num_bins row.
Proof.
  intros Hn Hq item row Hitem Hrow. unfold softmax_clamp in Hitem.
  apply list_elem_of_In, in_map_iff in Hitem as (qi & <- & Hqi).
  apply list_elem_of_In, in_map_iff in Hrow as (bins & <- & Hbins).
  rewrite Forall_forall in Hq. apply list_elem_of_In in Hqi, Hbins.
  pose proof (Hq qi Hqi) as Hr. rewrite Forall_forall in Hr.
  specialize (Hr bins Hbins). rewrite <- Hr.
  apply clamped_softmax. intros ->. simpl in Hr. lia.
Qed.

Lemma DistributionalNetwork_masses {E : Type} (layers : list R → list R)
    (x : list (list R)) (env : E) (d : list (list (list R))) :
  DistributionalNetwork.action_distr out_dim num_bins layers x env
  = inr d →
  ∀ item row, item ∈ d → row ∈ item → clamped_distribution num_bins row.
Proof.
  unfold DistributionalNetwork.action_distr. intros H.
  apply bind_inr in H as (q & Hq & [= <-]).
  apply reshape3_shape in Hq as (Hn & Hq).
  apply softmax_clamp_rows; [done|].
  eapply Forall_impl; [exact Hq|]. by intros item [_ ?].
Qed.

Lemma combine_rows (value advantage : list (list (list R))) :
  Forall (λ item, length item = 1%nat
                  ∧ Forall (λ r, length r = num_bins) item) value →
  Forall (λ item, length item = out_dim
                  ∧ Forall (λ r, length r = num_bins) item) advantage →
  Forall (Forall (λ r, length r = num_bins))
    (NoisyDuelingDistributionalNetwork.combine num_bins value advantage).
Proof.
  unfold NoisyDuelingDistributionalNetwork.combine.
  intros Hv. revert advantage.
  induction Hv as [|v value [Hv1 Hv2] _ IH]; intros advantage Ha;
    [constructor|].
  destruct Ha as [|adv advantage [_ Ha2] Ha]; [constructor|].
  simpl. constructor; [|by apply IH].
  destruct v as [|v0 v]; [done|]. simpl.
  apply Forall_inv in Hv2.
  apply Forall_forall. intros r Hr.
  apply list_elem_of_In, in_map_iff in Hr as (a & <- & Hin).
  rewrite Forall_forall in Ha2.
  pose proof (Ha2 a (proj2 (list_elem_of_In _ _) Hin)) as Hla.
  rewrite !length_zip_with.
  unfold NoisyDuelingDistributionalNetwork.mean_over_actions.
  rewrite length_map, length_seq. lia.
Qed.

Lemma NoisyDuelingDistributionalNetwork_masses {PM : Type}
    (input_layer : list (list R) → list R)
    (advantage_layer_hidden advantage_layer_out : NoisyLayer.t)
    (value_layer_hidden value_layer_out : NoisyLayer.t)
    (x : list (list (list R))) (possible_moves : PM)
    (d : list (list (list R))) :
  NoisyDuelingDistributionalNetwork.action_distr out_dim num_bins
    input_layer advantage_layer_hidden advantage_layer_out
    value_layer_hidden value_layer_out x possible_moves = inr d →
  ∀ item row, item ∈ d → row ∈ item → clamped_distribution num_bins row.
Proof.
  unfold NoisyDuelingDistributionalNetwork.action_distr. intros H.
  apply bind_inr in H as (adv & Hadv & H).
  apply bind_inr in H as (val & Hval & [= <-]).
  apply reshape3_shape in Hadv as (Hn & Hadv).
  apply reshape3_shape in Hval as (_ & Hval).
  apply softmax_clamp_rows; [done|]. by apply combine_rows.
Qed.
End ActionDistrProperties.

Lemma length_concat_uniform {A} (b : nat) (ls : list (list A)) :
  Forall (λ l, length l = b) ls →
  length (concat ls) = (length ls * b)%nat.
Proof.
  induction 1 as [|l ls Hl _ IH]; simpl; [done|].
  rewrite length_app, IH, Hl. lia.
Qed.

Lemma reshape3_returns (rows cols n : nat) (flat : list R) :
  (rows * cols)%nat ≠ 0%nat →
  length flat = (n * (rows * cols))%nat →
  ∃ t, reshape3 rows cols flat = inr t ∧ length t = n.
Proof.
  intros Hb Hlen. unfold reshape3.
  destruct decide as [|_]; [done|].
  destruct decide as [_|Hm].
  - eexists. split; [done|].
    rewrite length_map, length_chunk, Hlen. by apply Nat.div_mul.
  - exfalso. apply Hm. rewrite Hlen. apply Nat.Div0.mod_mul.
Qed.

Lemma length_NoisyLayer_forward (l : NoisyLayer.t) (x : list R) :
  layer_shape l → length (NoisyLayer.forward l x) = NoisyLayer.out_dim l.
Proof.
  intros (H1 & H2 & H3 & H4 & H5 & H6).
  unfold NoisyLayer.forward, linear.
  rewrite !length_zip_with, length_map, !length_zip_with. lia.
Qed.

Lemma DistributionalNetwork_returns {E : Type} (out_dim num_bins : nat)
    (layers : list R → list R) (x : list (list R)) (env : E) :
  (out_dim * num_bins)%nat ≠ 0%nat →
  (∀ s, length (layers s) = (out_dim * num_bins)%nat) →
  ∃ d, DistributionalNetwork.action_distr out_dim num_bins layers x env
       = inr d
       ∧ length d = length x.
Proof.
  intros Hb Hl. unfold DistributionalNetwork.action_distr.
  destruct (reshape3_returns out_dim num_bins (length x)
              (concat (map layers x)) Hb) as (t & Ht & Hlen).
  { rewrite (length_concat_uniform (out_dim * num_bins));
      [by rewrite length_map|].
    apply Forall_forall. intros l Hin.
    apply list_elem_of_In, in_map_iff in Hin as (s & <- & _). apply Hl. }
  rewrite Ht. simpl. eexists. split; [done|].
  unfold softmax_clamp. by rewrite length_map.
Qed.

Lemma NoisyDuelingDistributionalNetwork_returns {PM : Type}
    (out_dim num_bins : nat)
    (input_layer : list (list R) → list R)
    (advantage_layer_hidden advantage_layer_out : NoisyLayer.t)
    (value_layer_hidden value_layer_out : NoisyLayer.t)
    (x : list (list (list R))) (possible_moves : PM) :
  (out_dim * num_bins)%nat ≠ 0%nat →
  layer_shape advantage_layer_out → layer_shape value_layer_out →
  NoisyLayer.out_dim advantage_layer_out = (out_dim * num_bins)%nat →
  NoisyLayer.out_dim value_layer_out = num_bins →
  ∃ d, NoisyDuelingDistributionalNetwork.action_distr out_dim num_bins
         input_layer advantage_layer_hidden advantage_layer_out
         value_layer_hidden value_layer_out x possible_moves = inr d
       ∧ length d = length x.
Proof.
  intros Hb Sa Sv Ha Hv.
  unfold NoisyDuelingDistributionalNetwork.action_distr.
  match goal with
  | |- context [reshape3 out_dim num_bins ?f] =>
      destruct (reshape3_returns out_dim num_bins (length x) f Hb)
        as (adv & Hadv & Hla)
  end.
  { rewrite (length_concat_uniform (out_dim * num_bins));
      [by rewrite !length_map|].
    apply Forall_forall. intros l Hin.
    apply list_elem_of_In, in_map_iff in Hin as (s & <- & _).
    by rewrite length_NoisyLayer_forward. }
  match goal with
  | |- context [reshape3 1 num_bins ?f] =>
      destruct (reshape3_returns 1 num_bins (length x) f)
        as (val & Hval & Hlv)
  end.
  { lia. }
  { rewrite (length_concat_uniform num_bins);
      [rewrite !length_map; lia|].
    apply Forall_forall. intros l Hin.
    apply list_elem_of_In, in_map_iff in Hin as (s & <- & _).
    by rewrite length_NoisyLayer_forward. }
  rewrite Hadv, Hval. simpl. eexists. split; [done|].
  unfold softmax_clamp, NoisyDuelingDistributionalNetwork.combine.
  rewrite length_map, length_zip_with. lia.
Qed.

(** C4, as amended. Both distributional networks return a distribution
    for every state of the batch when their last layers have the sizes
    that [__init__] gives them, and whenever [action_distr] returns, the
    masses of every action are each at least [1e-5]; they sum to at least
    1 and to at most [1 + num_bins * 1e-5], and to exactly 1 when no mass
    was below [1e-5] before the clamp. *)
Theorem action_distr_masses (out_dim num_bins : nat) :
  (∀ (layers : list R → list R) (x : list (list R)) (env : unit),
     ((out_dim * num_bins)%nat ≠ 0%nat →
      (∀ s, length (layers s) = (out_dim * num_bins)%nat) →
      ∃ d, DistributionalNetwork.action_distr out_dim num_bins layers x env
           = inr d
           ∧ length d = length x)
     ∧ ∀ d,
         DistributionalNetwork.action_distr out_dim num_bins layers x env
         = inr d →
         ∀ item row, item ∈ d → row ∈ item →
           clamped_distribution num_bins row)
  ∧ (∀ (input_layer : list (list R) → list R)
       (advantage_layer_hidden advantage_layer_out : NoisyLayer.t)
       (value_layer_hidden value_layer_out : NoisyLayer.t)
       (x : list (list (list R))) (possible_moves : list (list nat)),
       ((out_dim * num_bins)%nat ≠ 0%nat →
        layer_shape advantage_layer_out → layer_shape value_layer_out →
        NoisyLayer.out_dim advantage_layer_out = (out_dim * num_bins)%nat →
        NoisyLayer.out_dim value_layer_out = num_bins →
        ∃ d, NoisyDuelingDistributionalNetwork.action_distr out_dim
               num_bins input_layer advantage_layer_hidden
               advantage_layer_out value_layer_hidden value_layer_out x
               possible_moves = inr d
             ∧ length d = length x)
       ∧ ∀ d,
           NoisyDuelingDistributionalNetwork.action_distr out_dim num_bins
             input_layer advantage_layer_hidden advantage_layer_out
             value_layer_hidden value_layer_out x possible_moves = inr d →
           ∀ item row, item ∈ d → row ∈ item →
             clamped_distribution num_bins row).
Proof.
  split.
  - intros layers x env. split.
    + apply DistributionalNetwork_returns.
    + intros d Hd. by eapply DistributionalNetwork_masses.
  - intros il ah ao vh vo x pm. split.
    + apply NoisyDuelingDistributionalNetwork_returns.
    + intros d Hd. by eapply NoisyDuelingDistributionalNetwork_masses.
Qed.

Lemma plain_layer_shape (n : nat) : layer_shape (plain_layer n).
Proof. unfold layer_shape, plain_layer. simpl. by rewrite !repeat_length. Qed.

(** The theorem of C4 on one network of each class: two bins, one
    action, a batch of one observation. *)
Lemma action_distr_masses_witness :
  (∃ d item row,
      DistributionalNetwork.action_distr 1 2 (λ _, [0; 0]) [[1]] tt = inr d
      ∧ length d = length [[1]]
      ∧ item ∈ d ∧ row ∈ item ∧ clamped_distribution 2 row)
  ∧ (∃ d item row,
        NoisyDuelingDistributionalNetwork.action_distr 1 2 (λ _, [1])
          (plain_layer 1) (plain_layer 2) (plain_layer 1) (plain_layer 2)
          [[[1]]] [[0%nat]] = inr d
        ∧ length d = length [[[1]]]
        ∧ item ∈ d ∧ row ∈ item ∧ clamped_distribution 2 row).
Proof.
  split.
  - destruct (proj1 (action_distr_masses 1 2) (λ _, [0; 0]) [[1]] tt)
      as [Hret Hmass].
    destruct Hret as (d & Hd & Hlen); [simpl; lia|done|].
    destruct d as [|[|row item] d]; [done|..].
    + vm_compute in Hd. discriminate Hd.
    + exists ((row :: item) :: d), (row :: item), row.
      split; [exact Hd|]. split; [exact Hlen|].
      split; [by left|]. split; [by left|].
      apply (Hmass _ Hd (row :: item) row); by left.
  - destruct (proj2 (action_distr_masses 1 2) (λ _, [1]) (plain_layer 1)
                (plain_layer 2) (plain_layer 1) (plain_layer 2) [[[1]]]
                [[0%nat]])
      as [Hret Hmass].
    destruct Hret as (d & Hd & Hlen);
      [simpl; lia|apply plain_layer_shape|apply plain_layer_shape|
       done|done|].
    destruct d as [|[|row item] d]; [done|..].
    + vm_compute in Hd. discriminate Hd.
    + exists ((row :: item) :: d), (row :: item), row.
      split; [exact Hd|]. split; [exact Hlen|].
      split; [by left|]. split; [by left|].
      apply (Hmass _ Hd (row :: item) row); by left.
Defined.

Lemma exp_ge_pow2 (n : nat) : 2 ^ n <= exp (INR n).
Proof.
  induction n as [|n IH].
  - simpl. rewrite exp_0. lra.
  - rewrite S_INR, exp_plus. simpl pow.
    assert (2 < exp 1) by (pose proof (exp_ineq1 1); lra).
    assert (0 < 2 ^ n) by (apply pow_lt; lra).
    nra.
Qed.

Lemma exp_30_large : 1000000 < exp 30.
Proof.
  pose proof (exp_ge_pow2 30) as H.
  replace (INR 30) with 30 in H by (simpl; lra).
  lra.
Qed.

(** C4, counterexample. With the 51 bins of the shipped configuration and
    logits [0, ..., 0, 30] for the one action, fifty masses are below
    [1e-5] after the softmax and are raised to it: the masses returned
    sum to more than 1.0004, thousands of times further from 1 than the
    rounding of [float32] (about [6e-8]) allows. *)
Lemma action_distr_sum_exceeds_one :
  ∃ row,
    DistributionalNetwork.action_distr 1 51 (λ _, repeat 0 50 ++ [30])
      [[1]] tt = inr [[row]]
    ∧ 1 + 4 / 10000 < Rsum row.
Proof.
  exists (clamp_min mass_floor (softmax (repeat 0 50 ++ [30]))).
  split; [reflexivity|].
  unfold softmax, clamp_min.
  set (s := Rsum (map exp (repeat 0 50 ++ [30]))).
  assert (Hs : s = 50 + exp 30).
  { unfold s. rewrite map_app, Rsum_app, map_repeat, Rsum_repeat, exp_0.
    simpl map. rewrite Rsum_cons, Rsum_nil.
    replace (INR 50) with 50 by (simpl; lra). lra. }
  rewrite !map_app, !map_repeat, Rsum_app, Rsum_repeat. simpl map.
  rewrite Rsum_cons, Rsum_nil.
  replace (INR 50) with 50 by (simpl; lra).
  pose proof exp_30_large as He.
  pose proof (Rmax_l mass_floor (exp 0 / s)) as H1.
  pose proof (Rmax_r mass_floor (exp 30 / s)) as H2.
  unfold mass_floor in *.
  assert (Hq : 1 - 1 / 10000 < exp 30 / s).
  { rewrite Hs. apply Rmult_lt_reg_r with (50 + exp 30); [lra|].
    unfold Rdiv. rewrite Rmult_assoc, Rinv_l by lra. lra. }
  lra.
Qed.

(** ** Legal-move masking (C5, C10) *)

Lemma mark_fold_lookup (legal : list nat) :
  ∀ (base : list R) (k : nat),
    foldl (λ acc j, <[j := 1]> acc) base legal !! k
    = if decide (k ∈ legal ∧ (k < length base)%nat) then Some 1
      else base !! k.
Proof.
  induction legal as [|j legal IH]; intros base k; cbn [foldl].
  - destruct decide as [[H _]|]; [|done]. by apply elem_of_nil in H.
  - rewrite IH, length_insert.
    destruct (decide (k ∈ legal ∧ (k < length base)%nat)) as [[H1 H2]|Hn].
    + destruct decide as [|Hc]; [done|]. exfalso. apply Hc.
      split; [by right|done].
    + destruct (decide (k = j)) as [->|Hkj].
      * destruct (decide (j < length base)%nat) as [Hlt|Hge].
        -- rewrite list_lookup_insert_eq by done.
           destruct decide as [|Hc]; [done|]. exfalso. apply Hc.
           split; [by left|done].
        -- rewrite list_insert_ge by lia.
           destruct decide as [[_ ?]|]; [lia|done].
      * rewrite list_lookup_insert_ne by done.
        destruct decide as [[H1 H2]|]; [|done].
        apply elem_of_cons in H1 as [?|?]; [done|].
        exfalso. by apply Hn.
Qed.

Lemma repeat_lookup {A} (v : A) (n k : nat) :
  (k < n)%nat → repeat v n !! k = Some v.
Proof.
  revert k. induction n as [|n IH]; intros k Hk; [lia|].
  destruct k as [|k]; simpl; [done|]. apply IH. lia.
Qed.

Lemma mark_lookup (legal : list nat) (n : nat) (actions : list R) :
  LegalSoftmax.mark legal n = inr actions →
  length actions = n
  ∧ ∀ k, (k < n)%nat →
      actions !! k = Some (if decide (k ∈ legal) then 1 else 0).
Proof.
  unfold LegalSoftmax.mark. destruct forallb; [|discriminate].
  intros [= <-]. split.
  - assert (G : ∀ l (b : list R),
               length (foldl (λ acc j, <[j := 1]> acc) b l) = length b).
    { induction l as [|j l IH]; intros b; simpl; [done|].
      by rewrite IH, length_insert. }
    rewrite G. unfold zeros. by rewrite repeat_length.
  - intros k Hk. rewrite mark_fold_lookup. unfold zeros.
    rewrite repeat_length.
    assert (Hz : repeat 0 n !! k = Some 0).
    { by apply repeat_lookup. }
    destruct (decide (k ∈ legal)) as [Hin|Hin].
    + destruct decide as [|Hc]; [done|]. exfalso. by apply Hc.
    + destruct decide as [[? _]|]; [done|exact Hz].
Qed.

Lemma filter_row_lookup (x actions : list R) (k : nat) (v m : R) :
  x !! k = Some v → actions !! k = Some m →
  LegalSoftmax.filter_row x actions !! k
  = Some (if Req_dec_T (v * m) 0 then LegalSoftmax.sentinel else v * m).
Proof.
  intros Hx Ha. unfold LegalSoftmax.filter_row.
  rewrite lookup_zip_with, Hx. simpl. by rewrite Ha.
Qed.

(** An action outside the mask gets the sentinel, whatever its score. *)
Lemma filter_row_illegal (x : list R) (legal : list nat)
    (actions : list R) (b : nat) :
  LegalSoftmax.mark legal (length x) = inr actions →
  (b < length x)%nat → b ∉ legal →
  LegalSoftmax.filter_row x actions !! b = Some LegalSoftmax.sentinel.
Proof.
  intros Hm Hb Hn. apply mark_lookup in Hm as [_ Hm].
  destruct (lookup_lt_is_Some_2 x b Hb) as [v Hv].
  rewrite (filter_row_lookup _ _ _ v 0 Hv).
  - destruct Req_dec_T as [|Hne]; [done|]. exfalso. apply Hne. lra.
  - rewrite Hm by done. destruct decide; done.
Qed.

(** An action inside the mask keeps its score, unless the score is 0. *)
Lemma filter_row_legal (x : list R) (legal : list nat)
    (actions : list R) (j : nat) (s : R) :
  LegalSoftmax.mark legal (length x) = inr actions →
  j ∈ legal → x !! j = Some s →
  LegalSoftmax.filter_row x actions !! j
  = Some (if Req_dec_T s 0 then LegalSoftmax.sentinel else s).
Proof.
  intros Hm Hj Hs. apply mark_lookup in Hm as [_ Hm].
  rewrite (filter_row_lookup _ _ _ s 1 Hs).
  - replace (s * 1) with s by lra. done.
  - rewrite Hm by (by eapply lookup_lt_Some). destruct decide; done.
Qed.

Lemma softmax_lookup (l : list R) (k : nat) :
  softmax l !! k = (λ v, exp v / Rsum (map exp l)) <$> l !! k.
Proof. unfold softmax. apply list_lookup_fmap. Qed.

(** The rows of [forward]. *)
Lemma actions_tensor_rows (x : list (list R)) :
  ∀ (pm : list (list nat)) (acts : list (list R)),
    LegalSoftmax.actions_tensor x pm = inr acts →
    length acts = length x
    ∧ ∀ i row, x !! i = Some row →
        ∃ legal a, pm !! i = Some legal ∧ acts !! i = Some a
                   ∧ LegalSoftmax.mark legal (length row) = inr a.
Proof.
  induction x as [|r x IH]; intros pm acts; simpl.
  - intros [= <-]. split; [done|]. intros i row. by rewrite lookup_nil.
  - destruct pm as [|legal pm]; [discriminate|]. intros H.
    apply bind_inr in H as (a & Ha & H).
    apply bind_inr in H as (rest & Hrest & [= <-]).
    destruct (IH _ _ Hrest) as [Hlen Hrows]. split; [simpl; lia|].
    intros [|i] row; simpl.
    + intros [= <-]. eauto.
    + apply Hrows.
Qed.

Lemma forward_rows (x : list (list R)) (pm : list (list nat))
    (out : list (list R)) (i : nat) (row : list R) :
  LegalSoftmax.forward x pm = inr out → x !! i = Some row →
  ∃ legal actions,
    pm !! i = Some legal
    ∧ LegalSoftmax.mark legal (length row) = inr actions
    ∧ out !! i = Some (softmax (LegalSoftmax.filter_row row actions)).
Proof.
  unfold LegalSoftmax.forward. intros H Hrow.
  apply bind_inr in H as (acts & Hacts & [= <-]).
  destruct (actions_tensor_rows _ _ _ Hacts) as [_ Hrows].
  destruct (Hrows i row Hrow) as (legal & a & Hpm & Ha & Hm).
  exists legal, a. split; [done|]. split; [done|].
  rewrite list_lookup_fmap, lookup_zip_with, Hrow. simpl. by rewrite Ha.
Qed.

Lemma mark_returns (legal : list nat) (n : nat) :
  Forall (λ j, (j < n)%nat) legal → ∃ actions, LegalSoftmax.mark legal n = inr actions.
Proof.
  intros Hl. unfold LegalSoftmax.mark.
  assert (Hb : forallb (λ j, (j <? n)%nat) legal = true).
  { apply forallb_forall. intros j Hj. apply Nat.ltb_lt.
    rewrite Forall_forall in Hl. by apply Hl, list_elem_of_In. }
  rewrite Hb. eauto.
Qed.

Lemma actions_tensor_returns (x : list (list R)) :
  ∀ pm, valid_moves x pm →
    ∃ acts, LegalSoftmax.actions_tensor x pm = inr acts.
Proof.
  induction x as [|row x IH]; intros pm [Hlen Hrows]; simpl; [eauto|].
  destruct pm as [|legal pm]; [simpl in Hlen; lia|].
  destruct (mark_returns legal (length row)) as [a Ha];
    [by apply (Hrows 0%nat)|].
  destruct (IH pm) as [rest Hrest].
  { split; [simpl in Hlen; lia|].
    intros i r l Hr Hl. by apply (Hrows (S i)). }
  rewrite Ha, Hrest. simpl. eauto.
Qed.

(** [forward] returns on every valid mask, one row for each row. *)
Lemma forward_returns (x : list (list R)) (pm : list (list nat)) :
  valid_moves x pm →
  ∃ out, LegalSoftmax.forward x pm = inr out ∧ length out = length x.
Proof.
  intros Hv. destruct (actions_tensor_returns x pm Hv) as [acts Hacts].
  unfold LegalSoftmax.forward. rewrite Hacts. simpl. eexists.
  split; [done|].
  apply actions_tensor_rows in Hacts as [Hlen _].
  rewrite length_map, length_zip_with. lia.
Qed.

(** A legal action of score 0 in one row of the output. *)
Lemma legal_zero_score_row
    (x : list (list R)) (pm : list (list nat)) (out : list (list R))
    (i : nat) (row : list R) (legal : list nat) (a : nat) :
  LegalSoftmax.forward x pm = inr out →
  x !! i = Some row → pm !! i = Some legal →
  a ∈ legal → row !! a = Some 0 →
  ∃ outrow actions,
    out !! i = Some outrow
    ∧ LegalSoftmax.mark legal (length row) = inr actions
    ∧ outrow = softmax (LegalSoftmax.filter_row row actions)
    ∧ LegalSoftmax.filter_row row actions !! a
      = Some LegalSoftmax.sentinel
    ∧ ∀ b, (b < length row)%nat → b ∉ legal →
        LegalSoftmax.filter_row row actions !! b
        = Some LegalSoftmax.sentinel
        ∧ outrow !! b = outrow !! a.
Proof.
  intros Hf Hrow Hpm Ha Hzero.
  destruct (forward_rows _ _ _ _ _ Hf Hrow)
    as (legal' & actions & Hpm' & Hm & Hout).
  assert (legal' = legal) as -> by congruence.
  exists (softmax (LegalSoftmax.filter_row row actions)), actions.
  split; [done|]. split; [done|]. split; [done|].
  assert (Hfa : LegalSoftmax.filter_row row actions !! a
                = Some LegalSoftmax.sentinel).
  { rewrite (filter_row_legal _ _ _ _ _ Hm Ha Hzero).
    destruct Req_dec_T; [done|lra]. }
  split; [exact Hfa|]. intros b Hb Hnb.
  pose proof (filter_row_illegal _ _ _ _ Hm Hb Hnb) as Hfb.
  split; [exact Hfb|]. by rewrite !softmax_lookup, Hfa, Hfb.
Qed.

(** C10, as amended. On every batch with a valid mask [forward]
    returns, and in every row a legal action whose score is exactly 0 is
    given the sentinel -1000, as every illegal action is, and so has the
    same probability as every illegal action of that row, whether that
    probability is negligible or not. *)
Theorem legal_zero_score_gets_sentinel
    (x : list (list R)) (pm : list (list nat)) :
  valid_moves x pm →
  ∃ out,
    LegalSoftmax.forward x pm = inr out
    ∧ ∀ i row legal a,
        x !! i = Some row → pm !! i = Some legal →
        a ∈ legal → row !! a = Some 0 →
        ∃ outrow actions,
          out !! i = Some outrow
          ∧ LegalSoftmax.mark legal (length row) = inr actions
          ∧ outrow = softmax (LegalSoftmax.filter_row row actions)
          ∧ LegalSoftmax.filter_row row actions !! a
            = Some LegalSoftmax.sentinel
          ∧ ∀ b, (b < length row)%nat → b ∉ legal →
              LegalSoftmax.filter_row row actions !! b
              = Some LegalSoftmax.sentinel
              ∧ outrow !! b = outrow !! a.
Proof.
  intros Hv. destruct (forward_returns x pm Hv) as (out & Hf & _).
  exists out. split; [done|]. intros i row legal a.
  by apply legal_zero_score_row.
Qed.

Lemma valid_moves_one_row (row : list R) (legal : list nat) :
  Forall (λ j, (j < length row)%nat) legal → valid_moves [row] [legal].
Proof.
  intros Hl. split; [done|]. intros [|i] r l; simpl.
  - by intros [= <-] [= <-].
  - by rewrite lookup_nil.
Qed.

(** The theorem of C10 on the row [5, 0] with only action 1 legal. *)
Lemma legal_zero_score_gets_sentinel_witness :
  valid_moves [[5; 0]] [[1%nat]]
  ∧ ∃ out,
      LegalSoftmax.forward [[5; 0]] [[1%nat]] = inr out
      ∧ ∀ i row legal a,
          [[5; 0]] !! i = Some row → [[1%nat]] !! i = Some legal →
          a ∈ legal → row !! a = Some 0 →
          ∃ outrow actions,
            out !! i = Some outrow
            ∧ LegalSoftmax.mark legal (length row) = inr actions
            ∧ outrow = softmax (LegalSoftmax.filter_row row actions)
            ∧ LegalSoftmax.filter_row row actions !! a
              = Some LegalSoftmax.sentinel
            ∧ ∀ b, (b < length row)%nat → b ∉ legal →
                LegalSoftmax.filter_row row actions !! b
                = Some LegalSoftmax.sentinel
                ∧ outrow !! b = outrow !! a.
Proof.
  assert (Hv : valid_moves [[5; 0]] [[1%nat]]).
  { apply valid_moves_one_row. repeat constructor. }
  split; [exact Hv|].
  exact (legal_zero_score_gets_sentinel [[5; 0]] [[1%nat]] Hv).
Defined.

Lemma Rsum_nonneg (l : list R) : Forall (λ v, 0 <= v) l → 0 <= Rsum l.
Proof.
  induction 1 as [|w l Hw _ IH]; [rewrite Rsum_nil; lra|].
  rewrite Rsum_cons. lra.
Qed.

Lemma entry_le_sum (l : list R) :
  Forall (λ v, 0 <= v) l → ∀ k w, l !! k = Some w → w <= Rsum l.
Proof.
  induction 1 as [|w0 l Hw Hl IH]; intros k w; [by rewrite lookup_nil|].
  rewrite Rsum_cons. pose proof (Rsum_nonneg l Hl).
  destruct k as [|k]; simpl.
  - intros [= <-]. lra.
  - intros Hk. specialize (IH _ _ Hk). lra.
Qed.

Lemma two_entries_le_sum (l : list R) :
  Forall (λ v, 0 <= v) l →
  ∀ (a j : nat) (u v : R),
    a ≠ j → l !! a = Some u → l !! j = Some v → u + v <= Rsum l.
Proof.
  induction 1 as [|w l Hw Hl IH]; intros a j u v Hne Ha Hj;
    [by rewrite lookup_nil in Ha|].
  rewrite Rsum_cons. destruct a as [|a], j as [|j]; simpl in *.
  - done.
  - injection Ha as <-. pose proof (entry_le_sum l Hl _ _ Hj). lra.
  - injection Hj as <-. pose proof (entry_le_sum l Hl _ _ Ha). lra.
  - assert (a ≠ j) as Hne' by congruence.
    specialize (IH _ _ _ _ Hne' Ha Hj). lra.
Qed.

Lemma exp_list_nonneg (l : list R) : Forall (λ v, 0 <= v) (map exp l).
Proof.
  apply Forall_forall. intros v Hv.
  apply list_elem_of_In, in_map_iff in Hv as (w & <- & _).
  left. apply exp_pos.
Qed.

Lemma actions_tensor_insert (x : list (list R)) :
  ∀ (pm : list (list nat)) (i : nat) (row' : list R),
    (∀ row, x !! i = Some row → length row' = length row) →
    LegalSoftmax.actions_tensor (<[i := row']> x) pm
    = LegalSoftmax.actions_tensor x pm.
Proof.
  induction x as [|r x IH]; intros pm i row' Hlen; [done|].
  destruct pm as [|legal pm]; destruct i as [|i]; simpl; try done.
  - by rewrite (Hlen r).
  - rewrite IH; [done|]. intros row Hrow. by apply Hlen.
Qed.

Lemma filter_row_insert_illegal (row actions : list R) (a : nat) (y : R) :
  actions !! a = Some 0 →
  LegalSoftmax.filter_row (<[a := y]> row) actions
  = LegalSoftmax.filter_row row actions.
Proof.
  intros Ha. apply list_eq. intros k. unfold LegalSoftmax.filter_row.
  rewrite !lookup_zip_with.
  destruct (decide (k = a)) as [->|Hne];
    [|by rewrite list_lookup_insert_ne].
  destruct (decide (a < length row)%nat) as [Hlt|Hge];
    [|by rewrite list_insert_ge by lia].
  rewrite list_lookup_insert_eq by done.
  destruct (lookup_lt_is_Some_2 row a Hlt) as [v ->].
  simpl. rewrite Ha. simpl. f_equal.
  repeat destruct Req_dec_T; try done; exfalso; lra.
Qed.

(** An action outside the mask in one row of the output. *)
Lemma illegal_action_row
    (x : list (list R)) (pm : list (list nat)) (out : list (list R))
    (i : nat) (row : list R) (legal : list nat) (outrow : list R)
    (a j : nat) (s : R) :
  LegalSoftmax.forward x pm = inr out →
  x !! i = Some row → pm !! i = Some legal → out !! i = Some outrow →
  (a < length row)%nat → a ∉ legal →
  j ∈ legal → row !! j = Some s → s ≠ 0 →
  ∃ pa,
    outrow !! a = Some pa
    ∧ 0 < pa
    ∧ pa <= exp LegalSoftmax.sentinel
            / (exp LegalSoftmax.sentinel + exp s)
    ∧ ∀ y, LegalSoftmax.forward (<[i := <[a := y]> row]> x) pm = inr out.
Proof.
  intros Hf Hrow Hpm Hout Ha Hna Hj Hs Hs0.
  destruct (forward_rows _ _ _ _ _ Hf Hrow)
    as (legal' & actions & Hpm' & Hm & Hout').
  assert (legal' = legal) as -> by congruence.
  assert (outrow = softmax (LegalSoftmax.filter_row row actions))
    as -> by congruence.
  set (F := LegalSoftmax.filter_row row actions) in *.
  pose proof (filter_row_illegal _ _ _ _ Hm Ha Hna) as Hfa.
  pose proof (filter_row_legal _ _ _ _ _ Hm Hj Hs) as Hfj.
  destruct (Req_dec_T s 0) as [|_]; [done|]. fold F in Hfa, Hfj.
  assert (Hne : a ≠ j) by (intros ->; done).
  assert (Hsum : exp LegalSoftmax.sentinel + exp s <= Rsum (map exp F)).
  { apply (two_entries_le_sum _ (exp_list_nonneg F) a j); [done| |].
    - by rewrite list_lookup_fmap, Hfa.
    - by rewrite list_lookup_fmap, Hfj. }
  pose proof (exp_pos LegalSoftmax.sentinel) as He1.
  pose proof (exp_pos s) as He2.
  exists (exp LegalSoftmax.sentinel / Rsum (map exp F)).
  split; [by rewrite softmax_lookup, Hfa|].
  split; [apply Rdiv_lt_0_compat; lra|]. split.
  - unfold Rdiv. apply Rmult_le_compat_l; [lra|].
    apply Rinv_le_contravar; lra.
  - intros y. unfold LegalSoftmax.forward in *.
    apply bind_inr in Hf as (acts & Hacts & [= <-]).
    rewrite actions_tensor_insert, Hacts.
    2:{ intros r Hr. rewrite length_insert. congruence. }
    simpl. do 2 f_equal. apply list_eq. intros k.
    rewrite !lookup_zip_with.
    destruct (decide (k = i)) as [->|Hk];
      [|by rewrite list_lookup_insert_ne].
    rewrite list_lookup_insert_eq by (by eapply lookup_lt_Some).
    rewrite Hrow. simpl.
    destruct (actions_tensor_rows _ _ _ Hacts) as [_ Hrows].
    destruct (Hrows i row Hrow) as (legal' & acts_i & Hpm'' & -> & Hm').
    simpl. f_equal. apply filter_row_insert_illegal.
    assert (legal' = legal) as -> by congruence.
    apply mark_lookup in Hm' as [_ Hm']. rewrite Hm' by done.
    destruct decide; done.
Qed.

(** C5, as amended. On every batch with a valid mask [forward] returns,
    and in a row where some legal action [j] has a score [s] other than
    0, an action [a] outside the mask has a probability of at most the
    softmax of the sentinel against that entry,
    [exp (-1000) / (exp (-1000) + exp s)], and that probability does not
    depend on the score of [a]: any other score for [a] gives the same
    output. *)
Theorem illegal_action_probability
    (x : list (list R)) (pm : list (list nat)) :
  valid_moves x pm →
  ∃ out,
    LegalSoftmax.forward x pm = inr out
    ∧ ∀ i row legal a j s,
        x !! i = Some row → pm !! i = Some legal →
        (a < length row)%nat → a ∉ legal →
        j ∈ legal → row !! j = Some s → s ≠ 0 →
        ∃ outrow pa,
          out !! i = Some outrow
          ∧ outrow !! a = Some pa
          ∧ 0 < pa
          ∧ pa <= exp LegalSoftmax.sentinel
                  / (exp LegalSoftmax.sentinel + exp s)
          ∧ ∀ y, LegalSoftmax.forward (<[i := <[a := y]> row]> x) pm
                 = inr out.
Proof.
  intros Hv. destruct (forward_returns x pm Hv) as (out & Hf & Hlen).
  exists out. split; [done|]. intros i row legal a j s Hrow Hpm Ha Hna Hj Hs Hs0.
  destruct (lookup_lt_is_Some_2 out i) as [outrow Hout].
  { rewrite Hlen. by eapply lookup_lt_Some. }
  destruct (illegal_action_row x pm out i row legal outrow a j s)
    as (pa & Hpa); try done.
  by exists outrow, pa.
Qed.

(** The theorem of C5 on the row [5, 3] with only action 1 legal. *)
Lemma illegal_action_probability_witness :
  valid_moves [[5; 3]] [[1%nat]]
  ∧ ∃ out,
      LegalSoftmax.forward [[5; 3]] [[1%nat]] = inr out
      ∧ ∀ i row legal a j s,
          [[5; 3]] !! i = Some row → [[1%nat]] !! i = Some legal →
          (a < length row)%nat → a ∉ legal →
          j ∈ legal → row !! j = Some s → s ≠ 0 →
          ∃ outrow pa,
            out !! i = Some outrow
            ∧ outrow !! a = Some pa
            ∧ 0 < pa
            ∧ pa <= exp LegalSoftmax.sentinel
                    / (exp LegalSoftmax.sentinel + exp s)
            ∧ ∀ y, LegalSoftmax.forward
                     (<[i := <[a := y]> row]> [[5; 3]]) [[1%nat]]
                   = inr out.
Proof.
  assert (Hv : valid_moves [[5; 3]] [[1%nat]]).
  { apply valid_moves_one_row. repeat constructor. }
  split; [exact Hv|].
  exact (illegal_action_probability [[5; 3]] [[1%nat]] Hv).
Defined.

(** C5, counterexample. Only action 1 is legal. With a legal score of
    -2000 the excluded action 0 gets at least half of the probability,
    and with a legal score of 0 it gets exactly half. *)
Lemma illegal_action_not_negligible :
  (∃ p0 p1,
      LegalSoftmax.forward [[5; -2000]] [[1%nat]] = inr [[p0; p1]]
      ∧ 1 / 2 <= p0)
  ∧ (∃ p0 p1,
        LegalSoftmax.forward [[5; 0]] [[1%nat]] = inr [[p0; p1]]
        ∧ p0 = 1 / 2 ∧ p1 = 1 / 2).
Proof.
  assert (F1 : LegalSoftmax.filter_row [5; -2000] [0; 1] = [-1000; -2000]).
  { unfold LegalSoftmax.filter_row, LegalSoftmax.sentinel. simpl.
    repeat match goal with
           | |- context [Req_dec_T ?u ?v] =>
               let He := fresh in
               destruct (Req_dec_T u v) as [He|He];
               [try (exfalso; lra)|try (exfalso; apply He; lra)]
           end; f_equal; try lra; f_equal; lra. }
  assert (F2 : LegalSoftmax.filter_row [5; 0] [0; 1] = [-1000; -1000]).
  { unfold LegalSoftmax.filter_row, LegalSoftmax.sentinel. simpl.
    repeat match goal with
           | |- context [Req_dec_T ?u ?v] =>
               let He := fresh in
               destruct (Req_dec_T u v) as [He|He];
               [try (exfalso; lra)|try (exfalso; apply He; lra)]
           end; f_equal; try lra; f_equal; lra. }
  split.
  - exists (exp (-1000) / (exp (-1000) + (exp (-2000) + 0))),
           (exp (-2000) / (exp (-1000) + (exp (-2000) + 0))).
    split.
    + change (LegalSoftmax.forward [[5; -2000]] [[1%nat]])
        with (inr (B:=list (list R)) (A:=exn)
                [softmax (LegalSoftmax.filter_row [5; -2000] [0; 1])]).
      rewrite F1. reflexivity.
    + pose proof (exp_pos (-1000)). pose proof (exp_pos (-2000)).
      assert (exp (-2000) < exp (-1000)) by (apply exp_increasing; lra).
      apply Rmult_le_reg_r with (exp (-1000) + (exp (-2000) + 0)); [lra|].
      unfold Rdiv at 2. rewrite Rmult_assoc, Rinv_l by lra. lra.
  - exists (exp (-1000) / (exp (-1000) + (exp (-1000) + 0))),
           (exp (-1000) / (exp (-1000) + (exp (-1000) + 0))).
    pose proof (exp_pos (-1000)).
    split; [|split; field; lra].
    change (LegalSoftmax.forward [[5; 0]] [[1%nat]])
      with (inr (B:=list (list R)) (A:=exn)
              [softmax (LegalSoftmax.filter_row [5; 0] [0; 1])]).
    rewrite F2. reflexivity.
Qed.

(** C10, counterexample. In the row [5, 0] with only action 1 legal,
    the legal action has score 0 and is given the sentinel, as the
    excluded action 0 is: the two have the same probability, and it is
    1/2, not a negligible one. *)
Lemma legal_zero_score_not_negligible :
  ∃ p0 p1,
    LegalSoftmax.forward [[5; 0]] [[1%nat]] = inr [[p0; p1]]
    ∧ LegalSoftmax.filter_row [5; 0] [0; 1]
      = [LegalSoftmax.sentinel; LegalSoftmax.sentinel]
    ∧ p1 = p0 ∧ p1 = 1 / 2.
Proof.
  assert (F : LegalSoftmax.filter_row [5; 0] [0; 1]
              = [LegalSoftmax.sentinel; LegalSoftmax.sentinel]).
  { unfold LegalSoftmax.filter_row. simpl.
    repeat match goal with
           | |- context [Req_dec_T ?u ?v] =>
               let He := fresh in
               destruct (Req_dec_T u v) as [He|He];
               [try (exfalso; lra)|try (exfalso; apply He; lra)]
           end; reflexivity. }
  exists (exp LegalSoftmax.sentinel
          / (exp LegalSoftmax.sentinel + (exp LegalSoftmax.sentinel + 0))),
         (exp LegalSoftmax.sentinel
          / (exp LegalSoftmax.sentinel + (exp LegalSoftmax.sentinel + 0))).
  pose proof (exp_pos LegalSoftmax.sentinel).
  split; [|split; [exact F|split; [reflexivity|field; lra]]].
  change (LegalSoftmax.forward [[5; 0]] [[1%nat]])
    with (inr (B:=list (list R)) (A:=exn)
            [softmax (LegalSoftmax.filter_row [5; 0] [0; 1])]).
  rewrite F. reflexivity.
Qed.

(** ** The noise of a noisy layer (C6) *)

Lemma update_noise_unfold (l : NoisyLayer.t) (g : RandomState) :
  let n_out := NoisyLayer.out_dim l in
  let n_in := NoisyLayer.in_dim l in
  let f_out := NoisyLayer.transform (drawn g (position g) n_out) in
  let f_in := NoisyLayer.transform (drawn g (position g + n_out) n_in) in
  let f_b :=
    NoisyLayer.transform (drawn g (position g + n_out + n_in) n_out) in
  NoisyLayer.update_noise l g
  = (NoisyLayer.set_eps_b f_b (NoisyLayer.set_eps_w (ger f_out f_in) l),
     {| variates := variates g;
        position := position g + n_out + n_in + n_out |}).
Proof. reflexivity. Qed.

Lemma drawn_lookup (g : RandomState) (from size i : nat) :
  (i < size)%nat →
  drawn g from size !! i = Some (0 + 1 / 1000 * variates g (from + i)).
Proof.
  intros Hi. unfold drawn. rewrite list_lookup_fmap.
  by rewrite lookup_seq_lt.
Qed.

Lemma length_drawn (g : RandomState) (from size : nat) :
  length (drawn g from size) = size.
Proof. unfold drawn. by rewrite length_map, length_seq. Qed.

Lemma transform_lookup (x : list R) (i : nat) (v : R) :
  x !! i = Some v →
  NoisyLayer.transform x !! i = Some (sign v * sqrt (Rabs v)).
Proof.
  intros Hv. unfold NoisyLayer.transform.
  by rewrite lookup_zip_with, !list_lookup_fmap, Hv.
Qed.

Lemma length_transform (x : list R) :
  length (NoisyLayer.transform x) = length x.
Proof.
  unfold NoisyLayer.transform. rewrite length_zip_with, !length_map. lia.
Qed.

(** The transform keeps the sign and takes the square root of the size:
    [y = sign(x) * sqrt(|x|)] has [y * |y| = x]. *)
Lemma transform_square (x : R) :
  let y := sign x * sqrt (Rabs x) in y * Rabs y = x.
Proof.
  cbv zeta. pose proof (Rabs_pos x) as Hx.
  pose proof (sqrt_pos (Rabs x)) as Hs.
  pose proof (sqrt_sqrt (Rabs x) Hx) as Hss.
  unfold sign. destruct (Rlt_dec x 0) as [Hneg|Hnn].
  - rewrite Rabs_left in * by lra.
    replace (-1 * sqrt (- x)) with (- sqrt (- x)) by lra.
    rewrite Rabs_Ropp, (Rabs_pos_eq (sqrt (- x))) by done. nra.
  - destruct (Rlt_dec 0 x) as [Hpos|Hz].
    + rewrite Rabs_pos_eq in * by lra.
      replace (1 * sqrt x) with (sqrt x) by lra.
      rewrite (Rabs_pos_eq (sqrt x)) by done. nra.
    + lra.
Qed.

(** C6, as amended. Each call of [update_noise] makes three draws from
    the zero-mean Gaussian (scale 0.001), of sizes [out], [in] and [out]
    in this order, and transforms each by [sign(x) * sqrt(|x|)]: entry
    [(i, j)] of the weight noise is the product of entry [i] of the first
    and entry [j] of the second, and entry [i] of the bias noise is entry
    [i] of the third, a draw of its own. *)
Theorem update_noise_three_draws (l : NoisyLayer.t) (g : RandomState) :
  let n_out := NoisyLayer.out_dim l in
  let n_in := NoisyLayer.in_dim l in
  let p := position g in
  let f := λ k, let x := 0 + 1 / 1000 * variates g k in
                sign x * sqrt (Rabs x) in
  let l' := (NoisyLayer.update_noise l g).1 in
  let g' := (NoisyLayer.update_noise l g).2 in
  position g' = (p + n_out + n_in + n_out)%nat
  ∧ variates g' = variates g
  ∧ length (NoisyLayer.eps_w l') = n_out
  ∧ length (NoisyLayer.eps_b l') = n_out
  ∧ (∀ i j, (i < n_out)%nat → (j < n_in)%nat →
       NoisyLayer.eps_w l' !! i ≫= (.!! j)
       = Some (f (p + i)%nat * f (p + n_out + j)%nat))
  ∧ (∀ i, (i < n_out)%nat →
       NoisyLayer.eps_b l' !! i = Some (f (p + n_out + n_in + i)%nat))
  ∧ (∀ k, f k * Rabs (f k) = 0 + 1 / 1000 * variates g k).
Proof.
  cbv zeta. rewrite update_noise_unfold. cbv zeta. simpl.
  split; [done|]. split; [done|].
  split; [unfold ger; by rewrite length_map, length_transform, length_drawn|].
  split; [by rewrite length_transform, length_drawn|].
  split; [|split].
  - intros i j Hi Hj. unfold ger. rewrite list_lookup_fmap.
    rewrite (transform_lookup _ i _ (drawn_lookup g _ _ i Hi)). simpl.
    rewrite list_lookup_fmap.
    by rewrite (transform_lookup _ j _ (drawn_lookup g _ _ j Hj)).
  - intros i Hi.
    by rewrite (transform_lookup _ i _ (drawn_lookup g _ _ i Hi)).
  - intros k. apply transform_square.
Qed.

Lemma transform_1 : NoisyLayer.transform [0 + 1 / 1000 * 1000] = [1].
Proof.
  replace (0 + 1 / 1000 * 1000) with 1 by lra.
  unfold NoisyLayer.transform, sign. simpl.
  destruct Rlt_dec; [lra|]. destruct Rlt_dec; [|lra].
  rewrite Rabs_R1, sqrt_1. f_equal. lra.
Qed.

Lemma transform_4 : NoisyLayer.transform [0 + 1 / 1000 * 4000] = [2].
Proof.
  replace (0 + 1 / 1000 * 4000) with (2 * 2) by lra.
  unfold NoisyLayer.transform, sign. simpl.
  destruct Rlt_dec; [lra|]. destruct Rlt_dec; [|lra].
  rewrite Rabs_pos_eq by lra. rewrite sqrt_square by lra. f_equal. lra.
Qed.

(** C6, counterexample. On a layer with one input and one output and a
    generator whose next variates are 1000, 1000, 4000, the code draws
    three times and sets the bias noise to [2], the transform of the
    third draw; the output-sized factor of the weight noise is [1], which
    is what the two draws of the specification give. *)
Lemma update_noise_bias_is_third_draw :
  NoisyLayer.eps_b (NoisyLayer.update_noise (plain_layer 1)
                      example_generator).1 = [2]
  ∧ NoisyLayer.eps_w (NoisyLayer.update_noise (plain_layer 1)
                        example_generator).1 = ger [1] [1]
  ∧ position (NoisyLayer.update_noise (plain_layer 1)
                example_generator).2 = 3%nat
  ∧ NoisyLayer.eps_b (update_noise_shared_factor (plain_layer 1)
                        example_generator).1 = [1]
  ∧ position (update_noise_shared_factor (plain_layer 1)
                example_generator).2 = 2%nat.
Proof.
  rewrite update_noise_unfold.
  unfold update_noise_shared_factor, NoisyLayer.factorize_noise, normal,
    drawn.
  simpl. rewrite ?transform_1, ?transform_4.
  pose proof transform_1 as H1. unfold NoisyLayer.transform in H1.
  simpl in H1. injection H1 as H1. rewrite H1. done.
Qed.

(** ** The epsilon schedule (C7) *)

Section EpsilonProperties.
Variable min_eps eps_decay : R.
Hypothesis decay_nonneg : 0 <= eps_decay.

Local Abbreviation decay := (Agent.decay min_eps eps_decay).

Lemma decay_gap (i : nat) (eps : R) :
  decay i eps - min_eps = (eps - min_eps) * exp (- eps_decay * INR i).
Proof. unfold Agent.decay. lra. Qed.

Lemma decay_factor (i : nat) : 0 < exp (- eps_decay * INR i) <= 1.
Proof.
  split; [apply exp_pos|]. rewrite <- exp_0.
  pose proof (pos_INR i).
  destruct (Req_dec_T (- eps_decay * INR i) 0) as [->|Hne]; [lra|].
  left. apply exp_increasing. nra.
Qed.

Lemma decay_bounds (i : nat) (eps : R) :
  min_eps <= eps → min_eps <= decay i eps <= eps.
Proof.
  intros He. pose proof (decay_gap i eps). pose proof (decay_factor i).
  nra.
Qed.

Lemma trace_ok_step (eps0 : R) (i : nat) (eps : R) (trace : list R) :
  trace_ok min_eps eps0 eps trace →
  trace_ok min_eps eps0 (decay i eps) (decay i eps :: trace).
Proof.
  intros (Hhd & Hne & Hs & Hb).
  destruct trace as [|e t]; [done|]. simpl in Hhd. subst e.
  pose proof (Forall_inv Hb) as Hb0. simpl in Hb0.
  pose proof (decay_bounds i eps (proj1 Hb0)) as Hd.
  split; [done|]. split; [done|]. split.
  - constructor; [done|]. constructor; [lra|].
    apply StronglySorted_inv in Hs as [_ Hall].
    eapply Forall_impl; [exact Hall|]. simpl. intros. lra.
  - constructor; [lra|done].
Qed.

Lemma while_not_done_trace (eps0 : R) (i n : nat) :
  ∀ eps trace,
    trace_ok min_eps eps0 eps trace →
    trace_ok min_eps eps0 (Agent.while_not_done min_eps eps_decay i n eps trace).1
      (Agent.while_not_done min_eps eps_decay i n eps trace).2.
Proof.
  induction n as [|n IH]; intros eps trace Hok; simpl; [done|].
  apply IH. by apply trace_ok_step.
Qed.

Lemma for_episodes_trace (eps0 : R) (more : list nat) :
  ∀ i eps trace,
    trace_ok min_eps eps0 eps trace →
    trace_ok min_eps eps0 (Agent.for_episodes min_eps eps_decay i more eps trace).1
      (Agent.for_episodes min_eps eps_decay i more eps trace).2.
Proof.
  induction more as [|m more IH]; intros i eps trace Hok; [done|].
  cbn [Agent.for_episodes].
  pose proof (while_not_done_trace eps0 i (S m) eps trace Hok) as Hw.
  destruct (Agent.while_not_done min_eps eps_decay i (S m) eps trace)
    as [eps1 trace1].
  by apply IH.
Qed.

(** The distance to [min_eps] after the loops. *)
Lemma while_not_done_gap (i n : nat) :
  ∀ eps trace,
    min_eps <= eps →
    let eps' :=
      (Agent.while_not_done min_eps eps_decay i n eps trace).1 in
    min_eps <= eps' <= eps
    ∧ (n ≠ 0%nat →
       eps' - min_eps <= (eps - min_eps) * exp (- eps_decay * INR i)).
Proof.
  induction n as [|n IH]; intros eps trace He; simpl; [split; [lra|done]|].
  pose proof (decay_bounds i eps He) as Hd.
  destruct (IH (decay i eps) (decay i eps :: trace) (proj1 Hd))
    as [Hb _].
  split; [lra|]. intros _. rewrite <- decay_gap. lra.
Qed.

Lemma for_episodes_gap (more : list nat) :
  ∀ i eps trace,
    min_eps <= eps →
    let eps' :=
      (Agent.for_episodes min_eps eps_decay i more eps trace).1 in
    min_eps <= eps' <= eps
    ∧ (more ≠ [] →
       eps' - min_eps
       <= (eps - min_eps)
          * exp (- eps_decay * INR (i + length more - 1))).
Proof.
  induction more as [|m more IH]; intros i eps trace He;
    [simpl; split; [lra|done]|].
  cbn [Agent.for_episodes].
  pose proof (while_not_done_gap i (S m) eps trace He) as [Hb Hg].
  specialize (Hg ltac:(done)).
  destruct (Agent.while_not_done min_eps eps_decay i (S m) eps trace)
    as [eps1 trace1]. simpl in Hb, Hg.
  destruct (IH (S i) eps1 trace1 (proj1 Hb)) as [Hb' Hg'].
  cbv zeta in *. split; [lra|]. intros _.
  destruct more as [|m' more].
  - simpl in *. replace (i + 1 - 1)%nat with i by lia. done.
  - specialize (Hg' ltac:(done)).
    replace (i + length (m :: m' :: more) - 1)%nat
      with (S i + length (m' :: more) - 1)%nat by (simpl; lia).
    pose proof (decay_factor (S i + length (m' :: more) - 1)).
    nra.
Qed.
End EpsilonProperties.

(** C7, as amended. Given an initial [eps >= min_eps] and
    [eps_decay >= 0], the values that [train] assigns to [self.eps] never
    go up and never go below [min_eps]; if moreover [eps_decay > 0], the
    value after the run is as close to [min_eps] as wanted once the run
    has enough episodes. *)
Theorem eps_schedule (min_eps eps_decay eps0 : R) :
  min_eps <= eps0 → 0 <= eps_decay →
  (∀ more,
     trace_ok min_eps eps0
       (Agent.train_eps min_eps eps_decay more eps0).1
       (Agent.train_eps min_eps eps_decay more eps0).2)
  ∧ (0 < eps_decay →
     ∀ tol, 0 < tol →
       ∃ N, ∀ more, (N ≤ length more)%nat →
         min_eps <= (Agent.train_eps min_eps eps_decay more eps0).1
         ∧ (Agent.train_eps min_eps eps_decay more eps0).1 - min_eps < tol).
Proof.
  intros He Hd. split.
  - intros more. unfold Agent.train_eps.
    apply for_episodes_trace; [done|].
    split; [done|]. split; [done|]. split.
    + repeat constructor.
    + constructor; [lra|constructor].
  - intros Hpos tol Htol.
    destruct (INR_unbounded ((eps0 - min_eps) / (tol * eps_decay)))
      as [N0 HN0].
    exists (S N0). intros more Hlen. unfold Agent.train_eps.
    destruct (for_episodes_gap min_eps eps_decay Hd more 0 eps0 [eps0] He)
      as [Hb Hg].
    cbv zeta in *. split; [lra|].
    assert (Hne : more ≠ []) by (intros ->; simpl in Hlen; lia).
    specialize (Hg Hne).
    set (m := (0 + length more - 1)%nat) in *.
    assert (Hm : INR N0 <= INR m) by (apply le_INR; lia).
    assert (Hprod : 0 < tol * eps_decay) by nra.
    assert (Hgap : eps0 - min_eps < tol * eps_decay * INR m).
    { apply Rmult_lt_compat_r with (r := tol * eps_decay) in HN0; [|done].
      unfold Rdiv in HN0.
      rewrite Rmult_assoc, Rinv_l in HN0 by lra. nra. }
    pose proof (exp_ineq1_le (eps_decay * INR m)) as Hexp.
    pose proof (exp_pos (- eps_decay * INR m)) as Hp.
    assert (Hinv : exp (- eps_decay * INR m) * exp (eps_decay * INR m) = 1).
    { rewrite <- exp_plus.
      replace (- eps_decay * INR m + eps_decay * INR m) with 0 by lra.
      apply exp_0. }
    pose proof (pos_INR m).
    assert (0 <= eps_decay * INR m) by nra.
    assert ((eps0 - min_eps) * exp (- eps_decay * INR m) < tol); [|lra].
    apply Rmult_lt_reg_r with (exp (eps_decay * INR m)); [lra|].
    rewrite Rmult_assoc, Hinv. nra.
Qed.

(** The theorem of C7 at the defaults of [Agent]: [eps = 1],
    [min_eps = 0.01], [eps_decay = 0.005]. *)
Lemma eps_schedule_witness :
  (∀ more,
     trace_ok (1 / 100) 1
       (Agent.train_eps (1 / 100) (5 / 1000) more 1).1
       (Agent.train_eps (1 / 100) (5 / 1000) more 1).2)
  ∧ (0 < 5 / 1000 →
     ∀ tol, 0 < tol →
       ∃ N, ∀ more, (N ≤ length more)%nat →
         1 / 100 <= (Agent.train_eps (1 / 100) (5 / 1000) more 1).1
         ∧ (Agent.train_eps (1 / 100) (5 / 1000) more 1).1 - 1 / 100 < tol).
Proof. apply (eps_schedule (1 / 100) (5 / 1000) 1); lra. Defined.

Lemma decay_zero_rate (min_eps eps : R) (i : nat) :
  Agent.decay min_eps 0 i eps = eps.
Proof.
  unfold Agent.decay. replace (- 0 * INR i) with 0 by lra.
  rewrite exp_0. lra.
Qed.

Lemma train_eps_zero_rate (min_eps eps0 : R) (more : list nat) :
  (Agent.train_eps min_eps 0 more eps0).1 = eps0.
Proof.
  unfold Agent.train_eps. generalize [eps0] at 1. generalize 0%nat.
  assert (W : ∀ i n eps trace,
             (Agent.while_not_done min_eps 0 i n eps trace).1 = eps).
  { intros i n. induction n as [|n IH]; intros eps trace; simpl; [done|].
    by rewrite IH, decay_zero_rate. }
  induction more as [|m more IH]; intros i trace; [done|].
  cbn [Agent.for_episodes].
  pose proof (W i (S m) eps0 trace) as Hw.
  destruct (Agent.while_not_done min_eps 0 i (S m) eps0 trace)
    as [eps1 trace1].
  simpl in Hw. subst eps1. apply IH.
Qed.

(** C7, counterexample. With [eps_decay = -1] the value goes up, from 1
    to more than 2 in the second episode; with [eps_decay = 0] it stays
    at 1 in every run and never gets nearer to [min_eps = 0.01]. Both
    start from [eps >= min_eps]. *)
Lemma eps_not_decaying :
  2 < (Agent.train_eps 0 (-1) [0%nat; 0%nat] 1).1
  ∧ ∀ more, (Agent.train_eps (1 / 100) 0 more 1).1 = 1.
Proof.
  split; [|intros more; apply train_eps_zero_rate].
  unfold Agent.train_eps. simpl. unfold Agent.decay.
  replace (- (-1) * INR 0) with 0 by (simpl; lra). rewrite exp_0.
  replace (- (-1) * INR 1) with 1 by (simpl; lra).
  pose proof (exp_ineq1 1). lra.
Qed.

(** ** The dueling combination (C8) *)

Lemma argmax_aux_shift (m : R) (t : list R) :
  ∀ (best_i : nat) (best : R) (i : nat),
    argmax_aux best_i (best - m) i (map (λ q, q - m) t)
    = argmax_aux best_i best i t.
Proof.
  induction t as [|v t IH]; intros best_i best i; simpl; [done|].
  destruct (Rlt_dec (best - m) (v - m)), (Rlt_dec best v);
    try (exfalso; lra); apply IH.
Qed.

Lemma argmax_shift (m : R) (t : list R) :
  argmax (map (λ q, q - m) t) = argmax t.
Proof.
  destruct t as [|v t]; [done|]. simpl. by rewrite argmax_aux_shift.
Qed.

Lemma argmax_over_aux_shift (m : R) (row : list R) (cands : list nat) :
  Forall (λ j, (j < length row)%nat) cands →
  ∀ (best_i : nat) (best : R),
    argmax_over_aux (map (λ q, q - m) row) best_i (best - m) cands
    = argmax_over_aux row best_i best cands.
Proof.
  induction 1 as [|j cands Hj _ IH]; intros best_i best; simpl; [done|].
  destruct (lookup_lt_is_Some_2 row j Hj) as [v Hv].
  rewrite list_lookup_fmap, Hv. simpl.
  destruct (Rlt_dec (best - m) (v - m)), (Rlt_dec best v);
    try (exfalso; lra); apply IH.
Qed.

Lemma argmax_over_shift (m : R) (row : list R) (cands : list nat) :
  Forall (λ j, (j < length row)%nat) cands →
  argmax_over cands (map (λ q, q - m) row) = argmax_over cands row.
Proof.
  intros Hc. destruct Hc as [|j cands Hj Hc]; [done|]. simpl.
  destruct (lookup_lt_is_Some_2 row j Hj) as [v Hv].
  rewrite list_lookup_fmap, Hv. simpl. f_equal.
  by apply argmax_over_aux_shift.
Qed.

Lemma mark_in_range (legal : list nat) (n : nat) (actions : list R) :
  LegalSoftmax.mark legal n = inr actions →
  Forall (λ j, (j < n)%nat) legal.
Proof.
  unfold LegalSoftmax.mark.
  destruct (forallb _ legal) eqn:Hall; [|discriminate]. intros _.
  rewrite forallb_forall in Hall. apply Forall_forall. intros j Hj.
  apply list_elem_of_In in Hj. apply Hall in Hj. by apply Nat.ltb_lt.
Qed.

Lemma length_filter_row (x actions : list R) :
  length actions = length x →
  length (LegalSoftmax.filter_row x actions) = length x.
Proof.
  intros H. unfold LegalSoftmax.filter_row. rewrite length_zip_with. lia.
Qed.

(** The rows of the output of the dueling network. *)
Lemma dueling_rows
    (input_layer advantage_layer : list R → list R)
    (value_layer : list R → R)
    (x : list (list R)) (pm : list (list nat)) (out : list (list R)) :
  DuelingNetwork.forward input_layer advantage_layer value_layer x pm
  = inr out →
  ∃ advantage,
    LegalSoftmax.forward (map advantage_layer (map input_layer x)) pm
    = inr advantage
    ∧ ∀ i q legal,
        out !! i = Some q → pm !! i = Some legal →
        ∃ q0,
          DuelingNetwork.value_plus_advantage advantage
            (map value_layer (map input_layer x)) !! i = Some q0
          ∧ q = map (λ v, v - mean2 advantage) q0
          ∧ argmax q = argmax q0
          ∧ argmax_over legal q = argmax_over legal q0
          ∧ ∀ j k vj vk wj wk,
              q !! j = Some vj → q !! k = Some vk →
              q0 !! j = Some wj → q0 !! k = Some wk →
              (vj <= vk ↔ wj <= wk).
Proof.
  unfold DuelingNetwork.forward. intros H.
  apply bind_inr in H as (advantage & Hadv & [= <-]).
  exists advantage. split; [done|]. intros i q legal Hq Hpm.
  rewrite list_lookup_fmap in Hq.
  destruct (_ !! i) as [q0|] eqn:Hq0; [|done].
  simplify_eq/=.
  exists q0. split; [done|]. split; [done|].
  split; [apply argmax_shift|]. split.
  - apply argmax_over_shift.
    unfold DuelingNetwork.value_plus_advantage in Hq0.
    rewrite lookup_zip_with in Hq0.
    destruct (advantage !! i) as [adv|] eqn:Hai; [|done]. simpl in Hq0.
    destruct (map value_layer (map input_layer x) !! i) as [v|];
      [|done].
    simplify_eq/=. rewrite length_map.
    assert (Hx : is_Some (map advantage_layer (map input_layer x) !! i)).
    { apply lookup_lt_is_Some.
      unfold LegalSoftmax.forward in Hadv.
      apply bind_inr in Hadv as (acts & Hacts & [= <-]).
      apply lookup_lt_Some in Hai.
      rewrite length_map, length_zip_with in Hai. lia. }
    destruct Hx as [row Hrow].
    destruct (forward_rows _ _ _ _ _ Hadv Hrow)
      as (legal' & actions & Hpm' & Hm & Hout).
    assert (legal' = legal) as -> by congruence.
    assert (adv = softmax (LegalSoftmax.filter_row row actions))
      as -> by congruence.
    rewrite length_softmax, length_filter_row
      by (by apply mark_lookup in Hm as [? _]).
    by eapply mark_in_range.
  - intros j k vj vk wj wk. rewrite !list_lookup_fmap.
    intros Hj Hk Hj0 Hk0. rewrite Hj0 in Hj. rewrite Hk0 in Hk.
    simpl in *. injection Hj as <-. injection Hk as <-. lra.
Qed.

(** C8. On every batch with a valid mask the dueling network returns one
    row for each state, and every row of the output is the row
    [value + masked advantage] with one scalar, the mean of the masked
    advantage, subtracted from every entry: the order of any two entries
    is the same before and after, and so are the arg-max of the row and
    the arg-max over the legal actions of the row. *)
Theorem dueling_argmax_unchanged
    (input_layer advantage_layer : list R → list R)
    (value_layer : list R → R)
    (x : list (list R)) (pm : list (list nat)) :
  valid_moves (map advantage_layer (map input_layer x)) pm →
  ∃ out advantage,
    DuelingNetwork.forward input_layer advantage_layer value_layer x pm
    = inr out
    ∧ LegalSoftmax.forward (map advantage_layer (map input_layer x)) pm
      = inr advantage
    ∧ length out = length x
    ∧ ∀ i q legal,
        out !! i = Some q → pm !! i = Some legal →
        ∃ q0,
          DuelingNetwork.value_plus_advantage advantage
            (map value_layer (map input_layer x)) !! i = Some q0
          ∧ q = map (λ v, v - mean2 advantage) q0
          ∧ argmax q = argmax q0
          ∧ argmax_over legal q = argmax_over legal q0
          ∧ ∀ j k vj vk wj wk,
              q !! j = Some vj → q !! k = Some vk →
              q0 !! j = Some wj → q0 !! k = Some wk →
              (vj <= vk ↔ wj <= wk).
Proof.
  intros Hv. destruct (forward_returns _ _ Hv) as (advantage & Ha & Hlen).
  assert (Hf : DuelingNetwork.forward input_layer advantage_layer
                 value_layer x pm
               = inr (map (map (λ q, q - mean2 advantage))
                        (DuelingNetwork.value_plus_advantage advantage
                           (map value_layer (map input_layer x))))).
  { unfold DuelingNetwork.forward. by rewrite Ha. }
  eexists _, advantage. split; [exact Hf|]. split; [exact Ha|]. split.
  - unfold DuelingNetwork.value_plus_advantage.
    rewrite length_map, length_zip_with, Hlen, !length_map. lia.
  - destruct (dueling_rows _ _ _ _ _ _ Hf) as (advantage' & Ha' & Hrows).
    assert (advantage' = advantage) as -> by congruence. exact Hrows.
Qed.

(** The theorem of C8 on a batch of one state with two actions, both
    legal. *)
Lemma dueling_argmax_unchanged_witness :
  valid_moves (map (λ _, [1; 2]) (map (λ s, s) [[1]])) [[0%nat; 1%nat]]
  ∧ ∃ out advantage,
      DuelingNetwork.forward (λ s, s) (λ _, [1; 2]) (λ _, 3) [[1]]
        [[0%nat; 1%nat]] = inr out
      ∧ LegalSoftmax.forward (map (λ _, [1; 2]) (map (λ s, s) [[1]]))
          [[0%nat; 1%nat]] = inr advantage
      ∧ length out = length [[1]]
      ∧ ∀ i q legal,
          out !! i = Some q → [[0%nat; 1%nat]] !! i = Some legal →
          ∃ q0,
            DuelingNetwork.value_plus_advantage advantage
              (map (λ _, 3) (map (λ s, s) [[1]])) !! i = Some q0
            ∧ q = map (λ v, v - mean2 advantage) q0
            ∧ argmax q = argmax q0
            ∧ argmax_over legal q = argmax_over legal q0
            ∧ ∀ j k vj vk wj wk,
                q !! j = Some vj → q !! k = Some vk →
                q0 !! j = Some wj → q0 !! k = Some wk →
                (vj <= vk ↔ wj <= wk).
Proof.
  assert (Hv : valid_moves (map (λ _, [1; 2]) (map (λ s, s) [[1]]))
                 [[0%nat; 1%nat]]).
  { apply (valid_moves_one_row [1; 2] [0%nat; 1%nat]). repeat constructor. }
  split; [exact Hv|].
  exact (dueling_argmax_unchanged (λ s, s) (λ _, [1; 2]) (λ _, 3) [[1]]
           [[0%nat; 1%nat]] Hv).
Defined.

(** ** The target network (C9) *)

Section CopyNamed.
Variable values : gmap string (list R).

Local Abbreviation write :=
  (λ (h : list (list R)) '((name, l) : string * nat),
     match values !! name with
     | Some v => <[l := v]> h
     | None => h
     end).

Lemma fold_write_length (L : list (string * nat)) :
  ∀ h, length (foldl write h L) = length h.
Proof.
  induction L as [|[name l] L IH]; intros h; simpl; [done|].
  rewrite IH. destruct (values !! name); [apply length_insert|done].
Qed.

Lemma fold_write_other (L : list (string * nat)) (l : nat) :
  l ∉ L.*2 → ∀ h, foldl write h L !! l = h !! l.
Proof.
  induction L as [|[name l0] L IH]; intros Hl h; simpl; [done|].
  rewrite fmap_cons in Hl. apply not_elem_of_cons in Hl as [Hne Hl].
  rewrite IH by done. simpl in Hne.
  destruct (values !! name); [|done].
  by rewrite list_lookup_insert_ne.
Qed.

Lemma fold_write_lookup (L : list (string * nat)) (name : string)
    (l : nat) (v : list R) :
  NoDup L.*2 → (name, l) ∈ L → values !! name = Some v →
  ∀ h, (l < length h)%nat → foldl write h L !! l = Some v.
Proof.
  induction L as [|[name0 l0] L IH]; intros Hnd Hin Hv h Hlt;
    [by apply elem_of_nil in Hin|].
  rewrite fmap_cons in Hnd. apply NoDup_cons in Hnd as [Hl0 Hnd].
  simpl. apply elem_of_cons in Hin as [[= <- <-]|Hin].
  - rewrite fold_write_other by done. rewrite Hv.
    by apply list_lookup_insert_eq.
  - apply IH; try done.
    destruct (values !! name0); [by rewrite length_insert|done].
Qed.

Lemma copy_named_length (m : gmap string nat) (h : list (list R)) :
  length (Agent.copy_named values m h) = length h.
Proof. apply fold_write_length. Qed.

Lemma copy_named_other (m : gmap string nat) (h : list (list R))
    (l : nat) :
  (∀ name, m !! name ≠ Some l) →
  Agent.copy_named values m h !! l = h !! l.
Proof.
  intros Hl. apply fold_write_other. intros Hin.
  apply list_elem_of_fmap in Hin as ([name l'] & -> & Hin).
  apply elem_of_map_to_list in Hin. by apply (Hl name).
Qed.

Lemma copy_named_lookup (m : gmap string nat) (h : list (list R))
    (name : string) (l : nat) (v : list R) :
  NoDup (map_to_list m).*2 → m !! name = Some l →
  values !! name = Some v → (l < length h)%nat →
  Agent.copy_named values m h !! l = Some v.
Proof.
  intros Hnd Hm Hv Hlt. apply fold_write_lookup with name; try done.
  by apply elem_of_map_to_list.
Qed.
End CopyNamed.

Lemma state_dict_lookup (m : Agent.module) (h : list (list R))
    (name : string) :
  Agent.state_dict m h !! name = Agent.entries m !! name ≫= (h !!.).
Proof. unfold Agent.state_dict. apply lookup_omap. Qed.

Lemma state_dict_ext (m : Agent.module) (h h' : list (list R)) :
  (∀ name l, Agent.entries m !! name = Some l → h' !! l = h !! l) →
  Agent.state_dict m h' = Agent.state_dict m h.
Proof.
  intros H. apply map_eq. intros name. rewrite !state_dict_lookup.
  destruct (Agent.entries m !! name) as [l|] eqn:E; [|done].
  simpl. by apply (H name).
Qed.

Lemma entries_lookup (m : Agent.module) (name : string) (l : nat) :
  Agent.entries m !! name = Some l →
  Agent.params m !! name = Some l ∨ Agent.buffers m !! name = Some l.
Proof.
  unfold Agent.entries. rewrite lookup_union_Some_raw.
  intros [?|[_ ?]]; [by left|by right].
Qed.

Lemma load_state_dict_spec (m : Agent.module)
    (sd : gmap string (list R)) (h h' : list (list R)) :
  NoDup (map_to_list (Agent.entries m)).*2 →
  (∀ name l, Agent.entries m !! name = Some l → (l < length h)%nat) →
  Agent.load_state_dict m sd h = inr h' →
  Agent.state_dict m h' = sd
  ∧ length h' = length h
  ∧ ∀ l, (∀ name, Agent.entries m !! name ≠ Some l) → h' !! l = h !! l.
Proof.
  intros Hnd Hin. unfold Agent.load_state_dict.
  destruct decide as [Hdom|]; [|discriminate].
  destruct decide; [|discriminate]. intros [= <-].
  split; [|split].
  - apply map_eq. intros name. rewrite state_dict_lookup.
    destruct (Agent.entries m !! name) as [l|] eqn:E; simpl.
    + assert (Hs : is_Some (sd !! name)).
      { apply elem_of_dom. rewrite Hdom. apply elem_of_dom. eauto. }
      destruct Hs as [v Hv]. rewrite Hv.
      apply (copy_named_lookup sd (Agent.entries m) h name l v); eauto.
    + symmetry. apply not_elem_of_dom. rewrite Hdom.
      by apply not_elem_of_dom.
  - apply copy_named_length.
  - intros l Hl. by apply copy_named_other.
Qed.

Section ParameterProperties.
Variable adam_state : Type.
Variable adam : adam_state → nat → list R → list R → list R * adam_state.

Lemma adam_fold_frame (grad : nat → option (list R)) (L : list nat) :
  ∀ hs : list (list R) * adam_state,
    length (foldl (Agent.adam_update adam grad) hs L).1 = length hs.1
    ∧ ∀ l, l ∉ L →
        (foldl (Agent.adam_update adam grad) hs L).1 !! l = hs.1 !! l.
Proof.
  induction L as [|p L IH]; intros hs; simpl; [done|].
  destruct (IH (Agent.adam_update adam grad hs p)) as [Hlen Hoth].
  assert (Hp : length (Agent.adam_update adam grad hs p).1 = length hs.1
               ∧ ∀ l, l ≠ p →
                   (Agent.adam_update adam grad hs p).1 !! l = hs.1 !! l).
  { destruct hs as [h st]. unfold Agent.adam_update.
    destruct (grad p) as [g|]; [|done].
    destruct (h !! p) as [w|]; [|done].
    destruct (adam st p w g) as [w0 st0]. simpl.
    split; [apply length_insert|].
    intros l Hl. by rewrite list_lookup_insert_ne. }
  destruct Hp as [Hplen Hpoth]. split; [congruence|].
  intros l Hl. apply not_elem_of_cons in Hl as [Hne Hl].
  rewrite Hoth by done. by apply Hpoth.
Qed.

Lemma optimizer_step_frame (grad : nat → option (list R))
    (a : Agent.agent adam_state) :
  let a' := Agent.optimizer_step adam grad a in
  Agent.model a' = Agent.model a
  ∧ Agent.model_target a' = Agent.model_target a
  ∧ Agent.optimizer a' = Agent.optimizer a
  ∧ Agent.is_noisy a' = Agent.is_noisy a
  ∧ length (Agent.heap a') = length (Agent.heap a)
  ∧ ∀ l, l ∉ Agent.optimizer a →
      Agent.heap a' !! l = Agent.heap a !! l.
Proof.
  unfold Agent.optimizer_step.
  pose proof (adam_fold_frame grad (Agent.optimizer a)
                (Agent.heap a, Agent.optimizer_state a)) as [Hlen Hoth].
  destruct (foldl _ _ _) as [h st]. simpl in *. done.
Qed.

(** [update] leaves every tensor alone that is neither given to the
    optimizer nor a buffer of [self.model]. *)
Lemma update_frame (s : Agent.step_input) (a a' : Agent.agent adam_state) :
  Agent.update adam s a = inr a' →
  Agent.model a' = Agent.model a
  ∧ Agent.model_target a' = Agent.model_target a
  ∧ Agent.optimizer a' = Agent.optimizer a
  ∧ length (Agent.heap a') = length (Agent.heap a)
  ∧ ∀ l, l ∉ Agent.optimizer a →
      (∀ nm, Agent.buffers (Agent.model a) !! nm ≠ Some l) →
      Agent.heap a' !! l = Agent.heap a !! l.
Proof.
  unfold Agent.update. intros H.
  apply bind_inr in H as (grad & _ & [= <-]).
  destruct (optimizer_step_frame grad a)
    as (E1 & E2 & E3 & E4 & E5 & E6).
  destruct (Agent.is_noisy _);
    [|repeat split; try done; intros; by apply E6].
  unfold Agent.update_noise. simpl.
  rewrite copy_named_length.
  repeat split; try done.
  intros l Hl Hb. rewrite copy_named_other; [by apply E6|].
  by rewrite E1.
Qed.
End ParameterProperties.

Section TargetNetwork.
Variable adam_state : Type.
Variable adam : adam_state → nat → list R → list R → list R * adam_state.

Lemma update_keeps_target (s : Agent.step_input)
    (a a' : Agent.agent adam_state) :
  target_apart a → Agent.update adam s a = inr a' →
  target_apart a' ∧ Agent.target_state a' = Agent.target_state a.
Proof.
  intros (mt & Hmt & Hnd & Hloc) Hu.
  destruct (update_frame _ adam s a a' Hu) as (E1 & E2 & E3 & E4 & E5).
  split.
  - exists mt. rewrite E2, E1, E3, E4. done.
  - unfold Agent.target_state. rewrite E2, Hmt. simpl. f_equal.
    apply state_dict_ext. intros name l Hl.
    destruct (Hloc name l Hl) as (_ & Hopt & Hmod).
    apply E5; [done|]. intros nm. apply Hmod.
Qed.

Lemma sync_spec (a a' : Agent.agent adam_state) :
  target_apart a → Agent.sync a = inr a' →
  target_apart a'
  ∧ Agent.target_state a'
    = Some (Agent.state_dict (Agent.model a) (Agent.heap a))
  ∧ Agent.state_dict (Agent.model a') (Agent.heap a')
    = Agent.state_dict (Agent.model a) (Agent.heap a).
Proof.
  intros (mt & Hmt & Hnd & Hloc). unfold Agent.sync. rewrite Hmt.
  intros H. apply bind_inr in H as (h & Hh & [= <-]).
  apply load_state_dict_spec in Hh as (Hsd & Hlen & Hoth);
    [|done|intros name l Hl; by destruct (Hloc name l Hl)].
  split; [|split].
  - exists mt. simpl. rewrite Hlen. done.
  - unfold Agent.target_state. simpl. rewrite Hmt. simpl. by rewrite Hsd.
  - simpl. apply state_dict_ext. intros nm l Hl. apply Hoth.
    intros name Hname. destruct (Hloc name l Hname) as (_ & _ & Hmod).
    destruct (Hmod nm) as [Hp Hb].
    apply entries_lookup in Hl as [Hl|Hl]; [by apply Hp|by apply Hb].
Qed.

Lemma step_keeps_target (i : nat) (s : Agent.step_input)
    (a : Agent.agent adam_state) (synced : gmap string (list R)) :
  target_apart a → Agent.target_state a = Some synced →
  target_apart (Agent.step adam i s a synced).1.1
  ∧ Agent.target_state (Agent.step adam i s a synced).1.1
    = Some (Agent.step adam i s a synced).1.2.
Proof.
  intros Ha Ht. unfold Agent.step.
  destruct (Agent.update adam s a) as [e|a1] eqn:Hu; [done|].
  destruct (update_keeps_target _ _ _ Ha Hu) as [Ha1 Ht1].
  destruct (_ && _); [|simpl; split; [done|congruence]].
  destruct (Agent.sync a1) as [e|a2] eqn:Hs;
    [simpl; split; [done|congruence]|].
  destruct (sync_spec _ _ Ha1 Hs) as (Ha2 & Ht2 & _). done.
Qed.

Lemma while_keeps_target (i : nat) (steps : list Agent.step_input) :
  ∀ (a : Agent.agent adam_state) (synced : gmap string (list R)),
    target_apart a → Agent.target_state a = Some synced →
    target_apart (Agent.while_not_done_params adam i steps a synced).1.1
    ∧ Agent.target_state
        (Agent.while_not_done_params adam i steps a synced).1.1
      = Some (Agent.while_not_done_params adam i steps a synced).1.2.
Proof.
  induction steps as [|s steps IH]; intros a synced Ha Ht; [done|].
  cbn [Agent.while_not_done_params].
  pose proof (step_keeps_target i s a synced Ha Ht) as Hs.
  destruct (Agent.step adam i s a synced) as [[a1 synced1] [e|]];
    [done|].
  simpl in Hs. destruct Hs. by apply IH.
Qed.

Lemma for_keeps_target (episodes : list Agent.episode) :
  ∀ (i : nat) (a : Agent.agent adam_state)
    (synced : gmap string (list R)),
    target_apart a → Agent.target_state a = Some synced →
    target_apart (Agent.for_episodes_params adam i episodes a synced).1.1
    ∧ Agent.target_state
        (Agent.for_episodes_params adam i episodes a synced).1.1
      = Some (Agent.for_episodes_params adam i episodes a synced).1.2.
Proof.
  induction episodes as [|ep episodes IH]; intros i a synced Ha Ht;
    [done|].
  cbn [Agent.for_episodes_params].
  pose proof (while_keeps_target i (Agent.steps ep) a synced Ha Ht) as Hw.
  destruct (Agent.while_not_done_params adam i (Agent.steps ep) a synced)
    as [[a1 synced1] [e|]]; [done|].
  simpl in Hw. destruct Hw.
  destruct (Agent.replays ep); [done|]. by apply IH.
Qed.
End TargetNetwork.

Lemma list_to_map_zip_range (names : list string) (base n : nat)
    (nm : string) (l : nat) :
  (list_to_map (zip names (seq base n)) : gmap string nat) !! nm = Some l →
  (base ≤ l < base + n)%nat.
Proof.
  intros H. apply elem_of_list_to_map_2, elem_of_zip_r, elem_of_seq in H.
  lia.
Qed.

Lemma DQN_names_NoDup : NoDup Agent.DQN_names.
Proof. refine (bool_decide_unpack _ _). vm_compute. exact I. Qed.

Lemma new_module_spec (param_init buffer_init : list (string * list R))
    (h : list (list R)) (m : Agent.module) (h' : list (list R)) :
  Agent.new_module param_init buffer_init h = (m, h') →
  length h' = (length h + length param_init + length buffer_init)%nat
  ∧ (∀ l, (l < length h)%nat → h' !! l = h !! l)
  ∧ (∀ nm l, Agent.params m !! nm = Some l →
       (length h ≤ l < length h + length param_init)%nat)
  ∧ (∀ nm l, Agent.buffers m !! nm = Some l →
       (length h + length param_init ≤ l
        < length h + length param_init + length buffer_init)%nat)
  ∧ (NoDup param_init.*1 → buffer_init = [] →
     NoDup (map_to_list (Agent.entries m)).*2).
Proof.
  unfold Agent.new_module. intros [= <- <-]. simpl.
  split; [|split; [|split; [|split]]].
  - rewrite !length_app, !length_fmap. lia.
  - intros l Hl. by rewrite lookup_app_l.
  - intros nm l Hl. by apply list_to_map_zip_range in Hl.
  - intros nm l Hl. by apply list_to_map_zip_range in Hl.
  - intros Hnd ->. unfold Agent.entries. simpl.
    rewrite (right_id_L ∅ (∪)).
    assert (Hfst : (zip param_init.*1
                      (seq (length h) (length param_init))).*1
                   = param_init.*1).
    { apply fst_zip. rewrite length_seq, length_fmap. done. }
    rewrite map_to_list_to_map by (by rewrite Hfst).
    rewrite snd_zip by (rewrite length_seq, length_fmap; done).
    apply NoDup_seq.
Qed.

Lemma init_target {S : Type}
    (param_init buffer_init : list (string * list R))
    (target_init : string → list R) (is_noisy : bool) (st : S)
    (a0 : Agent.agent S) :
  Agent.init param_init buffer_init target_init true is_noisy st = inr a0 →
  target_apart a0
  ∧ Agent.target_state a0
    = Some (Agent.state_dict (Agent.model a0) (Agent.heap a0)).
Proof.
  unfold Agent.init.
  destruct (Agent.new_module param_init buffer_init [])
    as [model h1] eqn:E1.
  destruct (Agent.new_module _ [] h1) as [mt h2] eqn:E2.
  intros H. apply bind_inr in H as ([mt' h] & H & [= <-]).
  apply bind_inr in H as (h' & Hload & [= <- <-]).
  apply new_module_spec in E1 as (L1 & _ & P1 & B1 & _).
  apply new_module_spec in E2 as (L2 & K2 & P2 & B2 & N2).
  simpl in L1, B1.
  assert (Hnd : NoDup (map_to_list (Agent.entries mt)).*2).
  { apply N2; [|done]. exact DQN_names_NoDup. }
  assert (Hin : ∀ name l, Agent.entries mt !! name = Some l →
                  (length h1 ≤ l < length h2)%nat).
  { intros name l Hl. apply entries_lookup in Hl as [Hl|Hl].
    - apply P2 in Hl. lia.
    - apply B2 in Hl. simpl in Hl. lia. }
  assert (Hmod : ∀ nm l, Agent.entries model !! nm = Some l →
                   (l < length h1)%nat).
  { intros nm l Hl. apply entries_lookup in Hl as [Hl|Hl].
    - apply P1 in Hl. simpl in Hl. lia.
    - apply B1 in Hl. lia. }
  apply load_state_dict_spec in Hload as (Hsd & Hlen & Hoth);
    [|done|intros name l Hl; apply Hin in Hl; lia].
  split.
  - exists mt. simpl. split; [done|]. split; [done|].
    intros name l Hl. apply Hin in Hl. split; [lia|]. split.
    + unfold Agent.parameters. intros Hopt.
      apply list_elem_of_fmap in Hopt as ([nm l'] & -> & Hopt).
      apply elem_of_map_to_list, P1 in Hopt. simpl in *. lia.
    + intros nm. split; intros Hc.
      * apply P1 in Hc. simpl in Hc. lia.
      * apply B1 in Hc. lia.
  - unfold Agent.target_state. simpl. f_equal. rewrite Hsd.
    symmetry. apply state_dict_ext. intros nm l Hl. apply Hoth.
    intros name Hname. apply Hin in Hname. apply Hmod in Hl. lia.
Qed.

(** C9. For an agent built with double-DQN, at every point of a run of
    [train]: the state of the target network is the state that the online
    network had at the latest [load_state_dict] (the one of [__init__] or
    of a sync); no call of [update] changes it, whatever the gradients;
    and a sync leaves it equal to the state of the online network. *)
Theorem target_network_changes_only_by_sync {S : Type}
    (adam : S → nat → list R → list R → list R * S)
    (param_init buffer_init : list (string * list R))
    (target_init : string → list R) (is_noisy : bool) (st : S)
    (a0 : Agent.agent S) :
  Agent.init param_init buffer_init target_init true is_noisy st = inr a0 →
  ∀ episodes,
    let a := (Agent.train_params adam episodes a0).1.1 in
    let synced := (Agent.train_params adam episodes a0).1.2 in
    Agent.target_state a = Some synced
    ∧ (∀ s a', Agent.update adam s a = inr a' →
         Agent.target_state a' = Agent.target_state a)
    ∧ (∀ a', Agent.sync a = inr a' →
         Agent.target_state a'
         = Some (Agent.state_dict (Agent.model a') (Agent.heap a'))).
Proof.
  intros Hinit episodes. apply init_target in Hinit as [Ha0 Ht0].
  unfold Agent.train_params.
  destruct (for_keeps_target S adam episodes 0 a0 _ Ha0 Ht0) as [Ha Ht].
  cbv zeta. split; [exact Ht|]. split.
  - intros s a' Hu. by destruct (update_keeps_target S adam s _ _ Ha Hu).
  - intros a' Hs. destruct (sync_spec S _ _ Ha Hs) as (_ & Hts & Hm).
    by rewrite Hts, Hm.
Qed.

(** The theorem of C9 on a one-unit [DQN] whose six tensors start at
    [[0]], a target network whose tensors start at [[1]], and an optimizer
    that subtracts the gradient. *)
Lemma target_network_changes_only_by_sync_witness :
  ∃ a0 : Agent.agent unit,
    Agent.init (map (λ n, (n, [0])) Agent.DQN_names) [] (λ _, [1])
      true false tt = inr a0
    ∧ ∀ episodes,
        let adam := λ (st : unit) (l : nat) (w g : list R),
                      (zip_with Rminus w g, st) in
        let a := (Agent.train_params adam episodes a0).1.1 in
        let synced := (Agent.train_params adam episodes a0).1.2 in
        Agent.target_state a = Some synced
        ∧ (∀ s a', Agent.update adam s a = inr a' →
             Agent.target_state a' = Agent.target_state a)
        ∧ (∀ a', Agent.sync a = inr a' →
             Agent.target_state a'
             = Some (Agent.state_dict (Agent.model a') (Agent.heap a'))).
Proof.
  destruct (Agent.init (map (λ n, (n, [0])) Agent.DQN_names) []
              (λ _, [1]) true false tt) as [e|a0] eqn:E.
  { vm_compute in E. discriminate E. }
  exists a0. split; [reflexivity|]. intros episodes.
  exact (target_network_changes_only_by_sync _ _ _ _ _ _ a0 E episodes).
Defined.

(** One [update] on the agent of the witness, with gradient [[1]] for
    every tensor, those of the target network included: the tensor
    [layers.0.weight] of the online network goes from [[0]] to [[0 - 1]],
    the one of the target network stays [[0]]. *)
Example update_trains_online_network_only :
  ∃ a0 a1 : Agent.agent unit,
    Agent.init (map (λ n, (n, [0])) Agent.DQN_names) [] (λ _, [1])
      true false tt = inr a0
    ∧ Agent.update (λ st l w g, (zip_with Rminus w g, st))
        {| Agent.backward := inr (λ _, Some [1]); Agent.noise := ∅ |} a0
      = inr a1
    ∧ Agent.state_dict (Agent.model a1) (Agent.heap a1)
      !! "layers.0.weight"%string = Some [0 - 1]
    ∧ Agent.target_state a1 ≫= (.!! "layers.0.weight"%string) = Some [0].
Proof.
  eexists _, _. split; [vm_compute; reflexivity|].
  split; [vm_compute; reflexivity|]. split; vm_compute; reflexivity.
Qed.

(** Two episodes of one step each on the same agent. Episode 0 copies
    after its update ([0 % 20 = 0]), episode 1 does not: at the end the
    online tensor has been trained twice and the target tensor holds the
    value copied in episode 0. *)
Example train_two_episodes :
  ∃ a0 : Agent.agent unit,
    Agent.init (map (λ n, (n, [0])) Agent.DQN_names) [] (λ _, [1])
      true false tt = inr a0
    ∧ let s := {| Agent.backward := inr (λ _, Some [1]);
                  Agent.noise := ∅ |} in
      let ep := {| Agent.steps := [s]; Agent.replays := false |} in
      let r := Agent.train_params (λ st l w g, (zip_with Rminus w g, st))
                 [ep; ep] a0 in
      r.2 = None
      ∧ Agent.state_dict (Agent.model r.1.1) (Agent.heap r.1.1)
        !! "layers.0.weight"%string = Some [0 - 1 - 1]
      ∧ Agent.target_state r.1.1 ≫= (.!! "layers.0.weight"%string)
        = Some [0 - 1]
      ∧ r.1.2 !! "layers.0.weight"%string = Some [0 - 1].
Proof.
  eexists. split; [vm_compute; reflexivity|].
  cbv zeta. split; [vm_compute; reflexivity|].
  split; [vm_compute; reflexivity|]. split; vm_compute; reflexivity.
Qed.

(** * Further properties of rainbow/models.py *)

(** ** LegalSoftmax.forward: errors, rows, masks *)

Lemma actions_tensor_raises (x : list (list R)) :
  ∀ pm e, LegalSoftmax.actions_tensor x pm = inl e → e = IndexError.
Proof.
  induction x as [|row x IH]; intros pm e; simpl; [discriminate|].
  destruct pm as [|legal pm]; [by intros [= <-]|].
  unfold LegalSoftmax.mark at 1.
  destruct (forallb _ legal); simpl; [|by intros [= <-]].
  destruct (LegalSoftmax.actions_tensor x pm) as [e'|rest] eqn:E;
    simpl; [|discriminate].
  intros [= <-]. by eapply IH.
Qed.

Lemma forward_valid (x : list (list R)) (pm : list (list nat))
    (out : list (list R)) :
  LegalSoftmax.forward x pm = inr out → valid_moves x pm.
Proof.
  unfold LegalSoftmax.forward. intros H.
  apply bind_inr in H as (acts & Hacts & _).
  destruct (actions_tensor_rows _ _ _ Hacts) as [_ Hrows]. split.
  - destruct (decide (length x ≤ length pm)%nat) as [|Hn]; [done|].
    destruct (lookup_lt_is_Some_2 x (length pm)) as [row Hrow]; [lia|].
    destruct (Hrows _ _ Hrow) as (legal & a & Hpm & _).
    apply lookup_lt_Some in Hpm. lia.
  - intros i row legal Hrow Hpm.
    destruct (Hrows _ _ Hrow) as (legal' & a & Hpm' & _ & Hm).
    assert (legal' = legal) as -> by congruence.
    by eapply mark_in_range.
Qed.

(** X1. [forward] returns exactly on the valid masks (a list of legal
    actions for every row, every action an index of the row); on every
    other mask it raises [IndexError]. *)
Theorem LegalSoftmax_forward_returns_iff_valid
    (x : list (list R)) (pm : list (list nat)) :
  (valid_moves x pm ↔ ∃ out, LegalSoftmax.forward x pm = inr out)
  ∧ (¬ valid_moves x pm → LegalSoftmax.forward x pm = inl IndexError).
Proof.
  split; [split|].
  - intros Hv. destruct (forward_returns x pm Hv) as (out & Hf & _). eauto.
  - intros [out Hf]. by eapply forward_valid.
  - intros Hn. destruct (LegalSoftmax.forward x pm) as [e|out] eqn:Hf.
    + f_equal. unfold LegalSoftmax.forward in Hf.
      destruct (LegalSoftmax.actions_tensor x pm) as [e'|acts] eqn:Ha;
        simpl in Hf; [|discriminate].
      injection Hf as <-. by eapply actions_tensor_raises.
    + exfalso. apply Hn. by eapply forward_valid.
Qed.

(** The theorem of X1 on a mask that is too short and on a mask with an
    action outside the row. *)
Lemma LegalSoftmax_forward_returns_iff_valid_witness :
  LegalSoftmax.forward [[1; 2]; [3; 4]] [[0%nat]] = inl IndexError
  ∧ LegalSoftmax.forward [[1; 2]] [[2%nat]] = inl IndexError.
Proof.
  split.
  - apply (proj2 (LegalSoftmax_forward_returns_iff_valid
                    [[1; 2]; [3; 4]] [[0%nat]])).
    intros [Hlen _]. simpl in Hlen. lia.
  - apply (proj2 (LegalSoftmax_forward_returns_iff_valid
                    [[1; 2]] [[2%nat]])).
    intros [_ Hrows].
    specialize (Hrows 0%nat [1; 2] [2%nat] eq_refl eq_refl).
    apply Forall_inv in Hrows. simpl in Hrows. lia.
Defined.

Lemma forward_row_distribution (x : list (list R)) (pm : list (list nat))
    (out : list (list R)) (i : nat) (row outrow : list R) :
  LegalSoftmax.forward x pm = inr out →
  x !! i = Some row → out !! i = Some outrow →
  length outrow = length row
  ∧ Forall (λ p, 0 < p) outrow
  ∧ (row ≠ [] → Rsum outrow = 1).
Proof.
  intros Hf Hrow Hout.
  destruct (forward_rows _ _ _ _ _ Hf Hrow)
    as (legal & actions & _ & Hm & Hout').
  assert (outrow = softmax (LegalSoftmax.filter_row row actions))
    as -> by congruence.
  assert (Hlen : length (LegalSoftmax.filter_row row actions) = length row)
    by (apply length_filter_row; by apply mark_lookup in Hm as [? _]).
  split; [by rewrite length_softmax|]. split; [apply softmax_pos|].
  intros Hne. apply softmax_sum. intros Hnil.
  rewrite Hnil in Hlen. destruct row; [done|discriminate].
Qed.

Lemma forward_row_probabilities (x : list (list R)) (pm : list (list nat))
    (out : list (list R)) (i : nat) (row outrow : list R) :
  LegalSoftmax.forward x pm = inr out →
  x !! i = Some row → out !! i = Some outrow →
  length outrow = length row
  ∧ Forall (λ p, 0 <= p <= 1) outrow
  ∧ (row ≠ [] → Rsum outrow = 1).
Proof.
  intros Hf Hrow Hout.
  destruct (forward_row_distribution x pm out i row outrow Hf Hrow Hout)
    as (Hlen & Hpos & Hsum).
  split; [done|]. split; [|done].
  assert (Hnn : Forall (λ p, 0 <= p) outrow).
  { eapply Forall_impl; [exact Hpos|]. intros p Hp. simpl in Hp. lra. }
  apply Forall_lookup. intros k p Hk. rewrite Forall_lookup in Hpos.
  split; [left; by eapply Hpos|].
  rewrite <- Hsum.
  - by apply (entry_le_sum outrow Hnn k).
  - intros ->. destruct outrow; [|done]. by rewrite lookup_nil in Hk.
Qed.

(** X2. On a valid mask, [LegalSoftmax.forward] and the convolutional
    network built on it return one row for each row of the batch, and
    every row is a probability distribution over the actions of the row:
    as many entries, each between 0 and 1, summing to 1. *)
Theorem LegalSoftmax_rows_are_distributions :
  (∀ (x : list (list R)) (pm : list (list nat)),
     valid_moves x pm →
     ∃ out,
       LegalSoftmax.forward x pm = inr out
       ∧ length out = length x
       ∧ ∀ i row outrow,
           x !! i = Some row → out !! i = Some outrow →
           length outrow = length row
           ∧ Forall (λ p, 0 <= p <= 1) outrow
           ∧ (row ≠ [] → Rsum outrow = 1))
  ∧ (∀ (layers : list (list R) → list R) (rectify : list R → list R)
       (x : list (list (list R))) (pm : list (list nat)),
       valid_moves (map rectify (map layers x)) pm →
       ∃ out,
         DQNConv.forward layers rectify x pm = inr out
         ∧ length out = length x
         ∧ ∀ i image outrow,
             x !! i = Some image → out !! i = Some outrow →
             length outrow = length (rectify (layers image))
             ∧ Forall (λ p, 0 <= p <= 1) outrow
             ∧ (rectify (layers image) ≠ [] → Rsum outrow = 1)).
Proof.
  split.
  - intros x pm Hv. destruct (forward_returns x pm Hv) as (out & Hf & Hlen).
    exists out. split; [done|]. split; [done|].
    intros i row outrow. by apply (forward_row_probabilities x pm).
  - intros layers rectify x pm Hv.
    destruct (forward_returns _ pm Hv) as (out & Hf & Hlen).
    exists out. split; [done|]. split; [by rewrite Hlen, !length_map|].
    intros i image outrow Himg Hout.
    apply (forward_row_probabilities (map rectify (map layers x)) pm out
             i); [done| |done].
    by rewrite !list_lookup_fmap, Himg.
Qed.

(** The theorem of X2 on one row of two actions and on one image. *)
Lemma LegalSoftmax_rows_are_distributions_witness :
  (∃ out,
     LegalSoftmax.forward [[5; 3]] [[1%nat]] = inr out
     ∧ length out = length [[5; 3]])
  ∧ (∃ out,
       DQNConv.forward (λ _, [1]) (λ _, [5; 3]) [[[1]]] [[1%nat]] = inr out
       ∧ length out = length [[[1]]]).
Proof.
  assert (Hv : valid_moves [[5; 3]] [[1%nat]]).
  { apply valid_moves_one_row. repeat constructor. }
  split.
  - destruct (proj1 LegalSoftmax_rows_are_distributions [[5; 3]]
                [[1%nat]] Hv) as (out & Hf & Hlen & _).
    by exists out.
  - destruct (proj2 LegalSoftmax_rows_are_distributions (λ _, [1])
                (λ _, [5; 3]) [[[1]]] [[1%nat]] Hv)
      as (out & Hf & Hlen & _).
    by exists out.
Defined.

Lemma all_lookup_repeat {A} (c : A) (l : list A) :
  (∀ k, (k < length l)%nat → l !! k = Some c) → l = repeat c (length l).
Proof.
  induction l as [|a l IH]; intros H; [done|]. simpl. f_equal.
  - specialize (H 0%nat ltac:(simpl; lia)). by injection H.
  - apply IH. intros k Hk. apply (H (S k)). simpl. lia.
Qed.

Lemma softmax_repeat (c : R) (n : nat) :
  n ≠ 0%nat → softmax (repeat c n) = repeat (1 / INR n) n.
Proof.
  intros Hn. unfold softmax.
  rewrite !map_repeat, Rsum_repeat. f_equal.
  pose proof (exp_pos c). assert (0 < INR n) by (apply lt_0_INR; lia).
  field. split; lra.
Qed.

(** X3. In a row where no legal action has a score other than 0, and so
    in a row with no legal action at all, every entry is overwritten by
    the sentinel and the output is uniform: each action, legal or not,
    gets [1 / n]. *)
Theorem LegalSoftmax_uniform_without_scored_legal_action
    (x : list (list R)) (pm : list (list nat)) (out : list (list R))
    (i : nat) (row : list R) (legal : list nat) :
  LegalSoftmax.forward x pm = inr out →
  x !! i = Some row → pm !! i = Some legal →
  row ≠ [] →
  (∀ j, j ∈ legal → row !! j = Some 0) →
  out !! i = Some (repeat (1 / INR (length row)) (length row)).
Proof.
  intros Hf Hrow Hpm Hne Hz.
  destruct (forward_rows _ _ _ _ _ Hf Hrow)
    as (legal' & actions & Hpm' & Hm & Hout).
  assert (legal' = legal) as -> by congruence.
  rewrite Hout. f_equal.
  assert (Hlen : length (LegalSoftmax.filter_row row actions) = length row)
    by (apply length_filter_row; by apply mark_lookup in Hm as [? _]).
  rewrite (all_lookup_repeat LegalSoftmax.sentinel
             (LegalSoftmax.filter_row row actions)).
  - rewrite Hlen. apply softmax_repeat. by destruct row.
  - rewrite Hlen. intros k Hk.
    destruct (decide (k ∈ legal)) as [Hin|Hin].
    + rewrite (filter_row_legal _ _ _ _ _ Hm Hin (Hz k Hin)).
      destruct Req_dec_T; [done|lra].
    + by apply (filter_row_illegal _ legal).
Qed.

(** The theorem of X3 on a row of three actions with no legal action. *)
Lemma LegalSoftmax_uniform_without_scored_legal_action_witness :
  ∃ out,
    LegalSoftmax.forward [[5; 0; 7]] [[]] = inr out
    ∧ out !! 0%nat = Some (repeat (1 / INR 3) 3).
Proof.
  eassert (Hf : LegalSoftmax.forward [[5; 0; 7]] [[]] = inr _)
    by reflexivity.
  eexists. split; [exact Hf|].
  apply (LegalSoftmax_uniform_without_scored_legal_action _ _ _ 0
           [5; 0; 7] [] Hf); try done.
  intros j Hj. by apply elem_of_nil in Hj.
Defined.

Lemma mark_ext (legal legal' : list nat) (n : nat) :
  (∀ j, j ∈ legal ↔ j ∈ legal') →
  LegalSoftmax.mark legal n = LegalSoftmax.mark legal' n.
Proof.
  intros Hs. unfold LegalSoftmax.mark.
  assert (Hb : forallb (λ j, (j <? n)%nat) legal
               = forallb (λ j, (j <? n)%nat) legal').
  { apply eq_true_iff_eq. rewrite !forallb_forall. split; intros H j Hj.
    - apply H, list_elem_of_In, Hs, list_elem_of_In, Hj.
    - apply H, list_elem_of_In, Hs, list_elem_of_In, Hj. }
  rewrite Hb. destruct (forallb _ legal'); [|done]. unfold ret. f_equal.
  apply list_eq. intros k. rewrite !mark_fold_lookup.
  destruct (decide (k ∈ legal ∧ (k < length (zeros n))%nat)) as [[H1 H2]|H];
    destruct (decide (k ∈ legal' ∧ (k < length (zeros n))%nat))
      as [[H1' H2']|H']; try done.
  - exfalso. apply H'. split; [by apply Hs|done].
  - exfalso. apply H. split; [by apply Hs|done].
Qed.

(** X4. The mask of a row is used as a set: two masks that list the same
    legal actions for every row, in whatever order and with whatever
    repetitions, give the same result, exception included. *)
Theorem LegalSoftmax_mask_is_a_set
    (x : list (list R)) (pm pm' : list (list nat)) :
  Forall2 (λ legal legal', ∀ j, j ∈ legal ↔ j ∈ legal') pm pm' →
  LegalSoftmax.forward x pm = LegalSoftmax.forward x pm'.
Proof.
  intros Hpm. unfold LegalSoftmax.forward.
  assert (Ha : LegalSoftmax.actions_tensor x pm
               = LegalSoftmax.actions_tensor x pm'); [|by rewrite Ha].
  revert x. induction Hpm as [|legal legal' pm pm' Hs _ IH]; intros x.
  - done.
  - destruct x as [|row x]; [done|]. simpl.
    by rewrite (mark_ext legal legal' _ Hs), IH.
Qed.

(** The theorem of X4 on the masks [0, 1, 1] and [1, 0]. *)
Lemma LegalSoftmax_mask_is_a_set_witness :
  LegalSoftmax.forward [[5; 3; 2]] [[0; 1; 1]%nat]
  = LegalSoftmax.forward [[5; 3; 2]] [[1; 0]%nat].
Proof.
  apply LegalSoftmax_mask_is_a_set. constructor; [|constructor].
  intros j. rewrite !elem_of_cons, !elem_of_nil. tauto.
Defined.

(** X5. In a row of the output, two legal actions whose scores are not 0
    are ordered as their scores are, and such a legal action has more
    probability than an action outside the mask exactly when its score
    is above the sentinel -1000. *)
Theorem LegalSoftmax_keeps_order_of_legal_scores
    (x : list (list R)) (pm : list (list nat)) (out : list (list R))
    (i : nat) (row : list R) (legal : list nat) (outrow : list R)
    (j k : nat) (sj sk : R) :
  LegalSoftmax.forward x pm = inr out →
  x !! i = Some row → pm !! i = Some legal → out !! i = Some outrow →
  j ∈ legal → row !! j = Some sj → sj ≠ 0 →
  k ∈ legal → row !! k = Some sk → sk ≠ 0 →
  ∃ pj pk,
    outrow !! j = Some pj ∧ outrow !! k = Some pk
    ∧ (pj <= pk ↔ sj <= sk)
    ∧ ∀ a pa, a ∉ legal → outrow !! a = Some pa →
        (pa < pj ↔ LegalSoftmax.sentinel < sj).
Proof.
  intros Hf Hrow Hpm Hout Hj Hsj Hsj0 Hk Hsk Hsk0.
  destruct (forward_rows _ _ _ _ _ Hf Hrow)
    as (legal' & actions & Hpm' & Hm & Hout').
  assert (legal' = legal) as -> by congruence.
  assert (outrow = softmax (LegalSoftmax.filter_row row actions))
    as -> by congruence.
  set (F := LegalSoftmax.filter_row row actions).
  pose proof (filter_row_legal _ _ _ _ _ Hm Hj Hsj) as Hfj.
  pose proof (filter_row_legal _ _ _ _ _ Hm Hk Hsk) as Hfk.
  destruct (Req_dec_T sj 0) as [|_]; [done|].
  destruct (Req_dec_T sk 0) as [|_]; [done|]. fold F in Hfj, Hfk.
  assert (HS : 0 < Rsum (map exp F)).
  { apply Rsum_exp_pos. intros HF. by rewrite HF in Hfj. }
  assert (Hmono : ∀ u v, exp u / Rsum (map exp F) <= exp v / Rsum (map exp F)
                         ↔ u <= v).
  { intros u v. split; intros H.
    - destruct (Rle_lt_dec u v) as [|Hlt]; [done|exfalso].
      apply exp_increasing in Hlt.
      apply (Rmult_le_compat_r (Rsum (map exp F))) in H; [|lra].
      unfold Rdiv in H. rewrite !Rmult_assoc, Rinv_l in H by lra. lra.
    - unfold Rdiv. apply Rmult_le_compat_r;
        [left; by apply Rinv_0_lt_compat|].
      destruct H as [H| ->]; [left; by apply exp_increasing|lra]. }
  exists (exp sj / Rsum (map exp F)), (exp sk / Rsum (map exp F)).
  split; [by rewrite softmax_lookup, Hfj|].
  split; [by rewrite softmax_lookup, Hfk|].
  split; [apply Hmono|].
  intros a pa Ha Hpa. rewrite softmax_lookup in Hpa.
  destruct (F !! a) as [fa|] eqn:Hfa; [|done].
  assert (Hlt : (a < length row)%nat).
  { apply lookup_lt_Some in Hfa. unfold F in Hfa.
    rewrite length_filter_row in Hfa
      by (by apply mark_lookup in Hm as [? _]). done. }
  pose proof (filter_row_illegal _ _ _ _ Hm Hlt Ha) as Hfa'.
  fold F in Hfa'. rewrite Hfa in Hfa'. simplify_eq/=.
  pose proof (Hmono sj LegalSoftmax.sentinel) as Hms. split.
  - intros H. destruct (Rle_lt_dec sj LegalSoftmax.sentinel) as [Hle|];
      [|done].
    apply Hms in Hle. lra.
  - intros H. destruct (Rlt_le_dec
                          (exp LegalSoftmax.sentinel / Rsum (map exp F))
                          (exp sj / Rsum (map exp F))) as [|Hle]; [done|].
    apply Hms in Hle. lra.
Qed.

(** The theorem of X5 on the row [5, 3, 2] with actions 1 and 2 legal. *)
Lemma LegalSoftmax_keeps_order_of_legal_scores_witness :
  ∃ out outrow pj pk,
    LegalSoftmax.forward [[5; 3; 2]] [[1; 2]%nat] = inr out
    ∧ out !! 0%nat = Some outrow
    ∧ outrow !! 1%nat = Some pj ∧ outrow !! 2%nat = Some pk
    ∧ (pj <= pk ↔ 3 <= 2).
Proof.
  eassert (Hf : LegalSoftmax.forward [[5; 3; 2]] [[1; 2]%nat] = inr [_])
    by reflexivity.
  match type of Hf with
  | _ = inr [?r] =>
      destruct (LegalSoftmax_keeps_order_of_legal_scores _ _ _ 0 [5; 3; 2]
                  [1; 2]%nat r 1 2 3 2 Hf)
        as (pj & pk & Hpj & Hpk & Hord & _); try done; try lra;
      [rewrite !elem_of_cons; tauto|rewrite !elem_of_cons; tauto|];
      exists [r], r, pj, pk
  end.
  split; [exact Hf|]. split; [done|]. done.
Defined.

(** ** DuelingNetwork.forward: the value is the mean of the row *)

Lemma Rsum_map_add (c : R) (l : list R) :
  Rsum (map (λ a, a + c) l) = Rsum l + INR (length l) * c.
Proof.
  induction l as [|a l IH]; simpl map; simpl length.
  - rewrite !Rsum_nil. simpl. lra.
  - rewrite !Rsum_cons, IH, S_INR. lra.
Qed.

Lemma Rsum_concat_ones (ls : list (list R)) :
  Forall (λ l, Rsum l = 1) ls → Rsum (concat ls) = INR (length ls).
Proof.
  induction 1 as [|l ls Hl _ IH]; [reflexivity|].
  cbn [concat length]. rewrite Rsum_app, Hl, IH, S_INR. lra.
Qed.

Lemma masked_advantage_mean (x : list (list R)) (pm : list (list nat))
    (advantage : list (list R)) (n : nat) :
  LegalSoftmax.forward x pm = inr advantage →
  Forall (λ row, length row = n) x → n ≠ 0%nat → x ≠ [] →
  mean2 advantage = 1 / INR n
  ∧ Forall (λ adv, length adv = n ∧ Rsum adv = 1) advantage.
Proof.
  intros Hf Hx Hn Hne.
  assert (Hrows : Forall (λ adv, length adv = n ∧ Rsum adv = 1) advantage).
  { apply Forall_lookup. intros i adv Hadv.
    assert (Hi : is_Some (x !! i)).
    { apply lookup_lt_is_Some. apply lookup_lt_Some in Hadv.
      unfold LegalSoftmax.forward in Hf.
      apply bind_inr in Hf as (acts & Hacts & [= <-]).
      rewrite length_map, length_zip_with in Hadv. lia. }
    destruct Hi as [row Hrow].
    destruct (forward_row_distribution _ _ _ _ _ _ Hf Hrow Hadv)
      as (Hl & _ & Hs).
    rewrite Forall_lookup in Hx. specialize (Hx i row Hrow).
    split; [congruence|]. apply Hs. intros ->. simpl in Hx. lia. }
  split; [|done]. unfold mean2.
  rewrite (length_concat_uniform n)
    by (eapply Forall_impl; [exact Hrows|]; by intros ? [? _]).
  rewrite Rsum_concat_ones
    by (eapply Forall_impl; [exact Hrows|]; by intros ? [_ ?]).
  assert (Hlen : length advantage = length x).
  { unfold LegalSoftmax.forward in Hf.
    apply bind_inr in Hf as (acts & Hacts & [= <-]).
    apply actions_tensor_rows in Hacts as [Hl _].
    rewrite length_map, length_zip_with. lia. }
  assert (0 < INR (length advantage)).
  { apply lt_0_INR. rewrite Hlen. destruct x; [done|simpl; lia]. }
  assert (0 < INR n) by (apply lt_0_INR; lia).
  rewrite mult_INR. field. split; lra.
Qed.

(** X6. When the advantage head has [n > 0] outputs and the batch is not
    empty, the mean that [forward] subtracts is [1 / n], since every row
    of the masked advantage is a distribution; every output row then has
    [n] entries whose mean is the output of the value head for that
    state. *)
Theorem DuelingNetwork_row_mean_is_value
    (input_layer advantage_layer : list R → list R)
    (value_layer : list R → R) (n : nat)
    (x : list (list R)) (pm : list (list nat)) (out : list (list R)) :
  (∀ s, length (advantage_layer s) = n) → n ≠ 0%nat → x ≠ [] →
  DuelingNetwork.forward input_layer advantage_layer value_layer x pm
  = inr out →
  length out = length x
  ∧ ∀ i s q,
      x !! i = Some s → out !! i = Some q →
      length q = n
      ∧ Rsum q / INR n = value_layer (input_layer s).
Proof.
  intros Hlen Hn Hne. unfold DuelingNetwork.forward. intros H.
  apply bind_inr in H as (advantage & Hadv & [= <-]).
  destruct (masked_advantage_mean _ _ _ n Hadv) as [Hmean Hrows].
  { apply Forall_forall. intros row Hrow.
    apply list_elem_of_In, in_map_iff in Hrow as (s & <- & _). apply Hlen. }
  { done. }
  { by destruct x. }
  assert (Hla : length advantage = length x).
  { unfold LegalSoftmax.forward in Hadv.
    apply bind_inr in Hadv as (acts & Hacts & [= <-]).
    apply actions_tensor_rows in Hacts as [Hl _].
    rewrite length_map, length_zip_with, !length_map in *. lia. }
  split.
  { unfold DuelingNetwork.value_plus_advantage.
    rewrite length_map, length_zip_with, !length_map. lia. }
  intros i s q Hs Hq. rewrite list_lookup_fmap in Hq.
  unfold DuelingNetwork.value_plus_advantage in Hq.
  rewrite lookup_zip_with, !list_lookup_fmap, Hs in Hq.
  destruct (advantage !! i) as [adv|] eqn:Hai; [|done].
  simplify_eq/=.
  rewrite Forall_lookup in Hrows. destruct (Hrows i adv Hai) as [Hl Hsum].
  split; [by rewrite !length_map|].
  rewrite Hmean.
  replace (map (λ q, q - 1 / INR n)
             (map (λ a, a + value_layer (input_layer s)) adv))
    with (map (λ a, a + (value_layer (input_layer s) - 1 / INR n)) adv).
  2:{ rewrite map_map. apply map_ext. intros a. lra. }
  rewrite Rsum_map_add, Hsum, Hl.
  assert (0 < INR n) by (apply lt_0_INR; lia).
  field. lra.
Qed.

(** The theorem of X6 on a batch of one state with two actions. *)
Lemma DuelingNetwork_row_mean_is_value_witness :
  ∃ out,
    DuelingNetwork.forward (λ s, s) (λ _, [1; 2]) (λ _, 3) [[1]]
      [[0%nat; 1%nat]] = inr out
    ∧ length out = length [[1]]
    ∧ ∀ i s q,
        [[1]] !! i = Some s → out !! i = Some q →
        length q = 2%nat ∧ Rsum q / INR 2 = 3.
Proof.
  eassert (Hf : DuelingNetwork.forward (λ s, s) (λ _, [1; 2]) (λ _, 3)
                  [[1]] [[0%nat; 1%nat]] = inr _) by reflexivity.
  eexists. split; [exact Hf|].
  apply (DuelingNetwork_row_mean_is_value (λ s, s) (λ _, [1; 2])
           (λ _, 3) 2 [[1]] [[0%nat; 1%nat]]); [done|lia|done|exact Hf].
Defined.

(** ** NoisyLayer: what update_noise keeps, and how the noise enters *)

Lemma ger_lookup (u v : list R) (i j : nat) (a b : R) :
  u !! i = Some a → v !! j = Some b →
  ger u v !! i ≫= (.!! j) = Some (a * b).
Proof.
  intros Hu Hv. unfold ger.
  rewrite list_lookup_fmap, Hu. simpl. by rewrite list_lookup_fmap, Hv.
Qed.

Lemma ger_lookup_inv (u v : list R) (i j : nat) (c : R) :
  ger u v !! i ≫= (.!! j) = Some c →
  ∃ a b, u !! i = Some a ∧ v !! j = Some b ∧ c = a * b.
Proof.
  unfold ger. rewrite list_lookup_fmap.
  destruct (u !! i) as [a|]; [|done]. simpl. rewrite list_lookup_fmap.
  destruct (v !! j) as [b|]; [|done]. simpl. intros [= <-]. by exists a, b.
Qed.

Lemma ger_shape (u v : list R) :
  length (ger u v) = length u
  ∧ Forall (λ r, length r = length v) (ger u v).
Proof.
  unfold ger. split; [by rewrite length_map|].
  apply Forall_forall. intros r Hr.
  apply list_elem_of_In, in_map_iff in Hr as (a & <- & _).
  by rewrite length_map.
Qed.

Lemma update_noise_frame (l : NoisyLayer.t) (g : RandomState) :
  let l' := (NoisyLayer.update_noise l g).1 in
  (NoisyLayer.in_dim l' = NoisyLayer.in_dim l
   ∧ NoisyLayer.out_dim l' = NoisyLayer.out_dim l
   ∧ NoisyLayer.mu_w l' = NoisyLayer.mu_w l
   ∧ NoisyLayer.mu_b l' = NoisyLayer.mu_b l
   ∧ NoisyLayer.sigma_w l' = NoisyLayer.sigma_w l
   ∧ NoisyLayer.sigma_b l' = NoisyLayer.sigma_b l)
  ∧ length (NoisyLayer.eps_w l') = NoisyLayer.out_dim l
  ∧ Forall (λ r, length r = NoisyLayer.in_dim l) (NoisyLayer.eps_w l')
  ∧ (layer_shape l → layer_shape l')
  ∧ (weight_shape l → weight_shape l').
Proof.
  intros l'. subst l'. rewrite update_noise_unfold. cbn [fst].
  set (f_out := NoisyLayer.transform (drawn g (position g)
                                        (NoisyLayer.out_dim l))).
  set (f_in := NoisyLayer.transform
                 (drawn g (position g + NoisyLayer.out_dim l)
                    (NoisyLayer.in_dim l))).
  set (f_b := NoisyLayer.transform _).
  assert (Ho : length f_out = NoisyLayer.out_dim l)
    by (unfold f_out; by rewrite length_transform, length_drawn).
  assert (Hi : length f_in = NoisyLayer.in_dim l)
    by (unfold f_in; by rewrite length_transform, length_drawn).
  assert (Hb : length f_b = NoisyLayer.out_dim l)
    by (unfold f_b; by rewrite length_transform, length_drawn).
  destruct (ger_shape f_out f_in) as [Hg1 Hg2].
  rewrite Ho in Hg1. rewrite Hi in Hg2.
  split; [done|]. cbn.
  split; [done|]. split; [done|].
  split.
  { intros (H1 & H2 & H3 & H4 & H5 & H6). by repeat split. }
  intros (H1 & H2 & H3). by repeat split.
Qed.

(** X7. [update_noise] writes the two noise buffers only: the sizes and
    the trainable tensors [mu] and [sigma] are kept, and so are the
    shapes that [__init__] gives the layer. The new weight noise has
    [out_dim] rows of [in_dim] entries and is of rank one: the products
    of its entries at (i, j), (k, m) and at (i, m), (k, j) agree. *)
Theorem update_noise_keeps_parameters (l : NoisyLayer.t) (g : RandomState) :
  let l' := (NoisyLayer.update_noise l g).1 in
  (NoisyLayer.in_dim l' = NoisyLayer.in_dim l
   ∧ NoisyLayer.out_dim l' = NoisyLayer.out_dim l
   ∧ NoisyLayer.mu_w l' = NoisyLayer.mu_w l
   ∧ NoisyLayer.mu_b l' = NoisyLayer.mu_b l
   ∧ NoisyLayer.sigma_w l' = NoisyLayer.sigma_w l
   ∧ NoisyLayer.sigma_b l' = NoisyLayer.sigma_b l)
  ∧ length (NoisyLayer.eps_w l') = NoisyLayer.out_dim l
  ∧ Forall (λ r, length r = NoisyLayer.in_dim l) (NoisyLayer.eps_w l')
  ∧ (layer_shape l → layer_shape l')
  ∧ (weight_shape l → weight_shape l')
  ∧ ∀ i j k m a b c d,
      NoisyLayer.eps_w l' !! i ≫= (.!! j) = Some a →
      NoisyLayer.eps_w l' !! k ≫= (.!! m) = Some b →
      NoisyLayer.eps_w l' !! i ≫= (.!! m) = Some c →
      NoisyLayer.eps_w l' !! k ≫= (.!! j) = Some d →
      a * b = c * d.
Proof.
  intros l'.
  destruct (update_noise_frame l g) as (Hf & Hlen & Hrows & Hs & Hw).
  do 5 (split; [done|]).
  subst l'. rewrite update_noise_unfold. cbn.
  intros i j k m a b c d Ha Hb' Hc Hd.
  apply ger_lookup_inv in Ha as (ui & vj & Hui & Hvj & ->).
  apply ger_lookup_inv in Hb' as (uk & vm & Huk & Hvm & ->).
  apply ger_lookup_inv in Hc as (ui' & vm' & Hui' & Hvm' & ->).
  apply ger_lookup_inv in Hd as (uk' & vj' & Huk' & Hvj' & ->).
  simplify_eq. ring.
Qed.

Lemma dot_add (x : list R) :
  ∀ a b : list R, length a = length b →
    Rsum (zip_with Rmult x (zip_with Rplus a b))
    = Rsum (zip_with Rmult x a) + Rsum (zip_with Rmult x b).
Proof.
  induction x as [|v x IH]; intros [|a0 a] [|b0 b] Hl;
    simplify_eq/=; rewrite ?Rsum_nil, ?Rsum_cons; try lra.
  rewrite (IH a b) by done. lra.
Qed.

Lemma dot_zero (x : list R) :
  ∀ a : list R, Forall (λ s, s = 0) a → Rsum (zip_with Rmult x a) = 0.
Proof.
  induction x as [|v x IH]; intros [|a0 a] Ha; simpl;
    rewrite ?Rsum_nil, ?Rsum_cons; try done.
  inversion Ha; subst. rewrite IH by done. lra.
Qed.

Lemma zip_with_mult_zero (s : list R) :
  ∀ e : list R, Forall (λ v, v = 0) s →
    Forall (λ v, v = 0) (zip_with Rmult s e).
Proof.
  induction s as [|v s IH]; intros [|e0 e] Hs; simpl; try by constructor.
  inversion Hs; subst. constructor; [lra|by apply IH].
Qed.

(** X8. For a layer whose tensors have the shapes of [__init__], the
    noise enters the output additively: [forward] is the output of the
    linear layer [mu] plus that of the linear layer whose weights and
    bias are [sigma * eps]. When every [sigma] is 0 the output is that of
    the linear layer [mu] whatever noise [update_noise] draws. *)
Theorem NoisyLayer_forward_noise_is_additive (l : NoisyLayer.t)
    (x : list R) :
  layer_shape l → weight_shape l →
  NoisyLayer.forward l x
  = zip_with Rplus
      (linear x (NoisyLayer.mu_w l) (NoisyLayer.mu_b l))
      (linear x
         (zip_with (zip_with Rmult) (NoisyLayer.sigma_w l)
            (NoisyLayer.eps_w l))
         (zip_with Rmult (NoisyLayer.sigma_b l) (NoisyLayer.eps_b l)))
  ∧ (Forall (Forall (λ s, s = 0)) (NoisyLayer.sigma_w l) →
     Forall (λ s, s = 0) (NoisyLayer.sigma_b l) →
     ∀ g, NoisyLayer.forward (NoisyLayer.update_noise l g).1 x
          = linear x (NoisyLayer.mu_w l) (NoisyLayer.mu_b l)).
Proof.
  assert (Hadd : ∀ l, layer_shape l → weight_shape l →
    NoisyLayer.forward l x
    = zip_with Rplus
        (linear x (NoisyLayer.mu_w l) (NoisyLayer.mu_b l))
        (linear x
           (zip_with (zip_with Rmult) (NoisyLayer.sigma_w l)
              (NoisyLayer.eps_w l))
           (zip_with Rmult (NoisyLayer.sigma_b l) (NoisyLayer.eps_b l)))).
  { clear l. intros l (H1 & H2 & H3 & H4 & H5 & H6) (W1 & W2 & W3).
    unfold NoisyLayer.forward, linear. apply list_eq. intros i.
    rewrite !lookup_zip_with, !list_lookup_fmap, !lookup_zip_with.
    destruct (decide (i < NoisyLayer.out_dim l)%nat) as [Hi|Hi].
    - destruct (lookup_lt_is_Some_2 (NoisyLayer.mu_w l) i) as [mw Hmw];
        [lia|].
      destruct (lookup_lt_is_Some_2 (NoisyLayer.sigma_w l) i) as [sw Hsw];
        [lia|].
      destruct (lookup_lt_is_Some_2 (NoisyLayer.eps_w l) i) as [ew Hew];
        [lia|].
      destruct (lookup_lt_is_Some_2 (NoisyLayer.mu_b l) i) as [mb Hmb];
        [lia|].
      destruct (lookup_lt_is_Some_2 (NoisyLayer.sigma_b l) i) as [sb Hsb];
        [lia|].
      destruct (lookup_lt_is_Some_2 (NoisyLayer.eps_b l) i) as [eb Heb];
        [lia|].
      rewrite Hmw, Hsw, Hew, Hmb, Hsb, Heb. simpl. f_equal.
      rewrite Forall_lookup in W1, W2, W3.
      rewrite dot_add; [lra|].
      rewrite length_zip_with, (W1 _ _ Hmw), (W2 _ _ Hsw), (W3 _ _ Hew).
      lia.
    - rewrite (lookup_ge_None_2 (NoisyLayer.mu_w l)) by lia.
      done. }
  intros Hs Hw. split; [by apply Hadd|].
  intros Hz Hzb g.
  destruct (update_noise_frame l g)
    as ((_ & Eout & Emw & Emb & Esw & Esb) & _ & _ & Hs' & Hw').
  rewrite Hadd by auto. rewrite Emw, Emb, Esw, Esb.
  destruct (Hs' Hs) as (_ & _ & E3 & _ & _ & E6).
  rewrite Eout in E3, E6.
  set (e := NoisyLayer.eps_w _) in *. set (eb := NoisyLayer.eps_b _) in *.
  destruct Hs as (H1 & H2 & H3 & H4 & H5 & H6).
  unfold linear. apply list_eq. intros i.
  rewrite !lookup_zip_with, !list_lookup_fmap, !lookup_zip_with.
  destruct (decide (i < NoisyLayer.out_dim l)%nat) as [Hi|Hi].
  - destruct (lookup_lt_is_Some_2 (NoisyLayer.mu_w l) i) as [mw Hmw];
      [lia|].
    destruct (lookup_lt_is_Some_2 (NoisyLayer.sigma_w l) i) as [sw Hsw];
      [lia|].
    destruct (lookup_lt_is_Some_2 e i) as [ew Hew]; [lia|].
    destruct (lookup_lt_is_Some_2 (NoisyLayer.mu_b l) i) as [mb Hmb];
      [lia|].
    destruct (lookup_lt_is_Some_2 (NoisyLayer.sigma_b l) i) as [sb Hsb];
      [lia|].
    destruct (lookup_lt_is_Some_2 eb i) as [b Hb]; [lia|].
    rewrite Hmw, Hsw, Hew, Hmb, Hsb, Hb. simpl. f_equal.
    rewrite Forall_lookup in Hz. rewrite Forall_lookup in Hzb.
    rewrite (dot_zero x (zip_with Rmult sw ew))
      by (apply zip_with_mult_zero; by eapply Hz).
    rewrite (Hzb _ _ Hsb). lra.
  - rewrite (lookup_ge_None_2 (NoisyLayer.mu_w l)) by lia. done.
Qed.

(** The theorem of X8 on the layer without noise scale of the examples,
    with the noise drawn from the generator of the examples. *)
Lemma NoisyLayer_forward_noise_is_additive_witness :
  layer_shape (plain_layer 2) ∧ weight_shape (plain_layer 2)
  ∧ NoisyLayer.forward
      (NoisyLayer.update_noise (plain_layer 2) example_generator).1 [3]
    = linear [3] [[1]; [1]] [0; 0].
Proof.
  assert (Hs : layer_shape (plain_layer 2)) by (by repeat split).
  assert (Hw : weight_shape (plain_layer 2))
    by (repeat split; by repeat constructor).
  split; [exact Hs|]. split; [exact Hw|].
  apply (NoisyLayer_forward_noise_is_additive (plain_layer 2) [3] Hs Hw);
    by repeat constructor.
Defined.

(** ** DistributionalNetwork.forward: the range of the action values *)

Lemma weighted_sum_bounds (lo hi : R) (row : list R) :
  Forall (λ m, 0 <= m) row →
  ∀ v, length row = length v → Forall (λ z, lo <= z <= hi) v →
    lo * Rsum row <= Rsum (zip_with Rmult row v) <= hi * Rsum row.
Proof.
  induction 1 as [|m row Hm _ IH]; intros [|z v] Hl Hv; simplify_eq/=.
  { rewrite Rsum_nil. lra. }
  inversion Hv; subst. rewrite !Rsum_cons.
  specialize (IH v ltac:(done) ltac:(done)). nra.
Qed.

(** X17. When the last layer of a [DistributionalNetwork] has
    [out_dim * num_bins] outputs and the support has [num_bins] atoms
    between [lo >= 0] and [hi], [forward] returns one row of [out_dim]
    action values for every state, and every action value is at least
    [lo] and at most [hi * (1 + num_bins * 1e-5)]: it can exceed the
    largest atom, by the mass that the clamp adds, and by no more. *)
Theorem DistributionalNetwork_forward_bounds (out_dim num_bins : nat)
    (v_range : list R) (layers : list R → list R) (x : list (list R))
    (env : unit) (lo hi : R) :
  (out_dim * num_bins)%nat ≠ 0%nat →
  (∀ s, length (layers s) = (out_dim * num_bins)%nat) →
  length v_range = num_bins →
  Forall (λ z, lo <= z <= hi) v_range → 0 <= lo →
  ∃ q,
    DistributionalNetwork.forward out_dim num_bins v_range layers x env
    = inr q
    ∧ length q = length x
    ∧ ∀ row, row ∈ q →
        length row = out_dim
        ∧ ∀ v, v ∈ row →
            lo <= v <= hi * (1 + INR num_bins * mass_floor).
Proof.
  intros Hb Hl Hv Hrange Hlo.
  destruct (DistributionalNetwork_returns out_dim num_bins layers x env
              Hb Hl) as (d & Hd & Hlen).
  unfold DistributionalNetwork.forward. rewrite Hd. cbn [bind].
  eexists. split; [done|]. unfold expectation.
  split; [by rewrite length_map|].
  intros row Hrow.
  apply list_elem_of_fmap in Hrow as (item & -> & Hitem).
  split.
  { rewrite length_map.
    unfold DistributionalNetwork.action_distr in Hd.
    apply bind_inr in Hd as (t & Ht & [= <-]).
    apply reshape3_shape in Ht as [_ Ht].
    unfold softmax_clamp in Hitem.
    apply list_elem_of_fmap in Hitem as (item0 & -> & Hitem0).
    rewrite Forall_forall in Ht. rewrite length_map.
    by destruct (Ht _ Hitem0). }
  intros v Hin.
  apply list_elem_of_fmap in Hin as (bins & -> & Hbins).
  destruct (DistributionalNetwork_masses out_dim num_bins layers x env d
              Hd item bins Hitem Hbins)
    as (logits & Hll & Heq & Hfloor & [Hs1 Hs2] & _).
  assert (Hpos : Forall (λ m, 0 <= m) bins).
  { eapply Forall_impl; [exact Hfloor|]. intros m Hm.
    pose proof mass_floor_pos. simpl in Hm. lra. }
  assert (Hbl : length bins = length v_range).
  { rewrite Heq. unfold clamp_min. rewrite length_map, length_softmax.
    congruence. }
  destruct (weighted_sum_bounds lo hi bins Hpos v_range Hbl Hrange)
    as [H1 H2].
  assert (Hhi : lo <= hi).
  { destruct v_range as [|z v_range].
    - simpl in Hv. subst num_bins. lia.
    - inversion Hrange; subst. lra. }
  split; [nra|]. nra.
Qed.

(** The theorem of X17 on one action, two bins and the support
    [0, 1]. *)
Lemma DistributionalNetwork_forward_bounds_witness :
  ∃ q,
    DistributionalNetwork.forward 1 2 [0; 1] (λ _, [0; 30]) [[1]] tt
    = inr q
    ∧ length q = length [[1]]
    ∧ ∀ row, row ∈ q →
        length row = 1%nat
        ∧ ∀ v, v ∈ row → 0 <= v <= 1 * (1 + INR 2 * mass_floor).
Proof.
  apply (DistributionalNetwork_forward_bounds 1 2 [0; 1] (λ _, [0; 30])
           [[1]] tt 0 1).
  - simpl. lia.
  - done.
  - done.
  - repeat constructor; lra.
  - lra.
Defined.

(** ** NoisyDuelingDistributionalNetwork.forward *)

Lemma expectation_bounds (num_bins : nat) (v_range : list R) (lo hi : R)
    (d : list (list (list R))) :
  (∀ item row, item ∈ d → row ∈ item → clamped_distribution num_bins row) →
  length v_range = num_bins → num_bins ≠ 0%nat →
  Forall (λ z, lo <= z <= hi) v_range → 0 <= lo →
  ∀ row v, row ∈ expectation v_range d → v ∈ row →
    lo <= v <= hi * (1 + INR num_bins * mass_floor).
Proof.
  intros Hd Hv Hnb Hrange Hlo row v Hrow Hin. unfold expectation in Hrow.
  apply list_elem_of_fmap in Hrow as (item & -> & Hitem).
  apply list_elem_of_fmap in Hin as (bins & -> & Hbins).
  destruct (Hd item bins Hitem Hbins)
    as (logits & Hll & Heq & Hfloor & [Hs1 Hs2] & _).
  assert (Hpos : Forall (λ m, 0 <= m) bins).
  { eapply Forall_impl; [exact Hfloor|]. intros m Hm.
    pose proof mass_floor_pos. simpl in Hm. lra. }
  assert (Hbl : length bins = length v_range).
  { rewrite Heq. unfold clamp_min. rewrite length_map, length_softmax.
    congruence. }
  destruct (weighted_sum_bounds lo hi bins Hpos v_range Hbl Hrange)
    as [H1 H2].
  assert (Hhi : lo <= hi).
  { destruct v_range as [|z v_range].
    - simpl in Hv. subst num_bins. lia.
    - inversion Hrange; subst. lra. }
  split; nra.
Qed.



(** ** NoisyDuelingNetwork.forward *)

Lemma mapM_inr {A B} (f : A → exc B) (g : A → B) (l : list A) :
  Forall (λ a, f a = inr (g a)) l → mapM f l = inr (map g l).
Proof.
  induction 1 as [|a l Ha _ IH]; [done|].
  simpl. rewrite Ha. simpl. rewrite IH. done.
Qed.

Lemma argmax_add (c : R) (t : list R) :
  argmax (map (λ a, a + c) t) = argmax t.
Proof.
  rewrite <- (argmax_shift (- c) t). f_equal. apply map_ext. intros a. lra.
Qed.

(** X20. When the two output layers have the shapes of [__init__], the
    value layer with one output, [NoisyDuelingNetwork.forward] returns
    one row per state, whatever [possible_moves] is: the mask is not
    applied. Every row has one entry per action and is the advantage row
    shifted by one number, so its arg-max is the arg-max of the advantage
    stream, legal or not. *)
Theorem NoisyDuelingNetwork_forward_unmasked {PM : Type}
    (input_layer : list R → list R) (n : NoisyDuelingNetwork.t)
    (x : list (list R)) (possible_moves : PM) :
  layer_shape (NoisyDuelingNetwork.advantage_layer_out n) →
  layer_shape (NoisyDuelingNetwork.value_layer_out n) →
  NoisyLayer.out_dim (NoisyDuelingNetwork.value_layer_out n) = 1%nat →
  let advantage :=
    map (NoisyLayer.forward (NoisyDuelingNetwork.advantage_layer_out n))
      (map relu
         (map (NoisyLayer.forward
                 (NoisyDuelingNetwork.advantage_layer_hidden n))
            (map input_layer x))) in
  ∃ out,
    NoisyDuelingNetwork.forward input_layer n x possible_moves = inr out
    ∧ length out = length x
    ∧ ∀ i q, out !! i = Some q →
        ∃ adv shift,
          advantage !! i = Some adv
          ∧ q = map (λ a, a + shift) adv
          ∧ length q
            = NoisyLayer.out_dim (NoisyDuelingNetwork.advantage_layer_out n)
          ∧ argmax q = argmax adv.
Proof.
  intros Ha Hv Hv1 advantage. unfold NoisyDuelingNetwork.forward.
  fold advantage.
  set (value := map (NoisyLayer.forward
                       (NoisyDuelingNetwork.value_layer_out n)) _).
  set (g := λ av : list R * list R,
              map (λ q, q + hd 0 av.2) av.1).
  assert (Hm : mapM (λ '(a, v), broadcast_add a v) (zip advantage value)
               = inr (map g (zip advantage value))).
  { apply mapM_inr, Forall_forall. intros [a v] Hin.
    apply elem_of_zip_r in Hin. unfold value in Hin.
    apply list_elem_of_In, in_map_iff in Hin as (h & <- & _).
    pose proof (length_NoisyLayer_forward
                  (NoisyDuelingNetwork.value_layer_out n) h Hv) as Hl.
    rewrite Hv1 in Hl.
    destruct (NoisyLayer.forward _ h) as [|c [|]]; simplify_eq/=.
    unfold broadcast_add. by destruct a as [|? [|]]. }
  rewrite Hm. cbn [bind]. eexists. split; [done|].
  assert (Hlen : length (zip advantage value) = length x).
  { rewrite length_zip_with. unfold advantage, value.
    rewrite !length_map. lia. }
  split; [by rewrite !length_map|].
  intros i q Hq. rewrite !list_lookup_fmap in Hq.
  destruct (zip advantage value !! i) as [[a v]|] eqn:Hi; [|done].
  apply lookup_zip_with_Some in Hi as (a' & v' & [= <- <-] & Hai & Hvi).
  simpl in Hq. injection Hq as <-.
  exists a, (hd 0 v - mean2 advantage). split; [done|].
  assert (Heq : map (λ q, q - mean2 advantage) (g (a, v))
                = map (λ a, a + (hd 0 v - mean2 advantage)) a).
  { unfold g. simpl. rewrite map_map. apply map_ext. intros r. lra. }
  rewrite Heq. split; [done|]. split.
  - rewrite length_map. unfold advantage in Hai.
    rewrite list_lookup_fmap in Hai.
    destruct (_ !! i) as [h|]; [|done]. injection Hai as <-.
    by apply length_NoisyLayer_forward.
  - apply argmax_add.
Qed.

(** The theorem of X20 on the layers without noise of the examples:
    three actions and one value. *)
Lemma NoisyDuelingNetwork_forward_unmasked_witness :
  ∃ out,
    NoisyDuelingNetwork.forward (λ s, s)
      {| NoisyDuelingNetwork.advantage_layer_hidden := plain_layer 1;
         NoisyDuelingNetwork.advantage_layer_out := plain_layer 3;
         NoisyDuelingNetwork.value_layer_hidden := plain_layer 1;
         NoisyDuelingNetwork.value_layer_out := plain_layer 1 |}
      [[2]] [[0%nat]] = inr out
    ∧ length out = 1%nat
    ∧ ∀ i q, out !! i = Some q → length q = 3%nat.
Proof.
  destruct (NoisyDuelingNetwork_forward_unmasked (λ s, s)
      {| NoisyDuelingNetwork.advantage_layer_hidden := plain_layer 1;
         NoisyDuelingNetwork.advantage_layer_out := plain_layer 3;
         NoisyDuelingNetwork.value_layer_hidden := plain_layer 1;
         NoisyDuelingNetwork.value_layer_out := plain_layer 1 |}
      [[2]] [[0%nat]]) as (out & Hout & Hlen & Hrows).
  - apply plain_layer_shape.
  - apply plain_layer_shape.
  - reflexivity.
  - exists out. split; [exact Hout|]. split; [exact Hlen|].
    intros i q Hq. by destruct (Hrows i q Hq) as (adv & shift & _ & _ & Hl & _).
Defined.

(** * Further properties of agent.py *)

(** ** The arg-max *)

Lemma argmax_aux_spec (t : list R) :
  ∀ (best_i : nat) (best : R) (i : nat),
    let a := argmax_aux best_i best i t in
    (a = best_i ∧ Forall (λ w, w <= best) t)
    ∨ ∃ k v, a = (i + k)%nat ∧ t !! k = Some v ∧ best < v
             ∧ Forall (λ w, w <= v) t
             ∧ ∀ j w, (j < k)%nat → t !! j = Some w → w < v.
Proof.
  induction t as [|v t IH]; intros best_i best i; simpl.
  { left. by split. }
  destruct (Rlt_dec best v) as [Hlt|Hge].
  - destruct (IH i v (S i)) as [[-> Hall]|(k & v' & -> & Hk & Hv & Hall & Hfirst)].
    + right. exists 0%nat, v. split; [f_equal; lia|].
      split; [done|]. split; [done|].
      split; [constructor; [lra|done]|]. intros j w Hj. lia.
    + right. exists (S k), v'. split; [lia|]. split; [done|].
      split; [lra|]. split; [constructor; [lra|done]|].
      intros [|j] w Hj Hw; simplify_eq/=; [done|].
      apply (Hfirst j); [lia|done].
  - destruct (IH best_i best (S i))
      as [[-> Hall]|(k & v' & -> & Hk & Hv & Hall & Hfirst)].
    + left. split; [done|]. constructor; [lra|done].
    + right. exists (S k), v'. split; [lia|]. split; [done|].
      split; [done|]. split; [constructor; [lra|done]|].
      intros [|j] w Hj Hw; simplify_eq/=; [lra|].
      apply (Hfirst j); [lia|done].
Qed.

Lemma argmax_spec (t : list R) (a : nat) :
  argmax t = inr a →
  ∃ v, t !! a = Some v ∧ Forall (λ w, w <= v) t
       ∧ ∀ j w, (j < a)%nat → t !! j = Some w → w < v.
Proof.
  destruct t as [|v0 t]; [done|]. intros [= <-].
  destruct (argmax_aux_spec t 0 v0 1)
    as [[-> Hall]|(k & v & -> & Hk & Hv & Hall & Hfirst)].
  - exists v0. split; [done|]. split; [constructor; [lra|done]|].
    intros j w Hj. lia.
  - exists v. split; [done|]. split; [constructor; [lra|done]|].
    intros [|j] w Hj Hw; simplify_eq/=; [done|].
    apply (Hfirst j); [lia|done].
Qed.

Lemma argmax_returns (t : list R) : t ≠ [] → ∃ a, argmax t = inr a.
Proof. destruct t; [done|]. intros _. by eexists. Qed.

(** ** eps_greedy_action *)

(** X9. With a [DQN] whose last layer is not empty,
    [eps_greedy_action] returns an action whatever the two random
    numbers are: the sampled action, without a call of the network, when
    the uniform number [u] is below [self.eps]; otherwise the first index
    at which the output of the network for [state] is maximal. *)
Theorem eps_greedy_action_DQN (layers : list R → list R) (eps u : R)
    (sample : nat) (state : list R) :
  layers state ≠ [] →
  ∃ a,
    Agent.eps_greedy_action (DQN.call layers) eps u sample state = inr a
    ∧ (u < eps → a = sample
               ∧ ∀ model, Agent.eps_greedy_action model eps u sample state
                          = inr sample)
    ∧ (eps <= u →
       ∃ v, layers state !! a = Some v
            ∧ Forall (λ w, w <= v) (layers state)
            ∧ ∀ j w, (j < a)%nat → layers state !! j = Some w → w < v).
Proof.
  intros Hne. unfold Agent.eps_greedy_action.
  destruct (Rgt_dec eps u) as [Hgt|Hle].
  - exists sample. split; [done|]. split; [|intros; lra].
    intros _. split; [done|]. intros model.
    destruct (Rgt_dec eps u); [done|lra].
  - simpl. unfold DQN.forward.
    destruct (argmax_returns _ Hne) as [a Ha]. exists a.
    split; [done|]. split; [intros; lra|]. intros _.
    by apply argmax_spec.
Qed.

(** The theorem of X9 on a network with three actions, in the greedy
    branch. *)
Lemma eps_greedy_action_DQN_witness :
  ∃ a,
    Agent.eps_greedy_action (DQN.call (λ _, [1; 3; 3])) (1 / 100) (1 / 2)
      0 [1] = inr a
    ∧ (1 / 2 < 1 / 100 →
       a = 0%nat
       ∧ ∀ model, Agent.eps_greedy_action model (1 / 100) (1 / 2) 0 [1]
                  = inr 0%nat)
    ∧ (1 / 100 <= 1 / 2 →
       ∃ v, [1; 3; 3] !! a = Some v
            ∧ Forall (λ w, w <= v) [1; 3; 3]
            ∧ ∀ j w, (j < a)%nat → [1; 3; 3] !! j = Some w → w < v).
Proof.
  apply (eps_greedy_action_DQN (λ _, [1; 3; 3]) (1 / 100) (1 / 2) 0 [1]).
  done.
Defined.

(** X10. An agent whose model is a [NoisyNetwork] can neither learn nor
    exploit: [forward] of that class takes the state only, so the calls
    [self.model(state, self.env)] of [update], [get_target] and
    [eps_greedy_action] raise [TypeError], for every transition and every
    state; only the exploring branch of [eps_greedy_action] returns. *)
Theorem NoisyNetwork_agent_raises (input_layer : list R → list R)
    (n : NoisyNetwork.t) (target_layers : list R → list R) (gamma : R)
    (is_double : bool) (reward : R) (done : bool)
    (next_state state : list R) (action : nat) (eps u : R) (sample : nat) :
  let model := NoisyNetwork.call input_layer n in
  Agent.update_loss model target_layers gamma is_double reward done
    next_state state action = inl TypeError
  ∧ Agent.eps_greedy_action model eps u sample state
    = (if Rgt_dec eps u then inr sample else inl TypeError)
  ∧ ∃ q, model [PyTensor state] = inr q.
Proof.
  intros model. split; [|split].
  - unfold Agent.update_loss, Agent.get_target, Agent.get_target_double.
    destruct done, is_double; reflexivity.
  - unfold Agent.eps_greedy_action. by destruct (Rgt_dec eps u).
  - by eexists.
Qed.

(** ** ohe *)

Lemma Rsum_zeros (n : nat) : Rsum (zeros n) = 0.
Proof. unfold zeros. rewrite Rsum_repeat. lra. Qed.

Lemma Rsum_insert_zeros (n k : nat) (v : R) :
  (k < n)%nat → Rsum (<[k := v]> (zeros n)) = v.
Proof.
  revert k. induction n as [|n IH]; intros k Hk; [lia|].
  destruct k as [|k]; simpl.
  - rewrite Rsum_cons. fold (zeros n). rewrite Rsum_zeros. lra.
  - rewrite Rsum_cons. fold (zeros n). rewrite IH by lia. lra.
Qed.

Lemma one_hot_lookup (n k j : nat) :
  (k < n)%nat → (j < n)%nat →
  <[k := 1]> (zeros n) !! j = Some (if decide (j = k) then 1 else 0).
Proof.
  intros Hk Hj. destruct (decide (j = k)) as [->|Hne].
  - apply list_lookup_insert_eq. unfold zeros. by rewrite repeat_length.
  - rewrite list_lookup_insert_ne by done. by apply repeat_lookup.
Qed.

(** X11. For an observation [state] among the [obs_size] states, [ohe]
    returns a vector of [obs_size] entries with 1 at [state] and 0
    elsewhere, which sums to 1 and from which [argmax] gives [state]
    back; [state - obs_size] gives the same vector. An index outside
    [-obs_size, obs_size) raises [IndexError]. *)
Theorem ohe_round_trip (obs_size : nat) (state : Z) :
  (0 ≤ state < Z.of_nat obs_size)%Z →
  (∃ v,
     Agent.ohe obs_size state = inr v
     ∧ Agent.ohe obs_size (state - Z.of_nat obs_size) = inr v
     ∧ length v = obs_size
     ∧ (∀ j, (j < obs_size)%nat →
          v !! j = Some (if decide (j = Z.to_nat state) then 1 else 0))
     ∧ Rsum v = 1
     ∧ argmax v = inr (Z.to_nat state))
  ∧ ∀ other,
      ¬ (- Z.of_nat obs_size ≤ other < Z.of_nat obs_size)%Z →
      Agent.ohe obs_size other = inl IndexError.
Proof.
  intros Hs. split.
  - exists (<[Z.to_nat state := 1]> (zeros obs_size)).
    assert (Hk : (Z.to_nat state < obs_size)%nat) by lia.
    split; [|split; [|split; [|split; [|split]]]].
    + unfold Agent.ohe. by rewrite decide_True by lia.
    + unfold Agent.ohe. rewrite decide_False by lia.
      rewrite decide_True by lia. do 3 f_equal. lia.
    + unfold zeros. by rewrite length_insert, repeat_length.
    + intros j Hj. by apply one_hot_lookup.
    + by apply Rsum_insert_zeros.
    + set (v := <[Z.to_nat state := 1]> (zeros obs_size)).
      assert (Hlen : length v = obs_size)
        by (unfold v, zeros; by rewrite length_insert, repeat_length).
      destruct (argmax_returns v) as [a Ha].
      { intros Hv. rewrite Hv in Hlen. simpl in Hlen. lia. }
      rewrite Ha. f_equal.
      apply argmax_spec in Ha as (m & Hm & Hall & _).
      assert (Ha : (a < obs_size)%nat)
        by (rewrite <- Hlen; by eapply lookup_lt_Some).
      unfold v in Hm. rewrite one_hot_lookup in Hm by done.
      destruct (decide (a = Z.to_nat state)) as [->|Hne]; [done|].
      simplify_eq. rewrite Forall_lookup in Hall.
      specialize (Hall (Z.to_nat state) 1).
      unfold v in Hall. rewrite one_hot_lookup in Hall by done.
      rewrite decide_True in Hall by done.
      specialize (Hall eq_refl). lra.
  - intros other Ho. unfold Agent.ohe.
    rewrite decide_False by lia. by rewrite decide_False by lia.
Qed.

(** The theorem of X11 on the third of four states. *)
Lemma ohe_round_trip_witness :
  Agent.ohe 4 2 = inr [0; 0; 1; 0]
  ∧ argmax [0; 0; 1; 0] = inr 2%nat
  ∧ Agent.ohe 4 4 = inl IndexError.
Proof.
  destruct (ohe_round_trip 4 2 ltac:(lia)) as [(v & Hv & _ & _ & _ & _ & Ha) He].
  assert (E : Agent.ohe 4 2 = inr [0; 0; 1; 0]) by reflexivity.
  rewrite E in Hv. simplify_eq.
  split; [done|]. split; [exact Ha|]. apply He. lia.
Defined.

(** ** replay *)

(** X12. [replay] returns only on an empty batch. On any other batch it
    raises at the first transition, before [update] is entered: [update]
    is called with three arguments where it takes five, so once
    [get_target] has returned, the call raises [TypeError], whatever the
    body of [update] is. *)
Theorem replay_raises (model : list pyobj → exc (list R))
    (target_layers : list R → list R) (gamma : R) (is_double : bool)
    (body : Agent.pyval → Agent.pyval → Agent.pyval → Agent.pyval
            → Agent.pyval → exc unit)
    (t : Agent.transition) (batch : list Agent.transition) :
  Agent.replay model target_layers gamma is_double body [] = inr tt
  ∧ Agent.replay model target_layers gamma is_double body (t :: batch)
    = match Agent.get_target model target_layers gamma is_double
              (Agent.reward t) (Agent.done t) (Agent.next_state t) with
      | inl e => inl e
      | inr _ => inl TypeError
      end
  ∧ (∃ e, Agent.replay model target_layers gamma is_double body
            (t :: batch) = inl e)
  ∧ (Agent.done t = true →
     Agent.replay model target_layers gamma is_double body (t :: batch)
     = inl TypeError).
Proof.
  split; [done|].
  assert (H : Agent.replay model target_layers gamma is_double body
                (t :: batch)
              = match Agent.get_target model target_layers gamma is_double
                        (Agent.reward t) (Agent.done t)
                        (Agent.next_state t) with
                | inl e => inl e
                | inr _ => inl TypeError
                end).
  { cbn [Agent.replay].
    by destruct (Agent.get_target model target_layers gamma is_double
                   (Agent.reward t) (Agent.done t) (Agent.next_state t)). }
  split; [exact H|]. rewrite H. split.
  - destruct (Agent.get_target _ _ _ _ _ _ _); by eexists.
  - intros Hd. rewrite Hd. reflexivity.
Qed.

(** ** train: the value of eps in closed form *)

Lemma while_not_done_closed_form (min_eps eps_decay : R) (i n : nat) :
  ∀ eps trace,
    (Agent.while_not_done min_eps eps_decay i n eps trace).1
    = min_eps + (eps - min_eps) * exp (- eps_decay * INR (i * n)).
Proof.
  induction n as [|n IH]; intros eps trace.
  - simpl. rewrite Nat.mul_0_r. simpl. rewrite Rmult_0_r, exp_0. lra.
  - cbn [Agent.while_not_done]. rewrite IH. unfold Agent.decay.
    replace (INR (i * S n)) with (INR i + INR (i * n))
      by (rewrite <- plus_INR; f_equal; lia).
    replace (- eps_decay * (INR i + INR (i * n)))
      with (- eps_decay * INR i + - eps_decay * INR (i * n)) by lra.
    rewrite exp_plus. lra.
Qed.

Lemma for_episodes_closed_form (min_eps eps_decay : R) (more : list nat) :
  ∀ i eps trace,
    (Agent.for_episodes min_eps eps_decay i more eps trace).1
    = min_eps
      + (eps - min_eps) * exp (- eps_decay * INR (weighted_steps i more)).
Proof.
  induction more as [|m more IH]; intros i eps trace.
  - simpl. rewrite Rmult_0_r, exp_0. lra.
  - cbn [Agent.for_episodes weighted_steps].
    pose proof (while_not_done_closed_form min_eps eps_decay i (S m)
                  eps trace) as Hw.
    destruct (Agent.while_not_done min_eps eps_decay i (S m) eps trace)
      as [eps' trace'].
    simpl in Hw. rewrite IH, Hw, plus_INR.
    replace (- eps_decay * (INR (i * S m) + INR (weighted_steps (S i) more)))
      with (- eps_decay * INR (i * S m)
            + - eps_decay * INR (weighted_steps (S i) more)) by lra.
    rewrite exp_plus. lra.
Qed.

(** X14. After any run of [train], whatever the three parameters are,
    [self.eps] is [min_eps + (eps0 - min_eps) * exp(-eps_decay * w)],
    where [w] adds the index of the episode for every step played: the
    decay is applied at every step, not once per episode, and the steps
    of episode 0 leave [self.eps] as it is. *)
Theorem train_eps_closed_form (min_eps eps_decay eps0 : R)
    (more : list nat) (m : nat) :
  (Agent.train_eps min_eps eps_decay more eps0).1
  = min_eps
    + (eps0 - min_eps) * exp (- eps_decay * INR (weighted_steps 0 more))
  ∧ (Agent.train_eps min_eps eps_decay [m] eps0).1 = eps0.
Proof.
  unfold Agent.train_eps. rewrite !for_episodes_closed_form. split; [done|].
  simpl. rewrite Rmult_0_r, exp_0. lra.
Qed.

(** ** __init__ with is_double *)

Lemma dom_entries_new_module (param_init buffer_init : list (string * list R))
    (h : list (list R)) (m : Agent.module) (h' : list (list R)) :
  Agent.new_module param_init buffer_init h = (m, h') →
  dom (Agent.entries m)
  = (list_to_set (param_init ++ buffer_init).*1 : gset string).
Proof.
  unfold Agent.new_module. intros [= <- _]. unfold Agent.entries. simpl.
  rewrite dom_union_L, !dom_list_to_map_L.
  rewrite !fst_zip by (rewrite length_seq, length_fmap; lia).
  by rewrite fmap_app, list_to_set_app_L.
Qed.

Lemma dom_state_dict (m : Agent.module) (h : list (list R)) :
  (∀ name l, Agent.entries m !! name = Some l → (l < length h)%nat) →
  dom (Agent.state_dict m h) = dom (Agent.entries m).
Proof.
  intros Hin. apply set_eq. intros name.
  rewrite !elem_of_dom, state_dict_lookup. split.
  - intros [v Hv]. destruct (Agent.entries m !! name); [by eexists|done].
  - intros [l Hl]. rewrite Hl. simpl. apply lookup_lt_is_Some. by eapply Hin.
Qed.

Lemma list_to_map_zip_lookup (names : list string) (base : nat)
    (name : string) (l : nat) :
  (list_to_map (zip names (seq base (length names))) : gmap string nat)
    !! name = Some l →
  ∃ idx, l = (base + idx)%nat ∧ names !! idx = Some name.
Proof.
  intros H. apply elem_of_list_to_map_2, list_elem_of_lookup in H as [idx H].
  apply lookup_zip_with_Some in H as (nm & k & Heq & Hn & Hk).
  simplify_eq. apply lookup_seq in Hk as [-> _]. by exists idx.
Qed.

Lemma entries_without_buffers (param_init : list (string * list R))
    (h : list (list R)) (m : Agent.module) (h' : list (list R)) :
  Agent.new_module param_init [] h = (m, h') →
  Agent.entries m = Agent.params m.
Proof.
  intros [= <- _]. unfold Agent.entries. simpl. apply (right_id_L ∅ (∪)).
Qed.

Lemma new_module_params (param_init buffer_init : list (string * list R))
    (h : list (list R)) (m : Agent.module) (h' : list (list R)) :
  Agent.new_module param_init buffer_init h = (m, h') →
  (∀ name, name ∈ param_init.*1 → is_Some (Agent.params m !! name))
  ∧ (∀ name l, Agent.params m !! name = Some l →
       ∃ v, (name, v) ∈ param_init ∧ h' !! l = Some v).
Proof.
  intros [= <- <-]. simpl. split.
  - intros name Hin. apply not_eq_None_Some. intros Hnone.
    apply not_elem_of_list_to_map in Hnone. apply Hnone.
    by rewrite fst_zip by (rewrite length_seq, length_fmap; lia).
  - intros name l Hl. rewrite <- (length_fmap fst) in Hl.
    apply list_to_map_zip_lookup in Hl as (idx & -> & Hidx).
    rewrite list_lookup_fmap in Hidx.
    destruct (param_init !! idx) as [[nm v]|] eqn:E; simplify_eq/=.
    exists v. split; [by eapply list_elem_of_lookup_2|].
    rewrite lookup_app_r by lia.
    replace (length h + idx - length h)%nat with idx by lia.
    rewrite lookup_app_l
      by (rewrite length_fmap; by eapply lookup_lt_Some).
    by rewrite list_lookup_fmap, E.
Qed.

Lemma load_state_dict_error (m : Agent.module) (sd : gmap string (list R))
    (h : list (list R)) (e : exn) :
  Agent.load_state_dict m sd h = inl e → e = RuntimeError.
Proof.
  unfold Agent.load_state_dict. repeat destruct (decide _); by intros [= <-].
Qed.

(** X18. [__init__] with [is_double] loads the state of [self.model]
    into a [DQN], strictly: when the tensors of [self.model] are not
    named as the six tensors of a [DQN] are, as with a dueling or a noisy
    model, the constructor raises [RuntimeError]; when they are, and have
    the sizes of the tensors of the target network, it returns the
    agent. *)
Theorem init_double_needs_DQN_names {S : Type}
    (param_init buffer_init : list (string * list R))
    (target_init : string → list R) (is_noisy : bool) (st : S) :
  ((∃ name, ¬ (name ∈ (param_init ++ buffer_init).*1
               ↔ name ∈ Agent.DQN_names)) →
   Agent.init param_init buffer_init target_init true is_noisy st
   = inl RuntimeError)
  ∧ ((∀ name, name ∈ param_init.*1 ↔ name ∈ Agent.DQN_names) →
     (∀ name v, (name, v) ∈ param_init →
        length v = length (target_init name)) →
     ∃ a, Agent.init param_init [] target_init true is_noisy st = inr a).
Proof.
  split.
  - intros (name & Hname). unfold Agent.init.
    destruct (Agent.new_module param_init buffer_init [])
      as [model h1] eqn:E1.
    destruct (Agent.new_module _ [] h1) as [mt h2] eqn:E2.
    destruct (Agent.load_state_dict mt (Agent.state_dict model h2) h2)
      as [e|h'] eqn:Hload.
    { apply load_state_dict_error in Hload as ->. done. }
    exfalso. apply Hname. clear Hname.
    unfold Agent.load_state_dict in Hload.
    destruct (decide (dom _ = dom _)) as [Hdom|]; [|done].
    pose proof (dom_entries_new_module _ _ _ _ _ E1) as D1.
    pose proof (dom_entries_new_module _ _ _ _ _ E2) as D2.
    apply new_module_spec in E1 as (L1 & _ & P1 & B1 & _).
    apply new_module_spec in E2 as (L2 & _ & _).
    rewrite dom_state_dict in Hdom.
    2:{ intros nm l Hl. apply entries_lookup in Hl as [Hl|Hl].
        - apply P1 in Hl. lia.
        - apply B1 in Hl. lia. }
    rewrite D1, D2 in Hdom.
    rewrite app_nil_r, <- list_fmap_compose in Hdom.
    assert (Hn : ((λ n, (n, target_init n)) <$> Agent.DQN_names).*1
                 = Agent.DQN_names) by reflexivity.
    rewrite <- (elem_of_list_to_set (C := gset string)).
    rewrite <- (elem_of_list_to_set (C := gset string) name Agent.DQN_names).
    rewrite Hdom. done.
  - intros Hnames Hsizes. unfold Agent.init.
    destruct (Agent.new_module param_init [] []) as [model h1] eqn:E1.
    destruct (Agent.new_module _ [] h1) as [mt h2] eqn:E2.
    pose proof (dom_entries_new_module _ _ _ _ _ E1) as D1.
    pose proof (dom_entries_new_module _ _ _ _ _ E2) as D2.
    pose proof E1 as E1'. pose proof E2 as E2'.
    apply new_module_spec in E1' as (L1 & _ & P1 & B1 & _).
    apply new_module_spec in E2' as (L2 & K2 & _).
    assert (Hmod : ∀ nm l, Agent.entries model !! nm = Some l →
                     (l < length h2)%nat).
    { intros nm l Hl. apply entries_lookup in Hl as [Hl|Hl].
      - apply P1 in Hl. lia.
      - apply B1 in Hl. lia. }
    assert (Hload : ∃ h', Agent.load_state_dict mt
                            (Agent.state_dict model h2) h2 = inr h').
    { unfold Agent.load_state_dict.
      rewrite decide_True.
      2:{ rewrite dom_state_dict by done. rewrite D1, D2, !app_nil_r.
          apply set_eq. intros name. rewrite !elem_of_list_to_set.
          rewrite Hnames. done. }
      rewrite decide_True; [by eexists|].
      intros name l Hl.
      rewrite (entries_without_buffers _ _ _ _ E2) in Hl.
      destruct (new_module_params _ _ _ _ _ E2) as [_ Ht].
      destruct (Ht name l Hl) as (v & Hv & Hlv).
      apply list_elem_of_In, in_map_iff in Hv as (n & [= -> <-] & Hn).
      destruct (new_module_params _ _ _ _ _ E1) as [Hsome Hm].
      destruct (Hsome name) as [l' Hl'].
      { apply Hnames. by apply list_elem_of_In. }
      destruct (Hm name l' Hl') as (v' & Hv' & Hlv').
      rewrite state_dict_lookup, (entries_without_buffers _ _ _ _ E1), Hl'.
      simpl. rewrite K2 by (by eapply lookup_lt_Some).
      rewrite Hlv', Hlv. simpl. f_equal. by apply Hsizes. }
    destruct Hload as [h' Hload]. rewrite Hload. by eexists.
Qed.

(** The theorem of X18 on a model whose only tensor has a name of
    [DuelingNetwork], and on a one-unit [DQN]. *)
Lemma init_double_needs_DQN_names_witness :
  Agent.init [("input_layer.0.weight"%string, [0])] [] (λ _, [1])
    true false tt = inl RuntimeError
  ∧ ∃ a : Agent.agent unit,
      Agent.init (map (λ n, (n, [0])) Agent.DQN_names) [] (λ _, [1])
        true false tt = inr a.
Proof.
  split.
  - apply (init_double_needs_DQN_names
             [("input_layer.0.weight"%string, [0])] [] (λ _, [1])
             false tt).
    exists "input_layer.0.weight"%string. intros [H _].
    assert (Hin : "input_layer.0.weight"%string ∈ Agent.DQN_names)
      by (apply H; simpl; left).
    apply list_elem_of_In in Hin. simpl in Hin.
    repeat destruct Hin as [Hin|Hin]; try discriminate Hin. exact Hin.
  - apply (init_double_needs_DQN_names
             (map (λ n, (n, [0])) Agent.DQN_names) [] (λ _, [1])
             false tt).
    + intros name. by rewrite <- list_fmap_compose, list_fmap_id.
    + intros name v Hin.
      apply list_elem_of_In, in_map_iff in Hin as (n & [= _ <-] & _).
      done.
Defined.

(** ** train: when the target network is synchronised *)

(** X19. For a double-DQN agent, the copy of lines 190-191 sits inside
    the loop over the steps: after every step of an episode whose index
    is a multiple of 20 that raises nothing, the state of the target
    network is the state of the online network after that step; a step
    of any other episode leaves the target network as it was. *)
Theorem sync_cadence {S : Type}
    (adam : S → nat → list R → list R → list R * S)
    (i : nat) (s : Agent.step_input) (a a' : Agent.agent S)
    (synced synced' : gmap string (list R)) :
  target_apart a →
  Agent.step adam i s a synced = (a', synced', None) →
  (i `mod` 20 = 0%nat →
   Agent.target_state a'
   = Some (Agent.state_dict (Agent.model a') (Agent.heap a'))
   ∧ synced' = Agent.state_dict (Agent.model a') (Agent.heap a'))
  ∧ (i `mod` 20 ≠ 0%nat →
     Agent.target_state a' = Agent.target_state a ∧ synced' = synced).
Proof.
  intros Ha. unfold Agent.step.
  destruct (Agent.update adam s a) as [e|a1] eqn:Hu; [done|].
  destruct (update_keeps_target S adam s _ _ Ha Hu) as [Ha1 Ht1].
  assert (Hd : Agent.is_double a1 = true).
  { destruct Ha1 as (mt & Hmt & _). unfold Agent.is_double. by rewrite Hmt. }
  rewrite Hd, andb_true_r.
  destruct (i `mod` 20 =? 0)%nat eqn:Hi.
  - apply Nat.eqb_eq in Hi.
    destruct (Agent.sync a1) as [e|a2] eqn:Hs; [done|].
    intros [= <- <-].
    destruct (sync_spec S _ _ Ha1 Hs) as (_ & Hts & Hm).
    split; [|lia]. intros _. by rewrite Hts, Hm.
  - apply Nat.eqb_neq in Hi. intros [= <- <-]. split; [lia|done].
Qed.

(** The theorem of X19 on the first step of episode 0, for a one-unit
    [DQN] with gradient [[1]] for every tensor. *)
Lemma sync_cadence_witness :
  ∃ (a0 a' : Agent.agent unit) (synced' : gmap string (list R)),
    Agent.init (map (λ n, (n, [0])) Agent.DQN_names) [] (λ _, [1])
      true false tt = inr a0
    ∧ Agent.step subtract_gradient 0
        {| Agent.backward := inr (λ _, Some [1]); Agent.noise := ∅ |}
        a0 ∅ = (a', synced', None)
    ∧ Agent.target_state a'
      = Some (Agent.state_dict (Agent.model a') (Agent.heap a'))
    ∧ synced' = Agent.state_dict (Agent.model a') (Agent.heap a').
Proof.
  destruct (Agent.init (map (λ n, (n, [0])) Agent.DQN_names) []
              (λ _, [1]) true false tt) as [e|a0] eqn:E.
  { vm_compute in E. discriminate E. }
  destruct (Agent.step subtract_gradient 0
              {| Agent.backward := inr (λ _, Some [1]);
                 Agent.noise := ∅ |} a0 ∅)
    as [[a' synced'] [e|]] eqn:Hstep.
  { exfalso. revert Hstep. unfold Agent.step.
    destruct (Agent.update _ _ a0) as [e'|a1] eqn:Hu; [done|].
    destruct (init_target _ _ _ _ _ _ E) as [Ha0 _].
    destruct (update_keeps_target unit subtract_gradient _ _ _ Ha0 Hu)
      as [Ha1 Ht1].
    destruct Ha1 as (mt & Hmt & Hnd & Hin).
    unfold Agent.is_double, Agent.sync. rewrite Hmt. simpl.
    unfold Agent.load_state_dict.
    destruct (update_frame unit subtract_gradient _ _ _ Hu)
      as (Hm & _ & _ & Hlen & _).
    revert Hmt Hlen. revert Hu. vm_compute in E.
    injection E as <-. intros Hu. vm_compute in Hu. injection Hu as <-.
    intros [= <-] _. vm_compute. done. }
  exists a0, a', synced'. split; [reflexivity|]. split; [exact Hstep|].
  destruct (init_target _ _ _ _ _ _ E) as [Ha0 _].
  destruct (sync_cadence subtract_gradient 0 _ a0 a' ∅ synced' Ha0 Hstep)
    as [H _].
  apply H. reflexivity.
Defined.

(** ** The loss of the distributional agent *)

Lemma softmax_le_1 (logits : list R) : Forall (λ m, m <= 1) (softmax logits).
Proof.
  destruct logits as [|v logits]; [constructor|].
  apply Forall_lookup. intros k w Hw.
  rewrite <- (softmax_sum (v :: logits)) by done.
  apply (entry_le_sum _ ltac:(eapply Forall_impl;
                               [apply softmax_pos|intros; simpl in *; lra])
           k w Hw).
Qed.



(** ** The rewards of train and test *)

Lemma Rsum_running (rs : list R) :
  ∀ c, Rsum (Agent.running c rs)
       = INR (length rs) * c + weighted_rewards rs.
Proof.
  induction rs as [|r rs IH]; intros c.
  - simpl. rewrite Rsum_nil. lra.
  - cbn [Agent.running weighted_rewards]. rewrite Rsum_cons, IH.
    cbn [length]. rewrite S_INR. lra.
Qed.

Lemma for_rewards_log (episodes : list (list R)) :
  ∀ i rewards_lst best,
    (Agent.for_rewards i episodes rewards_lst best).1
    = rewards_lst ++ concat (map (Agent.running 0) episodes).
Proof.
  induction episodes as [|rs episodes IH]; intros i rewards_lst best.
  - simpl. by rewrite app_nil_r.
  - cbn [Agent.for_rewards]. rewrite IH. simpl. by rewrite <- app_assoc.
Qed.

Lemma Rsum_concat_map (f : list R → list R) (ls : list (list R)) :
  Rsum (concat (map f ls)) = Rsum (map (λ l, Rsum (f l)) ls).
Proof.
  induction ls as [|l ls IH]; [done|].
  simpl. by rewrite Rsum_app, Rsum_cons, IH.
Qed.

Lemma weighted_rewards_last (k : nat) (r : R) :
  weighted_rewards (repeat 0 k ++ [r]) = r.
Proof.
  induction k as [|k IH]; cbn [repeat app weighted_rewards].
  - simpl. lra.
  - rewrite IH. lra.
Qed.

Lemma weighted_rewards_zeros (k : nat) : weighted_rewards (repeat 0 k) = 0.
Proof.
  induction k as [|k IH]; cbn [repeat weighted_rewards]; [done|].
  rewrite IH. lra.
Qed.

(** X22. The sum of [rewards_lst], which [train] divides by the number
    of the episode to get the reward rate, counts the reward of a step
    once for that step and once more for every later step of its
    episode, since the running total of the episode is appended at every
    step. A reward at the last step of an episode counts once; a reward
    at the first of [k + 1] steps counts [k + 1] times. *)
Theorem reward_rate_weights (episodes : list (list R)) (k : nat) (r : R) :
  Rsum (Agent.train_rewards episodes).1
  = Rsum (map weighted_rewards episodes)
  ∧ weighted_rewards (repeat 0 k ++ [r]) = r
  ∧ weighted_rewards (r :: repeat 0 k) = INR (S k) * r.
Proof.
  split; [|split].
  - unfold Agent.train_rewards. rewrite for_rewards_log. simpl.
    rewrite Rsum_concat_map. f_equal. apply map_ext. intros rs.
    rewrite Rsum_running. lra.
  - apply weighted_rewards_last.
  - cbn [weighted_rewards]. rewrite weighted_rewards_zeros.
    cbn [length]. rewrite repeat_length. lra.
Qed.

Lemma running_nonpos (rs : list R) :
  ∀ c, c <= 0 → Forall (λ r, r <= 0) rs →
    Forall (λ v, v <= 0) (Agent.running c rs).
Proof.
  induction rs as [|r rs IH]; intros c Hc Hrs; [constructor|].
  inversion Hrs; subst. cbn [Agent.running]. constructor; [lra|].
  apply IH; [lra|done].
Qed.

Lemma Rsum_nonpos (l : list R) : Forall (λ v, v <= 0) l → Rsum l <= 0.
Proof.
  induction 1 as [|v l Hv _ IH]; [rewrite Rsum_nil; lra|].
  rewrite Rsum_cons. lra.
Qed.

Lemma for_rewards_checkpoints (episodes : list (list R)) :
  ∀ i rewards_lst best_rate saved,
    (saved = [] → best_rate = 0) → (saved ≠ [] → 0 < best_rate) →
    Forall (λ j, j ≠ 0%nat ∧ j `mod` 10 = 0%nat ∧ (j < i)%nat) saved →
    let r := Agent.for_rewards i episodes rewards_lst (best_rate, saved) in
    (r.2.2 = [] → r.2.1 = 0) ∧ (r.2.2 ≠ [] → 0 < r.2.1)
    ∧ Forall (λ j, j ≠ 0%nat ∧ j `mod` 10 = 0%nat
                   ∧ (j < i + length episodes)%nat) r.2.2
    ∧ (Rsum rewards_lst <= 0 → saved = [] →
       Forall (Forall (λ v, v <= 0)) episodes → r.2.2 = []).
Proof.
  induction episodes as [|rs episodes IH];
    intros i rewards_lst best_rate saved H0 Hpos Hsaved.
  { simpl. split; [done|]. split; [done|]. split; [|done].
    eapply Forall_impl; [exact Hsaved|]. intros j (? & ? & ?).
    repeat split; [done|done|lia]. }
  cbn [Agent.for_rewards length].
  set (rl := rewards_lst ++ Agent.running 0 rs).
  destruct (Agent.checkpoint i rl (best_rate, saved))
    as [best_rate' saved'] eqn:Hc.
  assert (Hinv : (saved' = [] → best_rate' = 0)
                 ∧ (saved' ≠ [] → 0 < best_rate')
                 ∧ Forall (λ j, j ≠ 0%nat ∧ j `mod` 10 = 0%nat
                                ∧ (j < S i)%nat) saved'
                 ∧ (Rsum rl <= 0 → saved = [] → saved' = [])).
  { assert (Hold : Forall (λ j, j ≠ 0%nat ∧ j `mod` 10 = 0%nat
                                ∧ (j < S i)%nat) saved).
    { eapply Forall_impl; [exact Hsaved|]. intros j (? & ? & ?).
      repeat split; [done|done|lia]. }
    unfold Agent.checkpoint in Hc.
    destruct (i `mod` 10 =? 0)%nat eqn:Hm; simpl in Hc;
      [|by simplify_eq].
    destruct (i =? 0)%nat eqn:Hz; [by simplify_eq|].
    apply Nat.eqb_eq in Hm. apply Nat.eqb_neq in Hz.
    destruct (Rgt_dec (Rsum rl / INR i) best_rate) as [Hgt|Hle];
      [|by simplify_eq].
    simplify_eq.
    assert (0 <= best_rate).
    { destruct saved; [rewrite H0 by done; lra|].
      left. by apply Hpos. }
    assert (0 < INR i) by (apply lt_0_INR; lia).
    split; [done|]. split; [intros _; lra|]. split.
    - constructor; [repeat split; [done|done|lia]|done].
    - intros Hrl _. exfalso.
      assert (Rsum rl / INR i <= 0); [|lra].
      apply Rmult_le_reg_r with (INR i); [done|].
      unfold Rdiv. rewrite Rmult_assoc, Rinv_l by lra. lra. }
  destruct Hinv as (H0' & Hpos' & Hsaved' & Hnone).
  destruct (IH (S i) rl best_rate' saved' H0' Hpos' Hsaved')
    as (R0 & Rpos & Rsaved & Rnone).
  split; [done|]. split; [done|]. split.
  - eapply Forall_impl; [exact Rsaved|]. intros j (? & ? & ?).
    repeat split; [done|done|lia].
  - intros Hrl Hs Hall. inversion Hall; subst.
    assert (Hrl' : Rsum rl <= 0).
    { unfold rl. rewrite Rsum_app.
      assert (Rsum (Agent.running 0 rs) <= 0); [|lra].
      apply Rsum_nonpos, running_nonpos; [lra|done]. }
    apply Rnone; [done|by apply Hnone|done].
Qed.

(** X23. In [train] the model is saved inside the loop only at the end
    of an episode whose index is a positive multiple of 10, and only
    when the reward rate is above [best_rate], which starts at 0: after
    any number of episodes [best_rate] is 0 if nothing was saved and
    positive otherwise, and when no step ever gives a positive reward
    nothing is saved before the last line of [train]. *)
Theorem checkpoints_need_positive_rate (episodes : list (list R)) :
  let best_rate := (Agent.train_rewards episodes).2.1 in
  let saved := (Agent.train_rewards episodes).2.2 in
  (saved = [] → best_rate = 0) ∧ (saved ≠ [] → 0 < best_rate)
  ∧ Forall (λ j, j ≠ 0%nat ∧ j `mod` 10 = 0%nat
                 ∧ (j < length episodes)%nat) saved
  ∧ (Forall (Forall (λ v, v <= 0)) episodes → saved = []).
Proof.
  unfold Agent.train_rewards.
  destruct (for_rewards_checkpoints episodes 0 [] 0 [])
    as (H0 & Hpos & Hsaved & Hnone); [done|done|constructor|].
  cbv zeta. split; [done|]. split; [done|]. split; [done|].
  intros Hall. apply Hnone; [rewrite Rsum_nil; lra|done|done].
Qed.

Lemma foldl_Rplus (rs : list R) : ∀ c, foldl Rplus c rs = c + Rsum rs.
Proof.
  induction rs as [|r rs IH]; intros c; simpl.
  - rewrite Rsum_nil. lra.
  - rewrite IH, Rsum_cons. lra.
Qed.

(** X24. [test] prints Victory exactly when the rewards of the episode
    do not sum to 0. When no reward is negative this is when some step
    gave a positive reward; rewards of both signs can cancel, and the
    episode then counts as lost. *)
Theorem test_outcome_spec (rs : list R) :
  (Agent.test_outcome rs = "Victory"%string ↔ Rsum rs ≠ 0)
  ∧ (Agent.test_outcome rs = "Lost"%string ↔ Rsum rs = 0)
  ∧ (Forall (λ r, 0 <= r) rs →
     (Agent.test_outcome rs = "Victory"%string ↔ Exists (λ r, 0 < r) rs))
  ∧ Agent.test_outcome [1; -1] = "Lost"%string.
Proof.
  assert (Hv : Agent.test_outcome rs = "Victory"%string ↔ Rsum rs ≠ 0).
  { unfold Agent.test_outcome. rewrite foldl_Rplus, Rplus_0_l.
    destruct (Req_dec_T (Rsum rs) 0); split; try done. }
  split; [exact Hv|]. split; [|split].
  - unfold Agent.test_outcome. rewrite foldl_Rplus, Rplus_0_l.
    destruct (Req_dec_T (Rsum rs) 0); split; try done.
  - intros Hpos. rewrite Hv. clear Hv.
    induction Hpos as [|r rs Hr Hrs IH].
    + rewrite Rsum_nil. split; [done|]. by intros ?%Exists_nil.
    + rewrite Rsum_cons, Exists_cons.
      pose proof (Rsum_nonneg _ Hrs) as Hs. split.
      * intros Hne. destruct (Rle_lt_dec r 0) as [Hle|Hlt]; [|by left].
        right. apply IH. lra.
      * intros [Hlt|Hex]; [lra|]. apply IH in Hex. lra.
  - unfold Agent.test_outcome. simpl.
    destruct (Req_dec_T (0 + 1 + -1) 0) as [|Hne]; [done|].
    exfalso. apply Hne. lra.
Qed.

(** ** update: the loss of a plain DQN agent *)

Lemma smooth_l1_loss_spec (prediction target : R) :
  0 <= Agent.smooth_l1_loss prediction target
  ∧ Agent.smooth_l1_loss prediction target <= Rabs (prediction - target)
  ∧ (Agent.smooth_l1_loss prediction target = 0 ↔ prediction = target).
Proof.
  unfold Agent.smooth_l1_loss.
  pose proof (Rabs_pos (prediction - target)) as Hd.
  destruct (Rlt_dec (Rabs (prediction - target)) 1) as [Hlt|Hge].
  - split; [nra|]. split; [nra|]. split.
    + intros H0. assert (Rabs (prediction - target) = 0) by nra.
      destruct (Req_dec (prediction - target) 0) as [Heq|Hne]; [lra|].
      apply Rabs_pos_lt in Hne. lra.
    + intros ->. rewrite Rminus_diag, Rabs_R0. lra.
  - split; [lra|]. split; [lra|]. split; [lra|].
    intros ->. rewrite Rminus_diag, Rabs_R0 in Hge. lra.
Qed.

(** X26. For an agent with a plain [DQN] and without double-DQN, the
    loss of [update] is defined exactly when [action] is an index of the
    output of the network for [state] (otherwise [IndexError]), given
    that a target exists, which needs a non-empty output for [next_state]
    unless the transition is terminal. The loss is then the Huber
    distance between [Q(state)[action]] and the target: never negative,
    at most the absolute difference, and 0 exactly when the two are
    equal. *)
Theorem update_loss_DQN (layers target_layers : list R → list R)
    (gamma reward : R) (done : bool) (next_state state : list R)
    (action : nat) :
  done = true ∨ layers next_state ≠ [] →
  ∃ target,
    Agent.get_target (DQN.call layers) target_layers gamma false reward
      done next_state = inr target
    ∧ (done = true → target = reward)
    ∧ (length (layers state) ≤ action →
       Agent.update_loss (DQN.call layers) target_layers gamma false
         reward done next_state state action = inl IndexError)
    ∧ ∀ prediction,
        layers state !! action = Some prediction →
        ∃ loss,
          Agent.update_loss (DQN.call layers) target_layers gamma false
            reward done next_state state action = inr loss
          ∧ 0 <= loss <= Rabs (prediction - target)
          ∧ (loss = 0 ↔ prediction = target).
Proof.
  intros Hd.
  assert (Ht : ∃ target,
            Agent.get_target (DQN.call layers) target_layers gamma false
              reward done next_state = inr target
            ∧ (done = true → target = reward)).
  { destruct done.
    - exists reward. by split.
    - destruct Hd as [Hd|Hne]; [done|].
      destruct (get_target_single (DQN.call layers) target_layers gamma
                  reward next_state (layers next_state) eq_refl Hne)
        as (m & Hm & _).
      eexists. split; [exact Hm|done]. }
  destruct Ht as (target & Ht & Hdone). exists target.
  split; [done|]. split; [done|].
  unfold Agent.update_loss. rewrite Ht. cbn [bind DQN.call ret].
  unfold DQN.forward, index. split.
  - intros Hlen. by rewrite lookup_ge_None_2.
  - intros prediction Hp. rewrite Hp. cbn [bind ret].
    eexists. split; [done|].
    destruct (smooth_l1_loss_spec prediction target) as (H0 & H1 & H2).
    done.
Qed.

(** The theorem of X26 on a network with two actions and a transition
    that is not terminal. *)
Lemma update_loss_DQN_witness :
  ∃ target,
    Agent.get_target (DQN.call (λ _, [1; 3])) (λ _, []) (9 / 10) false 1
      false [0] = inr target
    ∧ (false = true → target = 1)
    ∧ (length [1; 3] ≤ 1 →
       Agent.update_loss (DQN.call (λ _, [1; 3])) (λ _, []) (9 / 10) false
         1 false [0] [0] 1 = inl IndexError)
    ∧ ∀ prediction,
        [1; 3] !! 1%nat = Some prediction →
        ∃ loss,
          Agent.update_loss (DQN.call (λ _, [1; 3])) (λ _, []) (9 / 10)
            false 1 false [0] [0] 1 = inr loss
          ∧ 0 <= loss <= Rabs (prediction - target)
          ∧ (loss = 0 ↔ prediction = target).
Proof.
  apply (update_loss_DQN (λ _, [1; 3]) (λ _, []) (9 / 10) 1 false [0] [0] 1).
  by right.
Defined.
